(** * LightLDA: trainer iteration protocol, table configuration, initialisation

    A shallow embedding of [src/trainer.cpp], [src/lightlda.cpp] and of the
    interface declared in [src/alias_table.h], with the properties of the
    design document proved (or refuted) against it. *)

From Stdlib Require Import ZArith Lia Floats QArith Lqa.
From stdpp Require Import base list gmap.

Local Open Scope Z_scope.

(** ** Machine integers

    [int32_t] values are modelled as [Z]; the result of an arithmetic
    operation is reduced to the two's-complement range. *)

Module Int32.

Definition min_signed : Z := - 2 ^ 31.
Definition max_signed : Z := 2 ^ 31 - 1.

Definition in_range (z : Z) : Prop := min_signed <= z <= max_signed.

Definition wrap (z : Z) : Z := (z + 2 ^ 31) mod 2 ^ 32 - 2 ^ 31.

Definition add (a b : Z) : Z := wrap (a + b).
Definition mul (a b : Z) : Z := wrap (a * b).
(** C++ [%] truncates toward zero. *)
Definition rem (a b : Z) : Z := Z.rem a b.

End Int32.

(** ** Strided loops

    Both partition loops of [Trainer::TrainIteration] have the shape
    [for (p = first; p < last; p += stride)].  [steps] bounds the number
    of iterations; the callers below pass the distance [last - first],
    which a loop with [stride >= 1] never exceeds (see [ptr_loop_unfold]). *)

(** Pointer version: [const int32_t* pword], addresses counted in elements. *)
Fixpoint ptr_loop (steps : nat) (p last stride : Z) : list Z :=
  match steps with
  | O => []
  | S n => if p <? last then p :: ptr_loop n (p + stride) last stride else []
  end.

(** [int32_t] version: [doc_id += trainer_num] is a 32-bit addition. *)
Fixpoint idx_loop (steps : nat) (i last stride : Z) : list Z :=
  match steps with
  | O => []
  | S n => if i <? last then i :: idx_loop n (Int32.add i stride) last stride else []
  end.

(** trainer.cpp:61-63, the positions of the slice's word array that the
    thread [id] of [trainer_num] visits. *)
Definition word_positions (vbegin vend id trainer_num : Z) : list Z :=
  ptr_loop (Z.to_nat (vend - (vbegin + id))) (vbegin + id) vend trainer_num.

(** trainer.cpp:94, the document ids the thread [id] visits. *)
Definition doc_ids (size id trainer_num : Z) : list Z :=
  idx_loop (Z.to_nat (size - id)) id size trainer_num.

(** A family of lists indexed by thread id is a partition of [[lo, hi)]. *)
Definition partitions (T : Z) (part : Z -> list Z) (lo hi : Z) : Prop :=
  (forall id, 0 <= id < T -> NoDup (part id)) /\
  (forall id1 id2 p, 0 <= id1 < T -> 0 <= id2 < T ->
      p ∈ part id1 -> p ∈ part id2 -> id1 = id2) /\
  (forall p, lo <= p < hi <-> exists id, 0 <= id < T /\ p ∈ part id).


(** ** Data model *)

(** Modelled from the spec: the class [Document] (document.h is not among
    the sources) is an "ordered sequence of (word, topic) pairs", with
    "topic assignments mutated in place"; it is read with [Word]/[Topic] and
    written with [SetTopic].  An index outside the array reads [(0, 0)] and
    writes nothing; no loop below reaches one, except [Topic 0] of an empty
    document, whose value is then not used. *)
Abbreviation Document := (list (Z * Z)).

Module Doc.

Definition Size (d : Document) : Z := Z.of_nat (length d).

Definition token (d : Document) (i : Z) : Z * Z :=
  if i <? 0 then (0, 0) else default (0, 0) (d !! Z.to_nat i).

Definition Word (d : Document) (i : Z) : Z := (token d i).1.
Definition Topic (d : Document) (i : Z) : Z := (token d i).2.

Definition SetTopic (d : Document) (i t : Z) : Document :=
  if i <? 0 then d else <[Z.to_nat i := (Word d i, t)]> d.

End Doc.

(** Modelled from the spec: a data block (data_block.h is not among the
    sources) holds its documents in order; [DataBlock::GetOneDoc] returns a
    pointer to one of them, and [PutOneDoc] is the write-back of a document
    mutated through that pointer. *)
Definition GetOneDoc (docs : list Document) (doc_id : Z) : Document :=
  if doc_id <? 0 then [] else default [] (docs !! Z.to_nat doc_id).

Definition PutOneDoc (docs : list Document) (doc_id : Z) (d : Document)
  : list Document :=
  if doc_id <? 0 then docs else <[Z.to_nat doc_id := d]> docs.

(** meta.h, [LocalVocab]: the word array of a block, with the address range
    of each slice.  Addresses are counted in array elements. *)
Record LocalVocab := {
  vocab_at : Z -> Z;
  vocab_begin : Z -> Z;
  vocab_end : Z -> Z;
  LastWord : Z -> Z
}.

(** [LDADataBlock]: what [TrainIteration] reads of the block pushed to it;
    the documents themselves live in the thread state below. *)
Record LDADataBlock := {
  lda_meta : LocalVocab;
  lda_block : Z;
  lda_slice : Z;
  lda_iteration : Z
}.

(** The fields of [Config] (common.h) that the modelled code reads. *)
Record Config := {
  num_topics : Z;
  num_vocabs : Z;
  num_iterations : Z;
  asymmetric_alpha : float;
  word_init : bool;
  warm_start : bool
}.

(** ** Observable actions of a trainer thread *)

(** [Log::Info] messages (clock readings are not modelled). *)
Inductive info :=
  | InfoSlice (iter block slice : Z)
  | InfoNonZeroTopic
  | InfoAliasTime
  | InfoTrainingTime
  | InfoThroughput (num_token : Z)
  | InfoEvaluationTime
  | InfoDocLikelihood
  | InfoWordLikelihood
  | InfoNormalizedLikelihood.

(** [Log::Fatal] messages with their arguments. *)
Inductive fatal :=
  | FatalWordTopic (word topic : Z)
  | FatalDocTopic (word topic doc_topic : Z).

Inductive event :=
  | EvInit (block slice : Z)            (* alias_->Init(meta_->alias_index(block, slice)) *)
  | EvWait (elected : bool)             (* barrier_->Wait() and what it returned *)
  | EvBuild (word : Z)                  (* alias_->Build(word, model_) *)
  | EvInitAsymmetricAlpha               (* alias_->InitAsymmetricAlpha(model_) *)
  | EvSampleOneDoc (doc_id : Z)         (* sampler_->SampleOneDoc(doc, ...) *)
  | EvInfo (m : info)
  | EvFatal (m : fatal)
  | EvLock                              (* std::lock_guard constructed on mutex_ *)
  | EvUnlock                            (* ... and destroyed *)
  | EvAddDocLLH (v : float)             (* doc_llh_ += v *)
  | EvResetDocLLH                       (* doc_llh_ = 0 *)
  | EvAddWordLLH (v : float)            (* word_llh_ += v *)
  | EvResetWordLLH                      (* word_llh_ = 0 *)
  | EvClear.                            (* alias_->Clear() *)

Definition is_wait (e : event) : bool :=
  match e with EvWait _ => true | _ => false end.

Definition is_fatal (e : event) : bool :=
  match e with EvFatal _ => true | _ => false end.

Definition is_info (e : event) : bool :=
  match e with EvInfo _ => true | _ => false end.

(** The static members [Trainer::doc_llh_] and [Trainer::word_llh_]
    (trainer.cpp:19-20) and the effect of an action on them. *)
Record statics := { doc_llh_ : float; word_llh_ : float }.

Definition apply_event (e : event) (s : statics) : statics :=
  match e with
  | EvAddDocLLH v => {| doc_llh_ := (doc_llh_ s + v)%float; word_llh_ := word_llh_ s |}
  | EvResetDocLLH => {| doc_llh_ := 0%float; word_llh_ := word_llh_ s |}
  | EvAddWordLLH v => {| doc_llh_ := doc_llh_ s; word_llh_ := (word_llh_ s + v)%float |}
  | EvResetWordLLH => {| doc_llh_ := doc_llh_ s; word_llh_ := 0%float |}
  | _ => s
  end.

(** ** External collaborators

    The sampler, the likelihood formulas and everything they read (model,
    alias table, random numbers) are outside the modelled code; [world]
    stands for their state. *)
Class Collaborators := {
  world : Type;
  SampleOneDoc : world -> Document -> Z -> Z -> world * Document * Z;
  ComputeOneDocLLH : world -> Document -> float;
  ComputeOneWordLLH : world -> Z -> float
}.

(** ** The thread monad

    A trainer thread owns its view of the documents, the state of its
    collaborators and the list of actions performed so far; [ts_barrier k]
    is what its [k]-th call of [Barrier::Wait] returns.  A run ended by
    [Log::Fatal] is [Halted]. *)
Record thread_state `{Collaborators} := {
  ts_docs : list Document;
  ts_world : world;
  ts_barrier : nat -> bool;
  ts_waits : nat;
  ts_trace : list event
}.

Inductive outcome `{Collaborators} (A : Type) :=
  | Done (a : A) (s : thread_state)
  | Halted (s : thread_state).
Arguments Done {_ _} a s.
Arguments Halted {_ _} s.

Definition Thread `{Collaborators} (A : Type) : Type := thread_state -> outcome A.

Definition final_state `{Collaborators} {A} (o : outcome A) : thread_state :=
  match o with Done _ s => s | Halted s => s end.

Definition halted `{Collaborators} {A} (o : outcome A) : bool :=
  match o with Done _ _ => false | Halted _ => true end.

#[global] Instance Thread_ret `{Collaborators} : MRet Thread :=
  fun A a s => Done a s.

#[global] Instance Thread_bind `{Collaborators} : MBind Thread :=
  fun A B f c s =>
    match c s with
    | Done a s' => f a s'
    | Halted s' => Halted s'
    end.

Section ThreadOps.
Context `{Collaborators}.

Definition push (e : event) (s : thread_state) : thread_state :=
  {| ts_docs := ts_docs s; ts_world := ts_world s; ts_barrier := ts_barrier s;
     ts_waits := ts_waits s; ts_trace := ts_trace s ++ [e] |}.

Definition emit (e : event) : Thread unit := fun s => Done tt (push e s).

Definition Log_Info (m : info) : Thread unit := emit (EvInfo m).

(** Modelled from the spec: [Log::Fatal] (multiverso/log.h, not among the
    sources) writes "a fatal log message" that is "followed by process
    termination": the thread does nothing after it. *)
Definition Log_Fatal {A} (m : fatal) : Thread A := fun s => Halted (push (EvFatal m) s).

(** Modelled from the spec: [Barrier::Wait] (multiverso/barrier.h, not among
    the sources) returns a boolean, "true on exactly one calling thread per
    release"; the thread sees the value [ts_barrier] holds for this call. *)
Definition Wait : Thread bool := fun s =>
  let b := ts_barrier s (ts_waits s) in
  Done b {| ts_docs := ts_docs s; ts_world := ts_world s; ts_barrier := ts_barrier s;
            ts_waits := S (ts_waits s); ts_trace := ts_trace s ++ [EvWait b] |}.

Definition get_docs : Thread (list Document) := fun s => Done (ts_docs s) s.
Definition get_world : Thread world := fun s => Done (ts_world s) s.

Definition when (b : bool) (c : Thread unit) : Thread unit :=
  if b then c else mret tt.

(** [for (x : l) acc = body x acc], left to right. *)
Fixpoint for_each {A S} (l : list A) (body : A -> S -> Thread S) (acc : S) : Thread S :=
  match l with
  | [] => mret acc
  | x :: l' => acc' ← body x acc; for_each l' body acc'
  end.

(** trainer.cpp:115, the call of the external sampler on document [doc_id]. *)
Definition sample (doc_id slice lastword : Z) : Thread Z := fun s =>
  let '(w, d, n) := SampleOneDoc (ts_world s) (GetOneDoc (ts_docs s) doc_id) slice lastword in
  Done n {| ts_docs := PutOneDoc (ts_docs s) doc_id d; ts_world := w;
            ts_barrier := ts_barrier s; ts_waits := ts_waits s;
            ts_trace := ts_trace s ++ [EvSampleOneDoc doc_id] |}.

(** trainer.cpp:99-114, the check made on a document at iteration 0, slice 0. *)
Definition check_word_init (doc : Document) : Thread unit :=
  for_each (seqZ 0 (Doc.Size doc)) (fun word_idx _ =>
    if negb (Doc.Topic doc word_idx =? Doc.Word doc word_idx) then
      Log_Fatal (FatalWordTopic (Doc.Word doc word_idx) (Doc.Topic doc word_idx))
    else mret tt) tt.

Definition check_doc_topic (doc : Document) : Thread unit :=
  let doc_topic_id := Doc.Topic doc 0 in
  for_each (seqZ 1 (Doc.Size doc - 1)) (fun word_idx _ =>
    if negb (Doc.Topic doc word_idx =? doc_topic_id) then
      Log_Fatal (FatalDocTopic (Doc.Word doc word_idx) (Doc.Topic doc word_idx) doc_topic_id)
    else mret tt) tt.

Definition warm_start_check (cfg : Config) (iter slice : Z) (doc : Document)
  : Thread unit :=
  when ((iter =? 0) && (slice =? 0))
    (if word_init cfg then check_word_init doc else check_doc_topic doc).

(** trainer.cpp:94-116, one pass of the sampling loop body. *)
Definition sample_body (cfg : Config) (iter slice lastword : Z)
    (doc_id : Z) (num_token : Z) : Thread Z :=
  docs ← get_docs;
  warm_start_check cfg iter slice (GetOneDoc docs doc_id);;
  n ← sample doc_id slice lastword;
  mret (Int32.add num_token n).

(** trainer.cpp:141-192. *)
Definition Evaluate (id trainer_num : Z) (b : LDADataBlock) : Thread unit :=
  let block := lda_block b in
  let slice := lda_slice b in
  let local_vocab := lda_meta b in
  docs ← get_docs;
  w ← get_world;
  (* 1. Evaluate doc likelihood; the loop condition carries [slice == 0] *)
  thread_doc ← for_each
      (if slice =? 0 then doc_ids (Z.of_nat (length docs)) id trainer_num else [])
      (fun doc_id acc => mret (acc + ComputeOneDocLLH w (GetOneDoc docs doc_id))%float)
      0%float;
  emit EvLock;; emit (EvAddDocLLH thread_doc);; emit EvUnlock;;
  (if slice =? 0 then
     elected ← Wait;
     when elected (Log_Info InfoDocLikelihood;; emit EvResetDocLLH)
   else mret tt);;
  (* 2. Evaluate word likelihood; the loop condition carries [block == 0] *)
  thread_word ← for_each
      (if block =? 0 then
         word_positions (vocab_begin local_vocab slice) (vocab_end local_vocab slice)
                        id trainer_num
       else [])
      (fun p acc => mret (acc + ComputeOneWordLLH w (vocab_at local_vocab p))%float)
      0%float;
  emit EvLock;; emit (EvAddWordLLH thread_word);; emit EvUnlock;;
  (if block =? 0 then
     elected ← Wait;
     when elected (Log_Info InfoWordLikelihood;; emit EvResetWordLLH)
   else mret tt);;
  (* 3. Evaluate normalize item for word likelihood *)
  when ((id =? 0) && (block =? 0)) (Log_Info InfoNormalizedLikelihood);;
  _ ← Wait;
  mret tt.

(** trainer.cpp:58-84, from the installation of the index to the barrier
    that precedes sampling. *)
Definition build_phase (cfg : Config) (id trainer_num : Z) (b : LDADataBlock)
  : Thread unit :=
  let block := lda_block b in
  let slice := lda_slice b in
  let local_vocab := lda_meta b in
  when (id =? 0) (emit (EvInit block slice));;
  _ ← Wait;
  for_each
    (word_positions (vocab_begin local_vocab slice) (vocab_end local_vocab slice)
                    id trainer_num)
    (fun pword _ => emit (EvBuild (vocab_at local_vocab pword))) tt;;
  when (id =? 0) (emit (EvBuild (-1));; Log_Info InfoNonZeroTopic);;
  when ((id =? 0) && (0 <=? asymmetric_alpha cfg)%float) (emit EvInitAsymmetricAlpha);;
  _ ← Wait;
  mret tt.

(** trainer.cpp:86-123. *)
Definition sampling_phase (cfg : Config) (id trainer_num : Z) (b : LDADataBlock)
  : Thread unit :=
  let slice := lda_slice b in
  let iter := lda_iteration b in
  let lastword := LastWord (lda_meta b) slice in
  when (id =? 0) (Log_Info InfoAliasTime);;
  docs ← get_docs;
  num_token ← for_each (doc_ids (Z.of_nat (length docs)) id trainer_num)
                       (sample_body cfg iter slice lastword) 0;
  when (id =? 0) (Log_Info InfoTrainingTime;; Log_Info (InfoThroughput num_token)).

(** trainer.cpp:124-138. *)
Definition closing_phase (cfg : Config) (id trainer_num : Z) (b : LDADataBlock)
  : Thread unit :=
  let iter := lda_iteration b in
  when (Int32.rem iter 2 =? 0)
    (Evaluate id trainer_num b;;
     when (id =? 0) (Log_Info InfoEvaluationTime));;
  when (iter =? Int32.wrap (num_iterations cfg - 1)) (emit EvClear).

(** trainer.cpp:37-139, [Trainer::TrainIteration] run by the thread
    [id = TrainerId()] of [trainer_num = TrainerCount()]. *)
Definition TrainIteration (cfg : Config) (id trainer_num : Z) (b : LDADataBlock)
  : Thread unit :=
  when (id =? 0)
    (Log_Info (InfoSlice (lda_iteration b) (lda_block b) (lda_slice b)));;
  build_phase cfg id trainer_num b;;
  sampling_phase cfg id trainer_num b;;
  closing_phase cfg id trainer_num b.

(** The state in which a thread enters [TrainIteration]. *)
Definition enter (docs : list Document) (w : world) (barrier : nat -> bool)
  : thread_state :=
  {| ts_docs := docs; ts_world := w; ts_barrier := barrier;
     ts_waits := 0; ts_trace := [] |}.

(** [advance n evs s]: [s] after [n] more barrier waits and the actions
    [evs], documents and collaborators untouched. *)
Definition advance (n : nat) (evs : list event) (s : thread_state) : thread_state :=
  {| ts_docs := ts_docs s; ts_world := ts_world s; ts_barrier := ts_barrier s;
     ts_waits := (n + ts_waits s)%nat; ts_trace := ts_trace s ++ evs |}.

(** The partial sums of [Evaluate] (trainer.cpp:151-156 and 169-173). *)
Definition thread_doc_llh (id trainer_num : Z) (b : LDADataBlock)
    (docs : list Document) (w : world) : float :=
  foldl (fun acc doc_id => (acc + ComputeOneDocLLH w (GetOneDoc docs doc_id))%float)
        0%float
        (if lda_slice b =? 0 then doc_ids (Z.of_nat (length docs)) id trainer_num else []).

Definition thread_word_llh (id trainer_num : Z) (b : LDADataBlock) (w : world) : float :=
  foldl (fun acc p => (acc + ComputeOneWordLLH w (vocab_at (lda_meta b) p))%float)
        0%float
        (if lda_block b =? 0 then
           word_positions (vocab_begin (lda_meta b) (lda_slice b))
                          (vocab_end (lda_meta b) (lda_slice b)) id trainer_num
         else []).

(** The actions of a gated barrier wait [if (gate && barrier_->Wait()) { log; reset }]. *)
Definition gated_wait_events (gate elected : bool) (m : info) (reset : event)
  : list event :=
  if gate then EvWait elected :: (if elected then [EvInfo m; reset] else []) else [].

(** The actions of one call of [Evaluate], given what the barrier returns
    at the (possible) document wait, word wait and final wait. *)
Definition evaluate_events (id trainer_num : Z) (b : LDADataBlock)
    (docs : list Document) (w : world) (e_doc e_word e_end : bool) : list event :=
  [EvLock; EvAddDocLLH (thread_doc_llh id trainer_num b docs w); EvUnlock]
  ++ gated_wait_events (lda_slice b =? 0) e_doc InfoDocLikelihood EvResetDocLLH
  ++ [EvLock; EvAddWordLLH (thread_word_llh id trainer_num b w); EvUnlock]
  ++ gated_wait_events (lda_block b =? 0) e_word InfoWordLikelihood EvResetWordLLH
  ++ (if (id =? 0) && (lda_block b =? 0) then [EvInfo InfoNormalizedLikelihood] else [])
  ++ [EvWait e_end].

(** The number of barrier waits one call of [Evaluate] makes before its last. *)
Definition gated_waits (b : LDADataBlock) : nat :=
  ((if (lda_slice b =? 0)%Z then 1 else 0) + (if (lda_block b =? 0)%Z then 1 else 0))%nat.

(** The actions of [build_phase], given what the two barrier waits return. *)
Definition build_events (cfg : Config) (id trainer_num : Z) (b : LDADataBlock)
    (e1 e2 : bool) : list event :=
  (if id =? 0 then [EvInit (lda_block b) (lda_slice b)] else [])
  ++ [EvWait e1]
  ++ ((fun pword => EvBuild (vocab_at (lda_meta b) pword)) <$>
        word_positions (vocab_begin (lda_meta b) (lda_slice b))
                       (vocab_end (lda_meta b) (lda_slice b)) id trainer_num)
  ++ (if id =? 0 then [EvBuild (-1); EvInfo InfoNonZeroTopic] else [])
  ++ (if (id =? 0) && (0 <=? asymmetric_alpha cfg)%float
      then [EvInitAsymmetricAlpha] else [])
  ++ [EvWait e2].

(** The actions of [closing_phase]; [barrier k] is what the [k]-th wait made
    from its entry returns. *)
Definition closing_events (cfg : Config) (id trainer_num : Z) (b : LDADataBlock)
    (docs : list Document) (w : world) (barrier : nat -> bool) : list event :=
  (if Int32.rem (lda_iteration b) 2 =? 0 then
     evaluate_events id trainer_num b docs w
       (barrier 0%nat)
       (barrier (if lda_slice b =? 0 then 1%nat else 0%nat))
       (barrier (gated_waits b))
     ++ (if id =? 0 then [EvInfo InfoEvaluationTime] else [])
   else [])
  ++ (if lda_iteration b =? Int32.wrap (num_iterations cfg - 1) then [EvClear] else []).

Definition closing_waits (b : LDADataBlock) : nat :=
  if Int32.rem (lda_iteration b) 2 =? 0 then S (gated_waits b) else 0%nat.

(** The actions of [TrainIteration] that precede the sampling loop. *)
Definition opening_events (cfg : Config) (id trainer_num : Z) (b : LDADataBlock)
    (barrier : nat -> bool) : list event :=
  (if id =? 0
   then [EvInfo (InfoSlice (lda_iteration b) (lda_block b) (lda_slice b))] else [])
  ++ build_events cfg id trainer_num b (barrier 0%nat) (barrier 1%nat)
  ++ (if id =? 0 then [EvInfo InfoAliasTime] else []).

(** ... and those that follow it when the run was not stopped. *)
Definition ending_events (cfg : Config) (id trainer_num : Z) (b : LDADataBlock)
    (num_token : Z) (docs : list Document) (w : world) (barrier : nat -> bool)
  : list event :=
  (if id =? 0 then [EvInfo InfoTrainingTime; EvInfo (InfoThroughput num_token)] else [])
  ++ closing_events cfg id trainer_num b docs w (fun k => barrier (k + 2)%nat).

(** The invariant the warm-start check expects of a document: every topic
    is the token's word id ([word_init]), or every topic is the topic of the
    first token. *)
Definition consistent (cfg : Config) (doc : Document) : bool :=
  if word_init cfg then forallb (fun tok => tok.2 =? tok.1) doc
  else match doc with
       | [] => true
       | first :: rest => forallb (fun tok => tok.2 =? first.2) rest
       end.

(** The check is made at iteration 0 on slice 0 only. *)
Definition check_passes (cfg : Config) (iter slice : Z) (doc : Document) : bool :=
  negb ((iter =? 0) && (slice =? 0)) || consistent cfg doc.

(** Two thread states agree on everything the barrier and the size of the
    block decide. *)
Definition same_sync (s s' : thread_state) : Prop :=
  ts_waits s' = ts_waits s /\ ts_barrier s' = ts_barrier s /\
  length (ts_docs s') = length (ts_docs s).

(** The kinds of action found before, and after, the sampling loop. *)
Definition opening_kind (e : event) : bool :=
  match e with
  | EvInit _ _ | EvWait _ | EvBuild _ | EvInitAsymmetricAlpha | EvInfo _ => true
  | _ => false
  end.

Definition evaluation_kind (e : event) : bool :=
  match e with
  | EvWait _ | EvInfo _ | EvLock | EvUnlock
  | EvAddDocLLH _ | EvResetDocLLH | EvAddWordLLH _ | EvResetWordLLH => true
  | _ => false
  end.

(** The calls that write the alias table before sampling. *)
Definition is_alias_write (e : event) : bool :=
  match e with
  | EvInit _ _ | EvBuild _ | EvInitAsymmetricAlpha => true
  | _ => false
  end.

(** The actions of a thread up to, and without, the barrier wait that
    precedes sampling. *)
Definition before_sampling_barrier (cfg : Config) (id trainer_num : Z)
    (b : LDADataBlock) (e1 : bool) : list event :=
  (if id =? 0
   then [EvInfo (InfoSlice (lda_iteration b) (lda_block b) (lda_slice b));
         EvInit (lda_block b) (lda_slice b)]
   else [])
  ++ [EvWait e1]
  ++ ((fun pword => EvBuild (vocab_at (lda_meta b) pword)) <$>
        word_positions (vocab_begin (lda_meta b) (lda_slice b))
                       (vocab_end (lda_meta b) (lda_slice b)) id trainer_num)
  ++ (if id =? 0 then [EvBuild (-1); EvInfo InfoNonZeroTopic] else [])
  ++ (if (id =? 0) && (0 <=? asymmetric_alpha cfg)%float
      then [EvInitAsymmetricAlpha] else []).

(** [Evaluate] is the only code that takes the mutex, and it does so first. *)
Definition evaluation_entered (tr : list event) : Prop := EvLock ∈ tr.

End ThreadOps.

(** ** The local threads under the barrier

    The threads of a process run [TrainIteration] on the same block.  Each
    thread [i] has performed [fst] and still has to perform [snd] of its
    action list. *)
Record gstate := {
  g_threads : list (list event * list event);
  g_trace : list (nat * event);
  g_halted : bool
}.

Inductive choice := Run (i : nat) | Release.

Definition at_barrier (t : list event * list event) : bool :=
  match t.2 with
  | e :: _ => is_wait e
  | [] => false
  end.

Definition elected_now (t : list event * list event) : bool :=
  match t.2 with
  | EvWait true :: _ => true
  | _ => false
  end.

Definition pass (t : list event * list event) : list event * list event :=
  match t.2 with
  | e :: r => (t.1 ++ [e], r)
  | [] => t
  end.

(** Modelled from the spec: the barrier (multiverso/barrier.h, not among
    the sources) is "blocking all callers until the configured thread count
    has arrived" and "returning true on exactly one calling thread per
    release".  A thread advances alone through any action but a wait; the
    barrier opens when every thread stands at a wait, exactly one of them
    being told [true]; after a fatal log nothing runs. *)
Definition gstep (c : choice) (g : gstate) : option gstate :=
  if g_halted g then None else
  match c with
  | Run i =>
      match g_threads g !! i with
      | Some (d, e :: r) =>
          if is_wait e then None
          else Some {| g_threads := <[i := (d ++ [e], r)]> (g_threads g);
                       g_trace := g_trace g ++ [(i, e)];
                       g_halted := is_fatal e |}
      | _ => None
      end
  | Release =>
      if forallb at_barrier (g_threads g)
         && (length (List.filter elected_now (g_threads g)) =? 1)%nat
      then Some {| g_threads := pass <$> g_threads g;
                   g_trace := g_trace g;
                   g_halted := false |}
      else None
  end.

Fixpoint gexec (sched : list choice) (g : gstate) : option gstate :=
  match sched with
  | [] => Some g
  | c :: sched' =>
      match gstep c g with
      | Some g' => gexec sched' g'
      | None => None
      end
  end.

Definition ginit (progs : list (list event)) : gstate :=
  {| g_threads := (fun p => ([], p)) <$> progs; g_trace := []; g_halted := false |}.

(** The number of barrier waits in a list of actions. *)
Definition waits (l : list event) : nat := length (List.filter is_wait l).

(** What an execution started on [progs] maintains: every thread has
    performed a prefix of its list; all threads have passed the same number
    of barrier waits; the trace holds what was performed; and when thread
    [j] performed [a], every thread had passed as many waits as [j] and
    everything it had performed by then stands earlier in the trace. *)
Definition consistent_threads (progs : list (list event)) (g : gstate) : Prop :=
  length (g_threads g) = length progs /\
  (forall i d t, g_threads g !! i = Some (d, t) -> progs !! i = Some (d ++ t)) /\
  (forall i j di ti dj tj,
      g_threads g !! i = Some (di, ti) -> g_threads g !! j = Some (dj, tj) ->
      waits di = waits dj) /\
  (forall i d t e, g_threads g !! i = Some (d, t) -> e ∈ d -> is_wait e = false ->
      (i, e) ∈ g_trace g).

Definition ordered_trace (progs : list (list event)) (tr : list (nat * event)) : Prop :=
  forall tr1 j a tr2, tr = tr1 ++ (j, a) :: tr2 ->
    exists d t, progs !! j = Some (d ++ a :: t) /\
      forall i p, progs !! i = Some p ->
        exists di ti, p = di ++ ti /\ waits di = waits d /\
          forall e, e ∈ di -> is_wait e = false -> (i, e) ∈ tr1.

Section Programs.
Context `{Collaborators}.

(** The actions of thread [id] in one call of [TrainIteration]. *)
Definition thread_program (cfg : Config) (trainer_num : Z) (b : LDADataBlock)
    (docs : list Document) (w : Z -> world) (barrier : Z -> nat -> bool) (id : Z)
  : list event :=
  ts_trace (final_state
    (TrainIteration cfg id trainer_num b (enter docs (w id) (barrier id)))).

Definition programs (cfg : Config) (trainer_num : Z) (b : LDADataBlock)
    (docs : list Document) (w : Z -> world) (barrier : Z -> nat -> bool)
  : list (list event) :=
  (fun id => thread_program cfg trainer_num b docs w barrier id)
    <$> seqZ 0 trainer_num.

End Programs.

(** ** Table configuration ([LightLDA::ConfigTable], lightlda.cpp:210-244) *)

(** The two tables of the parameter store (common.h). *)
Inductive table_id := kWordTopicTable | kSummaryRow.

#[global] Instance table_id_eq_dec : EqDecision table_id.
Proof. solve_decision. Defined.

#[global] Instance table_id_countable : Countable table_id.
Proof.
  refine (inj_countable' (fun t => match t with kWordTopicTable => false | kSummaryRow => true end)
                         (fun b => if b then kSummaryRow else kWordTopicTable) _).
  intros []; reflexivity.
Defined.

Inductive Format := Dense | Sparse.

(** What [ConfigTable] reads of [Meta] (meta.h): the term frequency of a
    word in the corpus and in the local data. *)
Record Meta := {
  tf : Z -> Z;
  local_tf : Z -> Z
}.

(** The row settings held by the parameter store, one per (table, row):
    [Multiverso::SetServerRow], [SetCacheRow] and [SetAggregatorRow] each
    replace the setting of the row they name and touch no other. *)
Record row_settings := {
  server_rows : gmap (table_id * Z) (Format * Z);
  cache_rows : gmap (table_id * Z) (Format * Z);
  aggregator_rows : gmap (table_id * Z) (Format * Z)
}.

Definition SetServerRow (t : table_id) (row : Z) (f : Format) (capacity : Z)
    (s : row_settings) : row_settings :=
  {| server_rows := <[(t, row) := (f, capacity)]> (server_rows s);
     cache_rows := cache_rows s;
     aggregator_rows := aggregator_rows s |}.

Definition SetCacheRow (t : table_id) (row : Z) (f : Format) (capacity : Z)
    (s : row_settings) : row_settings :=
  {| server_rows := server_rows s;
     cache_rows := <[(t, row) := (f, capacity)]> (cache_rows s);
     aggregator_rows := aggregator_rows s |}.

Definition SetAggregatorRow (t : table_id) (row : Z) (f : Format) (capacity : Z)
    (s : row_settings) : row_settings :=
  {| server_rows := server_rows s;
     cache_rows := cache_rows s;
     aggregator_rows := <[(t, row) := (f, capacity)]> (aggregator_rows s) |}.

(** The body of the loop for one [word].  [kLoadFactor] is a constant of
    common.h; products are 32-bit. *)
Definition config_word (cfg : Config) (meta : Meta) (kLoadFactor : Z)
    (s : row_settings) (word : Z) : row_settings :=
  let s1 :=
    if 0 <? tf meta word then
      if num_topics cfg <? Int32.mul (tf meta word) kLoadFactor then
        SetCacheRow kWordTopicTable word Dense (num_topics cfg)
          (SetServerRow kWordTopicTable word Dense (num_topics cfg) s)
      else
        SetCacheRow kWordTopicTable word Sparse (Int32.mul (tf meta word) kLoadFactor)
          (SetServerRow kWordTopicTable word Sparse
             (Int32.mul (tf meta word) kLoadFactor) s)
    else s in
  if 0 <? local_tf meta word then
    if num_topics cfg <? Int32.mul (Int32.mul (local_tf meta word) 2) kLoadFactor then
      SetAggregatorRow kWordTopicTable word Dense (num_topics cfg) s1
    else
      SetAggregatorRow kWordTopicTable word Sparse
        (Int32.mul (Int32.mul (local_tf meta word) 2) kLoadFactor) s1
  else s1.

Definition ConfigTable (cfg : Config) (meta : Meta) (kLoadFactor : Z)
    (s : row_settings) : row_settings :=
  foldl (config_word cfg meta kLoadFactor) s (seqZ 0 (num_vocabs cfg)).

(** The setting the design document gives for a word of positive term
    frequency, with the product as the code computes it. *)
Definition word_row_setting (cfg : Config) (meta : Meta) (kLoadFactor : Z) (word : Z)
  : Format * Z :=
  if num_topics cfg <? Int32.mul (tf meta word) kLoadFactor
  then (Dense, num_topics cfg)
  else (Sparse, Int32.mul (tf meta word) kLoadFactor).

(** ** Initialisation ([LightLDA::Initialize], lightlda.cpp:109-143) *)

(** Calls made to the parameter store. *)
Inductive server_call :=
  | AddToServer (t : table_id) (row col delta : Z)
  | Flush.

(** lightlda.cpp:122-125. *)
Definition max_word_id_of (doc : Document) : Z :=
  foldl (fun max_word_id word_idx =>
           if max_word_id <? Doc.Word doc word_idx then Doc.Word doc word_idx
           else max_word_id)
        0 (seqZ 0 (Doc.Size doc)).

(** lightlda.cpp:127-138, one pass of the second loop. *)
Definition init_token (cfg : Config) (doc_topic_id : Z)
    (st : Document * list server_call) (word_idx : Z)
  : Document * list server_call :=
  let doc := if negb (warm_start cfg) then Doc.SetTopic st.1 word_idx doc_topic_id
             else st.1 in
  (doc, st.2 ++ [AddToServer kWordTopicTable (Doc.Word doc word_idx)
                             (Doc.Topic doc word_idx) 1;
                 AddToServer kSummaryRow 0 (Doc.Topic doc word_idx) 1]).

(** lightlda.cpp:121-138, one document. *)
Definition init_doc (cfg : Config) (doc : Document) : Document * list server_call :=
  let max_word_id := max_word_id_of doc in
  let doc_topic_id := Int32.rem max_word_id (num_topics cfg) in
  foldl (init_token cfg doc_topic_id) (doc, []) (seqZ 0 (Doc.Size doc)).

(** lightlda.cpp:118-141, one block: its documents in order, then a flush. *)
Definition init_block (cfg : Config) (st : list (list Document) * list server_call)
    (block : list Document) : list (list Document) * list server_call :=
  let r := foldl (fun (acc : list Document * list server_call) doc =>
                    let r := init_doc cfg doc in
                    (acc.1 ++ [r.1], acc.2 ++ r.2))
                 ([], st.2) block in
  (st.1 ++ [r.1], r.2 ++ [Flush]).

(** [Initialize]: the blocks of the data stream in order.  [rng] is the
    generator the function constructs on entry. *)
Definition Initialize {xorshift_rng : Type} (rng : xorshift_rng) (cfg : Config)
    (blocks : list (list Document)) : list (list Document) * list server_call :=
  foldl (init_block cfg) ([], []) blocks.

(** One pass of the first loop, on the token read at the index. *)
Definition max_step (m : Z) (tok : Z * Z) : Z := if m <? tok.1 then tok.1 else m.

(** The calls the design document expects for one token. *)
Definition token_calls (topic : Z) (tok : Z * Z) : list server_call :=
  [AddToServer kWordTopicTable tok.1 topic 1; AddToServer kSummaryRow 0 topic 1].

(** The largest word id of a document. *)
Definition max_word (doc : Document) : Z := foldr (fun tok m => Z.max tok.1 m) 0 doc.

(** ** The alias table

    [src/alias_table.h] declares the interface; the file that implements it
    is not among the sources.  The definitions of this section follow the
    design document (sections 3, 4.1 and 8), with rationals in place of
    single-precision floats. *)

Module Alias.

(** One bin of an alias slot: the share kept by the primary topic, and the
    two topics. *)
Record bin := { bin_height : Q; primary : Z; alternate : Z }.

(** An alias slot: the number of bins, the total un-normalised mass, and
    the bins. *)
Record slot := { height : Z; mass : Q; bins : list bin }.

Definition empty_slot : slot := {| height := 0; mass := 0%Q; bins := [] |}.

(** The alias-table index of a (block, slice): where the slot of a word
    lies in the pool and how many entries it may hold. *)
Record WordEntry := { begin_offset : Z; capacity : Z }.

(** What [Build] reads of the model: the row of a word in the word-topic
    count table, as [(topic, count)] pairs, and the summary row. *)
Record ModelBase := {
  word_topic_row : Z -> list (Z * Z);
  summary_row : list Z
}.

(** The un-normalised weights of the proposal, which the design document
    leaves to the sampler: the sparse term of a topic with a given count in
    the word's row, and the dense smoothing term of a topic. *)
Record Weights := {
  sparse_weight : ModelBase -> Z -> Z -> Q;
  dense_weight : ModelBase -> Z -> Q
}.

Record AliasTable := {
  table_index_ : Z -> WordEntry;
  memory_block_ : gmap Z slot;
  beta_slot_ : slot
}.

Inductive build_status := BuildSuccess | BuildCapacityViolation.

(** The random number generator, an external collaborator: a uniform value
    in [[0, 1)] and a uniform integer in [[0, n)]. *)
Record RandomSource := {
  rng : Type;
  rand_double : rng -> Q * rng;
  rand_k : rng -> Z -> Z * rng
}.

Definition sum_Q (l : list Q) : Q := foldr Qplus 0%Q l.

(** Modelled from the spec: the Walker construction of section 4.1 ("Build
    algorithm"), whose code is in the absent implementation file.  [L] and
    [H] are the low and high stacks of [(topic, share)] entries; every round
    fills one bin, so [fuel = length L + length H] rounds drain both. *)
Fixpoint walker (fuel : nat) (L H : list (Z * Q)) (filled : list bin) : list bin :=
  match fuel with
  | O => filled
  | S n =>
      match L, H with
      | (l, sl) :: L', (h, sh) :: H' =>
          let b := {| bin_height := sl; primary := l; alternate := h |} in
          let sh' := (sh - (1 - sl))%Q in
          if Qlt_le_dec 0 sh' then
            if Qlt_le_dec sh' 1
            then walker n ((h, sh') :: L') H' (filled ++ [b])
            else walker n L' ((h, sh') :: H') (filled ++ [b])
          else walker n L' H' (filled ++ [b])
      | (x, _) :: L', [] =>
          walker n L' [] (filled ++ [{| bin_height := 1; primary := x; alternate := x |}])
      | [], (x, _) :: H' =>
          walker n [] H' (filled ++ [{| bin_height := 1; primary := x; alternate := x |}])
      | [], [] => filled
      end
  end.

(** Modelled from the spec: a slot for [K] weighted topics: shares
    [K * weight / mass], low stack for shares below 1, high stack for the
    others, then the rounds above. *)
Definition build_slot (entries : list (Z * Q)) : slot :=
  let K := Z.of_nat (length entries) in
  let total := sum_Q (snd <$> entries) in
  let shares := (fun e : Z * Q => (e.1, (inject_Z K * e.2 / total)%Q)) <$> entries in
  let L := List.filter (fun e : Z * Q => if Qlt_le_dec e.2 1 then true else false) shares in
  let H := List.filter (fun e : Z * Q => if Qlt_le_dec e.2 1 then false else true) shares in
  let filled := walker (length L + length H) (rev L) (rev H) [] in
  {| height := Z.of_nat (length filled); mass := total; bins := filled |}.

(** The entries of a row with a non-zero count. *)
Definition nonzero_entries (row : list (Z * Z)) : list (Z * Z) :=
  List.filter (fun e : Z * Z => negb (e.2 =? 0)) row.

(** Modelled from the spec: [Init(index)] stores the index, nothing else. *)
Definition Init (t : AliasTable) (index : Z -> WordEntry) : AliasTable :=
  {| table_index_ := index; memory_block_ := memory_block_ t; beta_slot_ := beta_slot_ t |}.

(** Modelled from the spec: [Build(word, model)] of section 4.1.  For
    [word >= 0] the sparse slot of the word is rebuilt at its offset, unless
    the row has more non-zero topics than the index reserves, in which case
    an error is returned; for [word == -1] the shared dense slot is rebuilt
    from the summary row.  (For other words the design document says
    nothing; the table is left as it is.) *)
Definition Build (W : Weights) (t : AliasTable) (word : Z) (model : ModelBase)
  : AliasTable * build_status :=
  if word =? -1 then
    let entries := imap (fun k (_ : Z) => (Z.of_nat k, dense_weight W model (Z.of_nat k)))
                        (summary_row model) in
    ({| table_index_ := table_index_ t; memory_block_ := memory_block_ t;
        beta_slot_ := build_slot entries |}, BuildSuccess)
  else if 0 <=? word then
    let row := nonzero_entries (word_topic_row model word) in
    let entry := table_index_ t word in
    if capacity entry <? Z.of_nat (length row) then (t, BuildCapacityViolation)
    else
      let entries := (fun e : Z * Z => (e.1, sparse_weight W model e.1 e.2)) <$> row in
      ({| table_index_ := table_index_ t;
          memory_block_ := <[begin_offset entry := build_slot entries]> (memory_block_ t);
          beta_slot_ := beta_slot_ t |}, BuildSuccess)
  else (t, BuildSuccess).

(** The sparse slot of a word, read at the offset the index gives. *)
Definition word_slot (t : AliasTable) (word : Z) : slot :=
  default empty_slot (memory_block_ t !! begin_offset (table_index_ t word)).

(** Modelled from the spec: the classical alias draw of section 4.1: a
    uniform bin in [[0, height)], a uniform threshold; the primary topic
    under the bin's stored height, the alternate topic otherwise. *)
Definition alias_draw (R : RandomSource) (s : slot) (r : rng R) : Z * rng R :=
  let '(i, r1) := rand_k R r (height s) in
  let '(threshold, r2) := rand_double R r1 in
  match bins s !! Z.to_nat i with
  | Some b => (if Qlt_le_dec threshold (bin_height b) then primary b else alternate b, r2)
  | None => (0, r2)
  end.

(** Modelled from the spec: [Propose(word, rng)] of section 4.1: a uniform
    value in [[0, sparse_mass + dense_mass)]; below [sparse_mass] the sparse
    slot of the word is sampled, otherwise the shared dense slot. *)
Definition Propose (R : RandomSource) (t : AliasTable) (word : Z) (r : rng R)
  : Z * rng R :=
  let sparse := word_slot t word in
  let dense := beta_slot_ t in
  let '(u, r1) := rand_double R r in
  let sample := (u * (mass sparse + mass dense))%Q in
  if Qlt_le_dec sample (mass sparse) then alias_draw R sparse r1
  else alias_draw R dense r1.

(** What the design document asks of the generator. *)
Definition uniform_source (R : RandomSource) : Prop :=
  (forall r, (0 <= (rand_double R r).1)%Q /\ ((rand_double R r).1 < 1)%Q) /\
  (forall r n, 0 < n -> 0 <= (rand_k R r n).1 < n).

End Alias.

(** ** A small instance for runs on explicit inputs

    Two threads, one slice of three words, two documents; the sampler
    leaves the documents as they are and reports their sizes. *)
Definition example_collaborators : Collaborators :=
  {| world := unit;
     SampleOneDoc := fun _ doc _ _ => (tt, doc, Doc.Size doc);
     ComputeOneDocLLH := fun _ _ => 1%float;
     ComputeOneWordLLH := fun _ _ => 1%float |}.

Definition example_vocab : LocalVocab :=
  {| vocab_at := fun p => p; vocab_begin := fun _ => 0;
     vocab_end := fun _ => 3; LastWord := fun _ => 3 |}.

Definition example_block (block slice iter : Z) : LDADataBlock :=
  {| lda_meta := example_vocab; lda_block := block; lda_slice := slice;
     lda_iteration := iter |}.

Definition example_config : Config :=
  {| num_topics := 10; num_vocabs := 3; num_iterations := 2;
     asymmetric_alpha := 0.5%float; word_init := true; warm_start := false |}.

Definition example_docs : list Document := [[(0, 0); (1, 1)]; [(2, 2)]].

(** Thread 0 is the one the barrier elects. *)
Definition example_barrier (id : Z) (k : nat) : bool := id =? 0.

(** A schedule for iteration 1 (no evaluation): between the barriers
    thread 0 runs first; after the second barrier thread 0 runs to the end
    of its call before thread 1 samples. *)
Definition example_schedule : list choice :=
  [Run 0%nat; Run 0%nat; Release;
   Run 0%nat; Run 0%nat; Run 0%nat; Run 0%nat; Run 0%nat; Run 1%nat; Release;
   Run 0%nat; Run 0%nat; Run 0%nat; Run 0%nat; Run 0%nat; Run 1%nat; Run 1%nat].

(** Three documents, the second of which has a token whose topic is not
    its word id. *)
Definition example_bad_docs : list Document := [[(0, 0)]; [(1, 0)]; [(2, 2)]].

(** A word with topics 2 and 5 counted 3 and 1 (and a zero count for topic
    7), two entries reserved for it; a generator that always returns 1/2
    and bin 0. *)
Definition example_weights : Alias.Weights :=
  {| Alias.sparse_weight := fun _ _ count => inject_Z count;
     Alias.dense_weight := fun _ _ => (1 # 10)%Q |}.

Definition example_model : Alias.ModelBase :=
  {| Alias.word_topic_row := fun _ => [(2, 3); (5, 1); (7, 0)];
     Alias.summary_row := [4; 0; 0] |}.

Definition example_table : Alias.AliasTable :=
  {| Alias.table_index_ := fun word => {| Alias.begin_offset := 4 * word;
                                          Alias.capacity := 2 |};
     Alias.memory_block_ := ∅;
     Alias.beta_slot_ := Alias.empty_slot |}.

Definition example_source : Alias.RandomSource :=
  {| Alias.rng := nat;
     Alias.rand_double := fun r => ((1 # 2)%Q, S r);
     Alias.rand_k := fun r _ => (0, S r) |}.

(** ** Further definitions *)

(** The setting [ConfigTable] gives the aggregator row of a word of
    positive local term frequency (lightlda.cpp:236-241); both products are
    32-bit. *)
Definition aggregator_row_setting (cfg : Config) (meta : Meta) (kLoadFactor : Z)
    (word : Z) : Format * Z :=
  if num_topics cfg <? Int32.mul (Int32.mul (local_tf meta word) 2) kLoadFactor
  then (Dense, num_topics cfg)
  else (Sparse, Int32.mul (Int32.mul (local_tf meta word) 2) kLoadFactor).

(** The topic a token holds after the second loop of [Initialize]
    (lightlda.cpp:130-131): the document topic, or its own with
    [warm_start]. *)
Definition assigned_topic (cfg : Config) (doc_topic_id : Z) (tok : Z * Z) : Z :=
  if warm_start cfg then tok.2 else doc_topic_id.

(** What the parameter store accumulates from a list of calls: the total
    added to the word-topic table at [(word, topic)] and to the summary row
    at [topic]. *)
Definition word_topic_total (word topic : Z) (calls : list server_call) : Z :=
  foldr (fun c acc =>
           match c with
           | AddToServer kWordTopicTable row col delta =>
               if (row =? word) && (col =? topic) then delta + acc else acc
           | _ => acc
           end) 0 calls.

Definition summary_total (topic : Z) (calls : list server_call) : Z :=
  foldr (fun c acc =>
           match c with
           | AddToServer kSummaryRow row col delta =>
               if (row =? 0) && (col =? topic) then delta + acc else acc
           | _ => acc
           end) 0 calls.

(** The number of tokens of the blocks that satisfy [p]. *)
Definition occurrences (p : Z * Z -> bool) (blocks : list (list Document)) : Z :=
  Z.of_nat (length (List.filter p (concat (concat blocks)))).

(** A configuration for a cold start without [word_init], four topics. *)
Definition example_cold_config : Config :=
  {| num_topics := 4; num_vocabs := 10; num_iterations := 2;
     asymmetric_alpha := (-1)%float; word_init := false; warm_start := false |}.

(** The documents a list of actions passes to the sampler, in order. *)
Definition sampled_docs (tr : list event) : list Z :=
  omap (fun e => match e with EvSampleOneDoc doc_id => Some doc_id | _ => None end) tr.

(** The two likelihood logs of [Evaluate]. *)
Definition is_doc_likelihood_log (e : event) : bool :=
  match e with EvInfo InfoDocLikelihood => true | _ => false end.

Definition is_word_likelihood_log (e : event) : bool :=
  match e with EvInfo InfoWordLikelihood => true | _ => false end.

Section FinalSums.
Context `{Collaborators}.

(** The state in which thread [id] leaves its call of [TrainIteration]. *)
Definition thread_final (cfg : Config) (trainer_num : Z) (b : LDADataBlock)
    (docs : list Document) (w : Z -> world) (barrier : Z -> nat -> bool) (id : Z)
  : thread_state :=
  final_state (TrainIteration cfg id trainer_num b (enter docs (w id) (barrier id))).

(** The partial sums thread [id] adds in [Evaluate]: they are computed on
    the documents and with the collaborators as its sampling left them. *)
Definition final_doc_llh (cfg : Config) (trainer_num : Z) (b : LDADataBlock)
    (docs : list Document) (w : Z -> world) (barrier : Z -> nat -> bool) (id : Z)
  : float :=
  let s := thread_final cfg trainer_num b docs w barrier id in
  thread_doc_llh id trainer_num b (ts_docs s) (ts_world s).

Definition final_word_llh (cfg : Config) (trainer_num : Z) (b : LDADataBlock)
    (docs : list Document) (w : Z -> world) (barrier : Z -> nat -> bool) (id : Z)
  : float :=
  let s := thread_final cfg trainer_num b docs w barrier id in
  thread_word_llh id trainer_num b (ts_world s).

End FinalSums.

(** A schedule for iteration 0 on block 0, slice 0 (with evaluation): in
    each phase thread 0 runs up to the barrier, then thread 1. *)
Definition example_even_schedule : list choice :=
  [Run 0%nat; Run 0%nat; Release;
   Run 0%nat; Run 0%nat; Run 0%nat; Run 0%nat; Run 0%nat; Run 1%nat; Release;
   Run 0%nat; Run 0%nat; Run 0%nat; Run 0%nat; Run 0%nat; Run 0%nat; Run 0%nat;
   Run 1%nat; Run 1%nat; Run 1%nat; Run 1%nat; Release;
   Run 0%nat; Run 0%nat; Run 0%nat; Run 0%nat; Run 0%nat;
   Run 1%nat; Run 1%nat; Run 1%nat; Release;
   Run 0%nat; Run 0%nat; Run 0%nat; Release;
   Run 0%nat].

(** The words a list of actions passes to [AliasTable::Build], in order
    ([-1] stands for the shared dense table). *)
Definition built_words (tr : list event) : list Z :=
  omap (fun e => match e with EvBuild word => Some word | _ => None end) tr.

(** The table of the example with both slots built: the shared dense slot
    from the summary row, then the sparse slot of word 0. *)
Definition example_built_table : Alias.AliasTable :=
  (Alias.Build example_weights
     (Alias.Build example_weights example_table (-1) example_model).1
     0 example_model).1.

(** A generator that always returns 19/20, and bin 1 where there is one. *)
Definition example_high_source : Alias.RandomSource :=
  {| Alias.rng := nat;
     Alias.rand_double := fun r => ((19 # 20)%Q, S r);
     Alias.rand_k := fun r n => (if 1 <? n then 1 else 0, S r) |}.

From Stdlib Require Import Sorted.

(** ** The training loop ([LightLDA::Train], lightlda.cpp:67-98)

    The calls the loop makes to Multiverso and to the data stream, in
    order.  [num_blocks] is [Config::num_blocks] and [num_slice block] is
    [meta.local_vocab(block).num_slice()]. *)
Inductive train_call :=
  | BeginTrain
  | BeginClock
  | BeforeDataAccess
  | SetMeta (block : Z)                       (* data_block.set_meta(&meta.local_vocab(block)) *)
  | PushDataBlock (iteration block slice : Z) (* the fields set on [data[slice]] *)
  | MultiversoWait
  | EndDataAccess
  | EndClock
  | EndTrain.

(** lightlda.cpp:75-92, the body of the block loop.  The vector
    [data(num_slice)] cannot be built with a negative size. *)
Definition train_block (num_slice : Z -> Z) (i block : Z) : option (list train_call) :=
  let n := num_slice block in
  if n <? 0 then None
  else Some ([BeforeDataAccess; SetMeta block]
             ++ ((fun slice => PushDataBlock i block slice) <$> seqZ 0 n)
             ++ [MultiversoWait; EndDataAccess]).

(** lightlda.cpp:71-94, the body of the iteration loop. *)
Definition train_clock (num_blocks : Z) (num_slice : Z -> Z) (i : Z)
  : option (list train_call) :=
  blocks ← mapM (train_block num_slice i) (seqZ 0 num_blocks);
  Some ([BeginClock] ++ concat blocks ++ [EndClock]).

Definition Train (cfg : Config) (num_blocks : Z) (num_slice : Z -> Z)
  : option (list train_call) :=
  clocks ← mapM (train_clock num_blocks num_slice) (seqZ 0 (num_iterations cfg));
  Some ([BeginTrain] ++ concat clocks ++ [EndTrain]).

(** The data blocks pushed, as (iteration, block, slice), in order. *)
Definition pushed_blocks (tr : list train_call) : list (Z * Z * Z) :=
  omap (fun c => match c with
                 | PushDataBlock i block slice => Some (i, block, slice)
                 | _ => None
                 end) tr.

(** Lexicographic order on (iteration, block, slice). *)
Definition lex_lt (x y : Z * Z * Z) : Prop :=
  x.1.1 < y.1.1 \/
  (x.1.1 = y.1.1 /\ (x.1.2 < y.1.2 \/ (x.1.2 = y.1.2 /\ x.2 < y.2))).

(** The calls of one block, of one iteration and of the whole loop when no
    block has a negative number of slices. *)
Definition block_calls (num_slice : Z -> Z) (i block : Z) : list train_call :=
  [BeforeDataAccess; SetMeta block]
  ++ ((fun slice => PushDataBlock i block slice) <$> seqZ 0 (num_slice block))
  ++ [MultiversoWait; EndDataAccess].

Definition clock_calls (num_blocks : Z) (num_slice : Z -> Z) (i : Z) : list train_call :=
  [BeginClock] ++ concat (block_calls num_slice i <$> seqZ 0 num_blocks) ++ [EndClock].

(** The triples in lexicographic order. *)
Definition block_triples (num_slice : Z -> Z) (i block : Z) : list (Z * Z * Z) :=
  (fun slice => (i, block, slice)) <$> seqZ 0 (num_slice block).

Definition clock_triples (num_blocks : Z) (num_slice : Z -> Z) (i : Z)
  : list (Z * Z * Z) :=
  concat (block_triples num_slice i <$> seqZ 0 num_blocks).

(** ** The parameter loader ([ParamLoader::ParseAndRequest], trainer.cpp:225-243) *)
Inductive request :=
  | RequestRow (t : table_id) (row : Z)
  | LogDebug (start last : Z)
  | RequestTable (t : table_id).

(** trainer.cpp:234-238: [for (p = begin; p != end; ++p)] stops only when
    [p] meets [end]; [None] when it has not after [steps] passes. *)
Fixpoint request_loop (steps : nat) (local_vocab : LocalVocab) (p last : Z)
  : option (list request) :=
  if p =? last then Some []
  else match steps with
       | O => None
       | S n => rest ← request_loop n local_vocab (p + 1) last;
                Some (RequestRow kWordTopicTable (vocab_at local_vocab p) :: rest)
       end.

Definition ParseAndRequest (steps : nat) (b : LDADataBlock) : option (list request) :=
  let slice := lda_slice b in
  let local_vocab := lda_meta b in
  rows ← request_loop steps local_vocab (vocab_begin local_vocab slice)
                      (vocab_end local_vocab slice);
  Some (rows
        ++ [LogDebug (vocab_at local_vocab (vocab_begin local_vocab slice))
                     (vocab_at local_vocab (vocab_end local_vocab slice - 1));
            RequestTable kSummaryRow]).

(** ** Progress of the threads under the barrier *)

(** What the barrier returned at the waits of a list of actions. *)
Definition wait_results (l : list event) : list bool :=
  omap (fun e => match e with EvWait r => Some r | _ => None end) l.

(** A thread whose next action is not a barrier wait; a thread with
    nothing left to do. *)
Definition runnable (t : list event * list event) : bool :=
  match t.2 with
  | e :: _ => negb (is_wait e)
  | [] => false
  end.

Definition finished (t : list event * list event) : bool :=
  match t.2 with
  | [] => true
  | _ :: _ => false
  end.

(** The number of actions that remain to be performed. *)
Definition remaining_actions (ths : list (list event * list event)) : nat :=
  foldr (fun t n => (length t.2 + n)%nat) 0%nat ths.

Definition remaining (g : gstate) : nat := remaining_actions (g_threads g).

(** As long as the run has not been stopped, no thread has performed a
    fatal log. *)
Definition no_fatal_performed (g : gstate) : Prop :=
  g_halted g = false ->
  forall i d t, g_threads g !! i = Some (d, t) -> Forall (fun e => is_fatal e = false) d.

(** Modelled from the spec: at each release the barrier returns "true on
    exactly one calling thread"; [barrier id k] is what thread [id] is told
    at its [k]-th wait. *)
Definition elects_one (trainer_num : Z) (barrier : Z -> nat -> bool) : Prop :=
  forall k : nat, exists id, 0 <= id < trainer_num /\ barrier id k = true /\
    forall id', 0 <= id' < trainer_num -> barrier id' k = true -> id' = id.
(** * Properties *)

(** ** Machine integers *)

Lemma wrap_small z : Int32.in_range z -> Int32.wrap z = z.
Proof.
  unfold Int32.in_range, Int32.wrap, Int32.min_signed, Int32.max_signed. intros H.
  rewrite Z.mod_small by lia. lia.
Qed.

Lemma wrap_in_range z : Int32.in_range (Int32.wrap z).
Proof.
  unfold Int32.in_range, Int32.wrap, Int32.min_signed, Int32.max_signed.
  pose proof (Z.mod_pos_bound (z + 2 ^ 31) (2 ^ 32) ltac:(lia)). lia.
Qed.

Section StridedLoops.

Lemma ptr_loop_unfold steps p last stride :
  1 <= stride -> last - p <= Z.of_nat steps ->
  ptr_loop steps p last stride =
  if p <? last then
    p :: ptr_loop (Z.to_nat (last - (p + stride))) (p + stride) last stride
  else [].
Proof.
  intros Hs. revert p.
  assert (Hgen : forall n m q, last - q <= Z.of_nat n -> last - q <= Z.of_nat m ->
              ptr_loop n q last stride = ptr_loop m q last stride).
  { induction n as [|n IH]; intros m q Hn Hm.
    - destruct m as [|m]; [reflexivity|]. simpl.
      destruct (Z.ltb_spec q last); [lia | reflexivity].
    - destruct m as [|m]; simpl.
      + destruct (Z.ltb_spec q last); [lia | reflexivity].
      + destruct (Z.ltb_spec q last); [|reflexivity].
        f_equal. apply IH; lia. }
  intros p Hp. destruct steps as [|n]; simpl.
  - destruct (Z.ltb_spec p last); [lia | reflexivity].
  - destruct (Z.ltb_spec p last); [|reflexivity].
    f_equal. apply Hgen; lia.
Qed.

Lemma elem_of_ptr_loop steps first last stride p :
  1 <= stride -> last - first <= Z.of_nat steps ->
  p ∈ ptr_loop steps first last stride <->
  first <= p < last /\ (p - first) mod stride = 0.
Proof.
  intros Hs. revert first.
  induction steps as [|n IH]; intros first Hfuel; simpl.
  - split; [intros H; inversion H | lia].
  - destruct (Z.ltb_spec first last) as [Hlt|Hge].
    + rewrite elem_of_cons, IH by lia. split.
      * intros [-> | [Hr Hm]].
        -- split; [lia|]. replace (first - first) with 0 by lia.
           apply Z.mod_0_l. lia.
        -- split; [lia|].
           replace (p - first) with ((p - (first + stride)) + 1 * stride) by lia.
           rewrite Z.mod_add by lia. exact Hm.
      * intros [Hr Hm].
        destruct (Z.eq_dec p first) as [->|Hne]; [left; reflexivity | right].
        assert (Hd : p - first = stride * ((p - first) / stride))
          by (pose proof (Z.div_mod (p - first) stride ltac:(lia)); lia).
        assert (0 < (p - first) / stride) by nia.
        split; [nia|].
        replace (p - (first + stride)) with ((p - first) + (-1) * stride) by lia.
        rewrite Z.mod_add by lia. exact Hm.
    + split; [intros H; inversion H | lia].
Qed.

Lemma NoDup_ptr_loop steps first last stride :
  1 <= stride -> NoDup (ptr_loop steps first last stride).
Proof.
  intros Hs.
  assert (Hlb : forall n q p, p ∈ ptr_loop n q last stride -> q <= p).
  { induction n as [|n IH]; intros q p; simpl; [intros H; inversion H|].
    destruct (q <? last); [|intros H; inversion H].
    rewrite elem_of_cons. intros [-> | H]; [lia|]. apply IH in H. lia. }
  revert first. induction steps as [|n IH]; intros first; simpl.
  - constructor.
  - destruct (first <? last); [|constructor].
    constructor; [|apply IH].
    intros H. apply Hlb in H. lia.
Qed.

(** Below the overflow threshold the 32-bit loop is the exact one. *)
Lemma idx_loop_ptr_loop steps i last stride :
  1 <= stride -> Int32.min_signed <= i -> last + stride <= 2 ^ 31 ->
  idx_loop steps i last stride = ptr_loop steps i last stride.
Proof.
  intros Hs. revert i. induction steps as [|n IH]; intros i Hi Hl; simpl.
  - reflexivity.
  - destruct (Z.ltb_spec i last); [|reflexivity].
    unfold Int32.add. rewrite wrap_small.
    + f_equal. apply IH; unfold Int32.min_signed in *; lia.
    + unfold Int32.in_range, Int32.min_signed, Int32.max_signed in *. lia.
Qed.

Lemma ptr_loop_partitions T lo hi :
  1 <= T ->
  partitions T (fun id => ptr_loop (Z.to_nat (hi - (lo + id))) (lo + id) hi T) lo hi.
Proof.
  intros HT. split; [|split; [|intros p; split]].
  - intros id _. apply NoDup_ptr_loop; lia.
  - intros id1 id2 p H1 H2.
    rewrite !elem_of_ptr_loop by lia.
    intros [_ Hm1] [_ Hm2].
    apply Z.mod_divide in Hm1; [|lia]. apply Z.mod_divide in Hm2; [|lia].
    destruct Hm1 as [k1 Hk1], Hm2 as [k2 Hk2].
    assert (id2 - id1 = (k1 - k2) * T) by lia.
    assert (k1 - k2 = 0) by nia. lia.
  - intros Hp. exists ((p - lo) mod T).
    pose proof (Z.mod_pos_bound (p - lo) T ltac:(lia)) as Hb.
    split; [lia|]. apply elem_of_ptr_loop; [lia | lia |].
    pose proof (Z.div_mod (p - lo) T ltac:(lia)) as Hd.
    pose proof (Z.mod_le (p - lo) T ltac:(lia) ltac:(lia)) as Hle.
    split; [lia|].
    replace (p - (lo + (p - lo) mod T)) with (((p - lo) / T) * T) by lia.
    apply Z.mod_mul. lia.
  - intros (id & Hid & Hin). apply elem_of_ptr_loop in Hin; lia.
Qed.

End StridedLoops.

(** ** The thread monad *)

Section ThreadLemmas.
Context `{Collaborators}.

Lemma bind_done {A B} (c : Thread A) (f : A -> Thread B) s a s' :
  c s = Done a s' -> (c ≫= f) s = f a s'.
Proof. intros Hc. unfold mbind, Thread_bind. rewrite Hc. reflexivity. Qed.

Lemma bind_halted {A B} (c : Thread A) (f : A -> Thread B) s s' :
  c s = Halted s' -> (c ≫= f) s = Halted s'.
Proof. intros Hc. unfold mbind, Thread_bind. rewrite Hc. reflexivity. Qed.

Lemma advance_advance n1 e1 n2 e2 s :
  advance n2 e2 (advance n1 e1 s) = advance (n2 + n1) (e1 ++ e2) s.
Proof.
  unfold advance; simpl. f_equal; [lia | apply eq_sym, app_assoc].
Qed.

Lemma advance_nil s : advance 0 [] s = s.
Proof. destruct s. unfold advance; simpl. f_equal. apply app_nil_r. Qed.

Lemma emit_run e s : emit e s = Done tt (advance 0 [e] s).
Proof. reflexivity. Qed.

Lemma Wait_run s :
  Wait s = Done (ts_barrier s (ts_waits s))
                (advance 1 [EvWait (ts_barrier s (ts_waits s))] s).
Proof. reflexivity. Qed.

Lemma for_each_app {A S} (l1 l2 : list A) (body : A -> S -> Thread S) acc s :
  for_each (l1 ++ l2) body acc s =
  (acc' ← for_each l1 body acc; for_each l2 body acc') s.
Proof.
  revert acc s. induction l1 as [|x l1 IH]; intros acc s; simpl.
  - reflexivity.
  - unfold mbind, Thread_bind in *.
    destruct (body x acc s) as [a s'|s']; [apply IH | reflexivity].
Qed.

(** A loop whose body only computes leaves the state alone. *)
Lemma for_each_pure {A S} (l : list A) (f : A -> S -> S) acc s :
  for_each l (fun x a s' => Done (f x a) s') acc s =
  Done (foldl (fun a x => f x a) acc l) s.
Proof.
  revert acc. induction l as [|x l IH]; intros acc; simpl; [reflexivity|].
  unfold mbind, Thread_bind. apply IH.
Qed.

(** A loop whose body only emits one action per element. *)
Lemma for_each_emit {A} (l : list A) (f : A -> event) s :
  for_each l (fun x _ => emit (f x)) tt s = Done tt (advance 0 (f <$> l) s).
Proof.
  revert s. induction l as [|x l IH]; intros s; simpl.
  - rewrite advance_nil. reflexivity.
  - unfold mbind, Thread_bind. rewrite emit_run, IH, advance_advance. reflexivity.
Qed.

(** *** [Evaluate] *)

Lemma Evaluate_run id trainer_num b s :
  Evaluate id trainer_num b s =
  Done tt
    (advance (S (gated_waits b))
       (evaluate_events id trainer_num b (ts_docs s) (ts_world s)
          (ts_barrier s (ts_waits s))
          (ts_barrier s ((if (lda_slice b =? 0)%Z then 1 else 0) + ts_waits s)%nat)
          (ts_barrier s (gated_waits b + ts_waits s)%nat))
       s).
Proof.
  unfold Evaluate, evaluate_events, gated_wait_events, gated_waits,
    thread_doc_llh, thread_word_llh, get_docs, get_world, when, Log_Info.
  destruct s as [docs w bar n tr].
  destruct (bar n) eqn:E1, (bar (S n)) eqn:E2;
  destruct (lda_slice b =? 0), (lda_block b =? 0), (id =? 0);
    unfold mbind, Thread_bind, mret, Thread_ret, emit, Wait, push, advance;
    cbn -[word_positions doc_ids];
    rewrite ?for_each_pure; cbn -[word_positions doc_ids]; rewrite ?E1, ?E2;
    rewrite ?for_each_pure; cbn -[word_positions doc_ids]; rewrite ?E1, ?E2;
    cbn -[word_positions doc_ids];
    rewrite <- ?app_assoc; reflexivity.
Qed.


End ThreadLemmas.

(** ** The phases of [TrainIteration] *)

Section PhaseLemmas.
Context `{Collaborators}.

Lemma build_phase_run cfg id trainer_num b s :
  build_phase cfg id trainer_num b s =
  Done tt
    (advance 2
       (build_events cfg id trainer_num b
          (ts_barrier s (ts_waits s)) (ts_barrier s (S (ts_waits s))))
       s).
Proof.
  unfold build_phase, build_events, when, Log_Info.
  destruct s as [docs w bar n tr].
  destruct (id =? 0), (0 <=? asymmetric_alpha cfg)%float;
    unfold mbind, Thread_bind, mret, Thread_ret, Wait;
    cbn -[word_positions emit]; rewrite ?emit_run; cbn -[word_positions emit];
    rewrite for_each_emit;
    unfold advance, emit, push; cbn -[word_positions];
    rewrite <- ?app_assoc; reflexivity.
Qed.

(** *** The warm-start check *)

(** An index loop over the tokens [suf] of [pre ++ suf] that logs a fatal
    error at the first token failing [ok]. *)
Lemma token_loop_run (ok : Z * Z -> bool) (msg : Z * Z -> fatal) pre suf s :
  for_each (seqZ (Z.of_nat (length pre)) (Z.of_nat (length suf)))
    (fun word_idx (_ : unit) =>
       if negb (ok (Doc.token (pre ++ suf) word_idx))
       then Log_Fatal (msg (Doc.token (pre ++ suf) word_idx))
       else mret tt) tt s =
  match List.find (fun tok => negb (ok tok)) suf with
  | Some tok => Halted (push (EvFatal (msg tok)) s)
  | None => Done tt s
  end.
Proof.
  revert pre. induction suf as [|tok suf IH]; intros pre.
  - reflexivity.
  - rewrite seqZ_cons by (simpl; lia). simpl for_each.
    assert (Htok : Doc.token (pre ++ tok :: suf) (Z.of_nat (length pre)) = tok).
    { unfold Doc.token. destruct (Z.ltb_spec (Z.of_nat (length pre)) 0); [lia|].
      rewrite Nat2Z.id, list_lookup_middle by reflexivity. reflexivity. }
    unfold mbind, Thread_bind. rewrite Htok. simpl List.find.
    destruct (ok tok); simpl.
    + specialize (IH (pre ++ [tok])).
      rewrite length_app in IH. simpl length in IH.
      rewrite <- app_assoc in IH. simpl app in IH.
      replace (Z.succ (Z.of_nat (length pre))) with (Z.of_nat (length pre + 1)) by lia.
      replace (Z.pred (Z.of_nat (S (length suf)))) with (Z.of_nat (length suf)) by lia.
      exact IH.
    + reflexivity.
Qed.

Lemma check_word_init_run doc s :
  check_word_init doc s =
  match List.find (fun tok => negb (tok.2 =? tok.1)) doc with
  | Some tok => Halted (push (EvFatal (FatalWordTopic tok.1 tok.2)) s)
  | None => Done tt s
  end.
Proof.
  exact (token_loop_run (fun tok => tok.2 =? tok.1)
           (fun tok => FatalWordTopic tok.1 tok.2) [] doc s).
Qed.

Lemma check_doc_topic_run doc s :
  check_doc_topic doc s =
  match doc with
  | [] => Done tt s
  | first :: rest =>
      match List.find (fun tok => negb (tok.2 =? first.2)) rest with
      | Some tok => Halted (push (EvFatal (FatalDocTopic tok.1 tok.2 first.2)) s)
      | None => Done tt s
      end
  end.
Proof.
  destruct doc as [|first rest]; [reflexivity|].
  unfold check_doc_topic.
  replace (Doc.Size (first :: rest) - 1) with (Z.of_nat (length rest))
    by (unfold Doc.Size; simpl length; lia).
  exact (token_loop_run (fun tok => tok.2 =? first.2)
           (fun tok => FatalDocTopic tok.1 tok.2 first.2) [first] rest s).
Qed.

Lemma find_none_forallb {A} (f : A -> bool) l :
  List.find (fun x => negb (f x)) l = None <-> forallb f l = true.
Proof.
  induction l as [|x l IH]; simpl; [tauto|].
  destruct (f x); simpl; [exact IH | split; discriminate].
Qed.

Lemma warm_start_check_run cfg iter slice doc s :
  (check_passes cfg iter slice doc = true /\
   warm_start_check cfg iter slice doc s = Done tt s) \/
  (check_passes cfg iter slice doc = false /\
   exists m, warm_start_check cfg iter slice doc s = Halted (push (EvFatal m) s)).
Proof.
  unfold warm_start_check, check_passes, consistent, when.
  destruct ((iter =? 0) && (slice =? 0)); simpl; [|left; split; reflexivity].
  destruct (word_init cfg).
  - rewrite check_word_init_run.
    destruct (List.find _ doc) as [tok|] eqn:Hf.
    + right. split; [|eauto].
      apply not_true_is_false. intros Hall.
      apply find_none_forallb in Hall. congruence.
    + left. split; [|reflexivity]. apply find_none_forallb. exact Hf.
  - rewrite check_doc_topic_run. destruct doc as [|first rest].
    + left. split; reflexivity.
    + destruct (List.find _ rest) as [tok|] eqn:Hf.
      * right. split; [|eauto].
        apply not_true_is_false. intros Hall.
        apply find_none_forallb in Hall. congruence.
      * left. split; [|reflexivity]. apply find_none_forallb. exact Hf.
Qed.

End PhaseLemmas.

(** ** The sampling loop *)

Lemma GetOneDoc_PutOneDoc_ne docs d doc y :
  y <> d -> GetOneDoc (PutOneDoc docs d doc) y = GetOneDoc docs y.
Proof.
  intros Hne. unfold GetOneDoc, PutOneDoc.
  destruct (Z.ltb_spec y 0); [reflexivity|].
  destruct (Z.ltb_spec d 0); [reflexivity|].
  rewrite list_lookup_insert_ne by lia. reflexivity.
Qed.

Lemma length_PutOneDoc docs d doc : length (PutOneDoc docs d doc) = length docs.
Proof. unfold PutOneDoc. destruct (d <? 0); [reflexivity | apply length_insert]. Qed.

Section SamplingLemmas.
Context `{Collaborators}.

Lemma same_sync_refl s : same_sync s s.
Proof. repeat split. Qed.

Lemma same_sync_trans s1 s2 s3 : same_sync s1 s2 -> same_sync s2 s3 -> same_sync s1 s3.
Proof. unfold same_sync. intros (?&?&?) (?&?&?). repeat split; congruence. Qed.

Lemma same_sync_push e s : same_sync s (push e s).
Proof. repeat split. Qed.

Lemma sample_run doc_id slice lastword s :
  exists n s',
    sample doc_id slice lastword s = Done n s' /\
    ts_trace s' = ts_trace s ++ [EvSampleOneDoc doc_id] /\
    same_sync s s' /\
    (forall y, y <> doc_id -> GetOneDoc (ts_docs s') y = GetOneDoc (ts_docs s) y).
Proof.
  unfold sample.
  destruct (SampleOneDoc (ts_world s) (GetOneDoc (ts_docs s) doc_id) slice lastword)
    as [[w d] n].
  eexists _, _. split; [reflexivity|]. simpl. split; [reflexivity|].
  split; [|intros y Hy; apply GetOneDoc_PutOneDoc_ne; exact Hy].
  repeat split. simpl. apply length_PutOneDoc.
Qed.

Lemma sample_body_run cfg iter slice lastword doc_id num_token s :
  (check_passes cfg iter slice (GetOneDoc (ts_docs s) doc_id) = true /\
   exists n s',
     sample_body cfg iter slice lastword doc_id num_token s = Done n s' /\
     ts_trace s' = ts_trace s ++ [EvSampleOneDoc doc_id] /\
     same_sync s s' /\
     (forall y, y <> doc_id -> GetOneDoc (ts_docs s') y = GetOneDoc (ts_docs s) y)) \/
  (check_passes cfg iter slice (GetOneDoc (ts_docs s) doc_id) = false /\
   exists m,
     sample_body cfg iter slice lastword doc_id num_token s
     = Halted (push (EvFatal m) s)).
Proof.
  unfold sample_body, get_docs. unfold mbind at 1, Thread_bind at 1.
  destruct (warm_start_check_run cfg iter slice (GetOneDoc (ts_docs s) doc_id) s)
    as [[Hp Hc] | [Hp [m Hc]]].
  - left. split; [exact Hp|].
    destruct (sample_run doc_id slice lastword s) as (n & s' & Hs & Htr & Hsync & Hfr).
    exists (Int32.add num_token n), s'. split; [|auto].
    unfold mbind, Thread_bind. rewrite Hc, Hs. reflexivity.
  - right. split; [exact Hp|]. exists m.
    unfold mbind, Thread_bind. rewrite Hc. reflexivity.
Qed.

Lemma sample_loop_run cfg iter slice lastword ids : forall num_token s,
  let o := for_each ids (sample_body cfg iter slice lastword) num_token s in
  exists l1 tail,
    ts_trace (final_state o) = ts_trace s ++ (EvSampleOneDoc <$> l1) ++ tail /\
    same_sync s (final_state o) /\
    (forall y, y ∉ l1 ->
       GetOneDoc (ts_docs (final_state o)) y = GetOneDoc (ts_docs s) y) /\
    (NoDup ids -> forall x, x ∈ l1 ->
       check_passes cfg iter slice (GetOneDoc (ts_docs s) x) = true) /\
    ((halted o = false /\ l1 = ids /\ tail = []) \/
     (halted o = true /\ exists d l2 m,
        ids = l1 ++ d :: l2 /\ tail = [EvFatal m] /\
        (NoDup ids ->
           check_passes cfg iter slice (GetOneDoc (ts_docs s) d) = false))).
Proof.
  induction ids as [|x ids IH]; intros num_token s; simpl.
  - exists [], []. simpl. rewrite app_nil_r.
    split; [reflexivity|]. split; [apply same_sync_refl|].
    split; [reflexivity|]. split; [intros _ y Hy; inversion Hy|].
    left. repeat split.
  - destruct (sample_body_run cfg iter slice lastword x num_token s)
      as [[Hp (n & s1 & Hb & Htr & Hsync & Hfr)] | [Hp [m Hb]]].
    + unfold mbind, Thread_bind. rewrite Hb.
      destruct (IH n s1) as (l1 & tail & Htr' & Hsync' & Hfr' & Hok & Hcase).
      assert (Hsub : forall y, y ∈ l1 -> y ∈ ids).
      { destruct Hcase as [(_ & -> & _) | (_ & d & l2 & m & -> & _)]; [auto|].
        intros y Hy. apply elem_of_app. left. exact Hy. }
      exists (x :: l1), tail.
      split. { rewrite Htr', Htr, <- app_assoc. reflexivity. }
      split. { eapply same_sync_trans; eassumption. }
      split. { intros y Hy. apply not_elem_of_cons in Hy as [Hne Hy].
               rewrite Hfr' by exact Hy. apply Hfr. exact Hne. }
      split.
      { intros Hnd y Hy. apply NoDup_cons in Hnd as [Hx Hnd].
        apply elem_of_cons in Hy as [-> | Hy]; [exact Hp|].
        rewrite <- Hfr by (intros ->; apply Hx, Hsub, Hy).
        apply Hok; assumption. }
      destruct Hcase as [(Hh & -> & ->) | (Hh & d & l2 & m & -> & -> & Hd)].
      * left. repeat split. exact Hh.
      * right. split; [exact Hh|]. exists d, l2, m.
        split; [reflexivity|]. split; [reflexivity|].
        intros Hnd. apply NoDup_cons in Hnd as [Hx Hnd].
        rewrite <- Hfr; [apply Hd; exact Hnd|].
        intros ->. apply Hx. apply elem_of_app. right. left.
    + unfold mbind, Thread_bind. rewrite Hb. simpl.
      exists [], [EvFatal m]. split; [reflexivity|].
      split; [apply same_sync_push|]. split; [reflexivity|].
      split; [intros _ y Hy; inversion Hy|].
      right. split; [reflexivity|]. exists x, ids, m.
      split; [reflexivity|]. split; [reflexivity|]. intros _. exact Hp.
Qed.

End SamplingLemmas.

(** ** [TrainIteration] as a whole *)

Section IterationLemmas.
Context `{Collaborators}.

Lemma closing_phase_run cfg id trainer_num b s :
  closing_phase cfg id trainer_num b s =
  Done tt
    (advance (closing_waits b)
       (closing_events cfg id trainer_num b (ts_docs s) (ts_world s)
          (fun k => ts_barrier s (k + ts_waits s)%nat))
       s).
Proof.
  unfold closing_phase, closing_events, closing_waits, when, Log_Info.
  destruct (Int32.rem (lda_iteration b) 2 =? 0),
           (lda_iteration b =? Int32.wrap (num_iterations cfg - 1)), (id =? 0);
    unfold mbind, Thread_bind, mret, Thread_ret;
    rewrite ?Evaluate_run, ?emit_run, ?advance_advance;
    rewrite ?emit_run, ?advance_advance;
    rewrite ?app_nil_r, ?advance_nil, <- ?app_assoc; reflexivity.
Qed.

Lemma TrainIteration_run cfg id trainer_num b docs w barrier :
  let o := TrainIteration cfg id trainer_num b (enter docs w barrier) in
  let ids := doc_ids (Z.of_nat (length docs)) id trainer_num in
  exists l1 tail,
    ts_trace (final_state o)
    = opening_events cfg id trainer_num b barrier ++ (EvSampleOneDoc <$> l1) ++ tail /\
    (NoDup ids -> forall x, x ∈ l1 ->
       check_passes cfg (lda_iteration b) (lda_slice b) (GetOneDoc docs x) = true) /\
    ((halted o = false /\ l1 = ids /\
      exists num_token docs' w',
        tail = ending_events cfg id trainer_num b num_token docs' w' barrier) \/
     (halted o = true /\ exists d l2 m,
        ids = l1 ++ d :: l2 /\ tail = [EvFatal m] /\
        (NoDup ids ->
           check_passes cfg (lda_iteration b) (lda_slice b) (GetOneDoc docs d) = false))).
Proof.
  intros o ids. subst o ids.
  unfold TrainIteration, sampling_phase, get_docs.
  set (s0 := advance 0 (if id =? 0
                        then [EvInfo (InfoSlice (lda_iteration b) (lda_block b) (lda_slice b))]
                        else []) (enter docs w barrier)).
  assert (H0 : when (id =? 0)
                 (Log_Info (InfoSlice (lda_iteration b) (lda_block b) (lda_slice b)))
                 (enter docs w barrier) = Done tt s0).
  { unfold when, s0. destruct (id =? 0); [reflexivity|].
    rewrite advance_nil. reflexivity. }
  rewrite (bind_done _ _ _ _ _ H0).
  rewrite (bind_done _ _ _ _ _ (build_phase_run cfg id trainer_num b s0)).
  set (s1 := advance 2 _ s0).
  set (s2 := advance 0 (if id =? 0 then [EvInfo InfoAliasTime] else []) s1).
  assert (H2 : when (id =? 0) (Log_Info InfoAliasTime) s1 = Done tt s2).
  { unfold when, s2. destruct (id =? 0); [reflexivity|].
    rewrite advance_nil. reflexivity. }
  unfold mbind, Thread_bind. rewrite H2.
  change (ts_docs s2) with docs.
  destruct (sample_loop_run cfg (lda_iteration b) (lda_slice b)
              (LastWord (lda_meta b) (lda_slice b))
              (doc_ids (Z.of_nat (length docs)) id trainer_num) 0 s2)
    as (l1 & tail & Htr & Hsync & _ & Hok & Hcase).
  assert (Htr2 : ts_trace s2 = opening_events cfg id trainer_num b barrier).
  { unfold s2, s1, s0, opening_events. simpl. rewrite <- !app_assoc. reflexivity. }
  destruct (for_each _ _ 0 s2) as [n s3 | s3]; cbn [final_state halted] in Htr, Hsync, Hcase.
  - destruct Hcase as [(_ & -> & ->) | (Hh & _)]; [|discriminate].
    set (s4 := advance 0 (if id =? 0
                          then [EvInfo InfoTrainingTime; EvInfo (InfoThroughput n)]
                          else []) s3).
    assert (H4 : when (id =? 0)
                   (x ← Log_Info InfoTrainingTime; Log_Info (InfoThroughput n)) s3
                 = Done tt s4).
    { unfold when, s4. destruct (id =? 0).
      - unfold mbind, Thread_bind, Log_Info. rewrite !emit_run, advance_advance.
        reflexivity.
      - rewrite advance_nil. reflexivity. }
    unfold mbind, Thread_bind in H4. rewrite H4, closing_phase_run.
    exists (doc_ids (Z.of_nat (length docs)) id trainer_num).
    eexists. split; [|split; [exact Hok|]].
    2:{ left. split; [reflexivity|]. split; [reflexivity|].
        exists n, (ts_docs s3), (ts_world s3). reflexivity. }
    destruct Hsync as (Hw & Hb & _).
    unfold ending_events, s4. cbn [final_state advance ts_trace ts_docs ts_world ts_barrier ts_waits].
    rewrite Htr, Htr2, Hw, Hb, app_nil_r.
    rewrite <- !app_assoc. reflexivity.
  - destruct Hcase as [(Hh & _) | (_ & d & l2 & m & Hids & -> & Hbad)]; [discriminate|].
    exists l1, [EvFatal m]. split; [|split; [exact Hok|]].
    + cbn [final_state]. rewrite Htr, Htr2. reflexivity.
    + right. split; [reflexivity|]. exists d, l2, m. auto.
Qed.

End IterationLemmas.

(** ** Executions under the barrier *)

Lemma snoc_eq_middle {A} (l l1 l2 : list A) x y :
  l ++ [x] = l1 ++ y :: l2 ->
  (l2 = [] /\ l = l1 /\ x = y) \/ (exists l2', l2 = l2' ++ [x] /\ l = l1 ++ y :: l2').
Proof.
  destruct l2 as [|z l2 _] using rev_ind; intros Heq.
  - apply app_inj_tail in Heq as [-> ->]. left. auto.
  - right. exists l2.
    change (l ++ [x] = l1 ++ [y] ++ l2 ++ [z]) in Heq.
    rewrite !app_assoc in Heq. apply app_inj_tail in Heq as [-> ->].
    rewrite <- app_assoc. auto.
Qed.

Lemma waits_app l1 l2 : waits (l1 ++ l2) = (waits l1 + waits l2)%nat.
Proof. unfold waits. rewrite List.filter_app, length_app. reflexivity. Qed.

Lemma waits_snoc l e : waits (l ++ [e]) = (waits l + if is_wait e then 1 else 0)%nat.
Proof. rewrite waits_app. unfold waits. simpl. destruct (is_wait e); reflexivity. Qed.

(** An action that stands behind fewer waits than a performed prefix holds
    has been performed. *)
Lemma performed_by_waits (d t d' t' : list event) e :
  d ++ t = d' ++ e :: t' -> (waits d' < waits d)%nat -> e ∈ d.
Proof.
  intros Heq Hw. apply app_eq_app in Heq as [l [[-> Hl] | [-> Hl]]].
  - destruct l as [|x l].
    + rewrite app_nil_r in Hw. lia.
    + simpl in Hl. injection Hl as -> _. apply elem_of_app. right. left.
  - rewrite waits_app in Hw. lia.
Qed.

Lemma forallb_at_barrier ths i d t :
  forallb at_barrier ths = true -> ths !! i = Some (d, t) ->
  exists e r, t = e :: r /\ is_wait e = true.
Proof.
  intros Hall Hi. rewrite forallb_forall in Hall.
  specialize (Hall (d, t)). unfold at_barrier in Hall. simpl in Hall.
  destruct t as [|e r].
  - discriminate Hall. apply list_elem_of_In. eapply list_elem_of_lookup_2. exact Hi.
  - exists e, r. split; [reflexivity|]. apply Hall.
    apply list_elem_of_In. eapply list_elem_of_lookup_2. exact Hi.
Qed.

Section Executions.
Variable progs : list (list event).

Lemma ginit_consistent : consistent_threads progs (ginit progs).
Proof.
  unfold consistent_threads, ginit; simpl.
  split; [apply length_fmap|]. split; [|split].
  - intros i d t Hi. rewrite list_lookup_fmap in Hi.
    destruct (progs !! i) as [p|]; simpl in Hi; [|discriminate].
    injection Hi as <- <-. reflexivity.
  - intros i j di ti dj tj Hi Hj. rewrite list_lookup_fmap in Hi, Hj.
    destruct (progs !! i), (progs !! j); simpl in Hi, Hj; try discriminate.
    injection Hi as <- _. injection Hj as <- _. reflexivity.
  - intros i d t e Hi He. rewrite list_lookup_fmap in Hi.
    destruct (progs !! i); simpl in Hi; [|discriminate].
    injection Hi as <- _. inversion He.
Qed.

Lemma ginit_ordered : ordered_trace progs (g_trace (ginit progs)).
Proof. intros tr1 j a tr2 Heq. simpl in Heq. destruct tr1; discriminate. Qed.

Lemma gstep_consistent c g g' :
  gstep c g = Some g' ->
  consistent_threads progs g -> ordered_trace progs (g_trace g) ->
  consistent_threads progs g' /\ ordered_trace progs (g_trace g').
Proof.
  unfold gstep. destruct (g_halted g); [discriminate|].
  intros Hstep (Hlen & Hdec & Hw & Htr) Hord.
  destruct c as [i|].
  - (* thread [i] performs an action *)
    destruct (g_threads g !! i) as [[d [|e r]]|] eqn:Hi; try discriminate.
    destruct (is_wait e) eqn:He; [discriminate|].
    injection Hstep as <-.
    assert (Hlt : (i < length (g_threads g))%nat) by (eapply lookup_lt_Some; eassumption).
    assert (Hwd : waits (d ++ [e]) = waits d)
      by (rewrite waits_snoc, He; lia).
    split; [split; [|split; [|split]]|]; simpl.
    + rewrite length_insert. exact Hlen.
    + intros k dk tk Hk. apply list_lookup_insert_Some in Hk
        as [(<- & Heq & _) | (Hne & Hk)].
      * injection Heq as <- <-. rewrite <- app_assoc. eapply Hdec. exact Hi.
      * eapply Hdec. exact Hk.
    + intros k j dk tk dj tj Hk Hj.
      apply list_lookup_insert_Some in Hk as [(<- & Heq & _) | (Hne & Hk)];
      apply list_lookup_insert_Some in Hj as [(<- & Heq' & _) | (Hne' & Hj)].
      * congruence.
      * injection Heq as <- _. rewrite Hwd. eapply Hw; eassumption.
      * injection Heq' as <- _. rewrite Hwd. eapply Hw; eassumption.
      * eapply Hw; eassumption.
    + intros k dk tk e' Hk He' Hnw. apply elem_of_app.
      apply list_lookup_insert_Some in Hk as [(<- & Heq & _) | (Hne & Hk)].
      * injection Heq as <- _. apply elem_of_app in He' as [He' | He'].
        -- left. eapply Htr; eassumption.
        -- right. apply list_elem_of_singleton in He' as ->. left.
      * left. eapply Htr; eassumption.
    + intros tr1 j a tr2 Heq. apply snoc_eq_middle in Heq
        as [(-> & <- & Hja) | (tr2' & -> & Heq)].
      * injection Hja as <- <-. exists d, r.
        split; [eapply Hdec; exact Hi|].
        intros k p Hp.
        assert (Hk : exists dk tk, g_threads g !! k = Some (dk, tk)).
        { assert (Hklt : (k < length (g_threads g))%nat)
            by (rewrite Hlen; eapply lookup_lt_Some; eassumption).
          apply lookup_lt_is_Some in Hklt as [[dk tk] Hk]. eauto. }
        destruct Hk as (dk & tk & Hk). exists dk, tk.
        split; [pose proof (Hdec _ _ _ Hk); congruence|].
        split; [eapply Hw; eassumption|].
        intros e' He' Hnw. eapply Htr; eassumption.
      * eapply Hord. exact Heq.
  - (* the barrier opens *)
    destruct (forallb at_barrier (g_threads g)) eqn:Hall; [|discriminate].
    destruct (length (List.filter elected_now (g_threads g)) =? 1)%nat; [|discriminate].
    simpl in Hstep. injection Hstep as <-.
    assert (Hpass : forall i d t, (pass <$> g_threads g) !! i = Some (d, t) ->
              exists d0 e, g_threads g !! i = Some (d0, e :: t) /\
                           d = d0 ++ [e] /\ is_wait e = true).
    { intros i d t Hi. rewrite list_lookup_fmap in Hi.
      destruct (g_threads g !! i) as [[d0 t0]|] eqn:Hi0; simpl in Hi; [|discriminate].
      destruct (forallb_at_barrier _ _ _ _ Hall Hi0) as (e & r & -> & He).
      unfold pass in Hi. simpl in Hi. injection Hi as <- <-. eauto. }
    split; [split; [|split; [|split]]|]; simpl.
    + rewrite length_fmap. exact Hlen.
    + intros i d t Hi. apply Hpass in Hi as (d0 & e & Hi & -> & _).
      rewrite <- app_assoc. eapply Hdec. exact Hi.
    + intros i j di ti dj tj Hi Hj.
      apply Hpass in Hi as (d0 & e & Hi & -> & He).
      apply Hpass in Hj as (d1 & e' & Hj & -> & He').
      rewrite !waits_snoc, He, He'. f_equal. eapply Hw; eassumption.
    + intros i d t e Hi He Hnw.
      apply Hpass in Hi as (d0 & e0 & Hi & -> & He0).
      apply elem_of_app in He as [He | He].
      * eapply Htr; eassumption.
      * apply list_elem_of_singleton in He as ->. congruence.
    + exact Hord.
Qed.

Lemma gexec_consistent sched : forall g g',
  gexec sched g = Some g' ->
  consistent_threads progs g -> ordered_trace progs (g_trace g) ->
  consistent_threads progs g' /\ ordered_trace progs (g_trace g').
Proof.
  induction sched as [|c sched IH]; intros g g' Hex Hc Ho; simpl in Hex.
  - injection Hex as <-. auto.
  - destruct (gstep c g) as [g1|] eqn:Hstep; [|discriminate].
    destruct (gstep_consistent _ _ _ Hstep Hc Ho) as [Hc1 Ho1].
    eapply IH; eassumption.
Qed.

(** When [a] is performed, every thread has passed as many waits as stand
    before some occurrence of [a] in the performer's list, and what it did
    before passing them is earlier in the trace. *)
Lemma executed_after_barriers sched g tr1 j a tr2 :
  gexec sched (ginit progs) = Some g ->
  g_trace g = tr1 ++ (j, a) :: tr2 ->
  exists d t, progs !! j = Some (d ++ a :: t) /\
    forall i p, progs !! i = Some p ->
      exists di ti, p = di ++ ti /\ waits di = waits d /\
        forall e, e ∈ di -> is_wait e = false -> (i, e) ∈ tr1.
Proof.
  intros Hex Htr.
  destruct (gexec_consistent _ _ _ Hex ginit_consistent ginit_ordered) as [_ Hord].
  eapply Hord. exact Htr.
Qed.

End Executions.

(** ** The shape of a thread's action list *)

Lemma split_before {A} (P : A -> Prop) (l1 l2 l1' l2' : list A) d' :
  l1 ++ l2 = l1' ++ d' :: l2' -> (forall x, x ∈ l1 -> P x) -> ~ P d' ->
  exists l, l1' = l1 ++ l /\ l2 = l ++ d' :: l2'.
Proof.
  intros Heq Hall Hd. apply app_eq_app in Heq as [l [[-> Hl] | [-> Hl]]].
  - destruct l as [|x l].
    + exists []. simpl in Hl. rewrite !app_nil_r. auto.
    + simpl in Hl. injection Hl as <- _. exfalso. apply Hd, Hall.
      apply elem_of_app. right. left.
  - exists l. auto.
Qed.

Lemma first_failure_unique {A} (P : A -> Prop) (l1 l2 l1' l2' : list A) d d' :
  l1 ++ d :: l2 = l1' ++ d' :: l2' ->
  (forall x, x ∈ l1 -> P x) -> ~ P d -> (forall x, x ∈ l1' -> P x) -> ~ P d' ->
  l1 = l1' /\ d = d' /\ l2 = l2'.
Proof.
  intros Heq H1 Hd H1' Hd'.
  destruct (split_before P _ _ _ _ _ Heq H1 Hd') as (l & -> & Hl).
  destruct l as [|x l].
  - simpl in Hl. injection Hl as -> ->. rewrite app_nil_r. auto.
  - simpl in Hl. injection Hl as <- _. exfalso. apply Hd, H1'.
    apply elem_of_app. right. left.
Qed.

Lemma prefix_by_waits (d t P Q : list event) :
  d ++ t = P ++ Q -> (waits P < waits d)%nat -> forall e, e ∈ P -> e ∈ d.
Proof.
  intros Heq Hw e He. apply app_eq_app in Heq as [l [[-> _] | [-> _]]].
  - apply elem_of_app. left. exact He.
  - rewrite waits_app in Hw. lia.
Qed.

Lemma unique_last {A} (X d t : list A) a :
  a ∉ X -> X ++ [a] = d ++ a :: t -> d = X /\ t = [].
Proof.
  intros Ha Heq. apply snoc_eq_middle in Heq as [(-> & -> & _) | (t' & -> & ->)].
  - auto.
  - exfalso. apply Ha. apply elem_of_app. right. left.
Qed.

Lemma not_kind_not_in (k : event -> bool) l e :
  Forall (fun x => k x = true) l -> k e = false -> e ∉ l.
Proof.
  intros Hall He Hin. rewrite Forall_forall in Hall. apply Hall in Hin. congruence.
Qed.

Lemma waits_none l : Forall (fun e => is_wait e = false) l -> waits l = 0%nat.
Proof.
  unfold waits. induction 1 as [|e l He _ IH]; simpl; [reflexivity|].
  rewrite He. exact IH.
Qed.

Ltac kinds :=
  rewrite ?Forall_app; repeat split;
  try (apply Forall_fmap, Forall_true; intros; reflexivity);
  repeat match goal with
         | |- context [if ?c then _ else _] => destruct c
         end;
  repeat constructor.

Section Shapes.
Context `{Collaborators}.

Lemma build_events_kind cfg id trainer_num b e1 e2 :
  Forall (fun e => opening_kind e = true) (build_events cfg id trainer_num b e1 e2).
Proof. unfold build_events. kinds. Qed.

Lemma opening_events_kind cfg id trainer_num b barrier :
  Forall (fun e => opening_kind e = true) (opening_events cfg id trainer_num b barrier).
Proof. unfold opening_events, build_events. kinds. Qed.

Lemma evaluate_events_kind id trainer_num b docs w e1 e2 e3 :
  Forall (fun e => evaluation_kind e = true)
         (evaluate_events id trainer_num b docs w e1 e2 e3).
Proof. unfold evaluate_events, gated_wait_events. kinds. Qed.

(** [ending_events] is evaluation-kind actions, then the clearing. *)
Lemma ending_events_split cfg id trainer_num b n docs w barrier :
  exists X,
    ending_events cfg id trainer_num b n docs w barrier
    = X ++ (if lda_iteration b =? Int32.wrap (num_iterations cfg - 1)
            then [EvClear] else []) /\
    Forall (fun e => evaluation_kind e = true) X /\
    ((Int32.rem (lda_iteration b) 2 =? 0) = false -> Forall (fun e => is_info e = true) X) /\
    ((Int32.rem (lda_iteration b) 2 =? 0) = true -> (1 <= waits X)%nat /\ EvLock ∈ X).
Proof.
  unfold ending_events, closing_events.
  eexists. split; [rewrite app_assoc; reflexivity|].
  split; [|split].
  - unfold evaluate_events, gated_wait_events. kinds.
  - intros ->. kinds.
  - intros ->. split.
    + rewrite !waits_app. unfold evaluate_events.
      rewrite !waits_app.
      change (waits [EvWait (barrier (gated_waits b + 2)%nat)]) with 1%nat. lia.
    + apply elem_of_app. right. apply elem_of_app. left.
      unfold evaluate_events. left.
Qed.

Lemma waits_build_events cfg id trainer_num b e1 e2 :
  waits (build_events cfg id trainer_num b e1 e2) = 2%nat.
Proof.
  unfold build_events. rewrite !waits_app.
  rewrite (waits_none (_ <$> _))
    by (apply Forall_fmap, Forall_true; intros; reflexivity).
  destruct (id =? 0), (0 <=? asymmetric_alpha cfg)%float; reflexivity.
Qed.

Lemma waits_opening_events cfg id trainer_num b barrier :
  waits (opening_events cfg id trainer_num b barrier) = 2%nat.
Proof.
  unfold opening_events. rewrite !waits_app, waits_build_events.
  destruct (id =? 0); reflexivity.
Qed.

Lemma waits_samples (l : list Z) : waits (EvSampleOneDoc <$> l) = 0%nat.
Proof. apply waits_none, Forall_fmap, Forall_true. intros; reflexivity. Qed.

End Shapes.

(** ** The action lists of the threads of a process *)

Section ProgramLemmas.
Context `{Collaborators}.
Variables (cfg : Config) (trainer_num : Z) (b : LDADataBlock).
Variables (docs : list Document) (w : Z -> world) (barrier : Z -> nat -> bool).

Let prog := thread_program cfg trainer_num b docs w barrier.
Let progs := programs cfg trainer_num b docs w barrier.

Lemma programs_lookup (j : nat) p :
  progs !! j = Some p <-> p = prog (Z.of_nat j) /\ Z.of_nat j < trainer_num.
Proof.
  unfold progs, programs. rewrite list_lookup_fmap. split.
  - destruct (seqZ 0 trainer_num !! j) as [k|] eqn:Hk; simpl; [|discriminate].
    intros Hp. injection Hp as <-. apply lookup_seqZ in Hk as [-> Hlt].
    split; [reflexivity | exact Hlt].
  - intros [-> Hlt].
    assert (Hk : seqZ 0 trainer_num !! j = Some (Z.of_nat j))
      by (apply lookup_seqZ; split; [lia | exact Hlt]).
    rewrite Hk. reflexivity.
Qed.

Lemma thread_program_run id :
  let ids := doc_ids (Z.of_nat (length docs)) id trainer_num in
  exists l1 tail,
    prog id = opening_events cfg id trainer_num b (barrier id)
              ++ (EvSampleOneDoc <$> l1) ++ tail /\
    ((l1 = ids /\ exists n docs' w',
        tail = ending_events cfg id trainer_num b n docs' w' (barrier id)) \/
     (exists d l2 m, ids = l1 ++ d :: l2 /\ tail = [EvFatal m])).
Proof.
  intros ids. unfold prog, thread_program.
  destruct (TrainIteration_run cfg id trainer_num b docs (w id) (barrier id))
    as (l1 & tail & Htr & _ & Hcase).
  exists l1, tail. split; [exact Htr|].
  destruct Hcase as [(_ & -> & Hn) | (_ & d & l2 & m & Hids & -> & _)].
  - left. auto.
  - right. eauto.
Qed.

Lemma opening_events_split id :
  opening_events cfg id trainer_num b (barrier id)
  = before_sampling_barrier cfg id trainer_num b (barrier id 0%nat)
    ++ [EvWait (barrier id 1%nat)]
    ++ (if id =? 0 then [EvInfo InfoAliasTime] else []).
Proof.
  unfold opening_events, build_events, before_sampling_barrier.
  rewrite <- !app_assoc. destruct (id =? 0); reflexivity.
Qed.

Lemma waits_before_sampling_barrier id e1 :
  waits (before_sampling_barrier cfg id trainer_num b e1) = 1%nat.
Proof.
  unfold before_sampling_barrier. rewrite !waits_app.
  rewrite (waits_none (_ <$> _))
    by (apply Forall_fmap, Forall_true; intros; reflexivity).
  destruct (id =? 0), (0 <=? asymmetric_alpha cfg)%float; reflexivity.
Qed.

(** Every sampling call of a thread stands behind two barrier waits. *)
Lemma sample_behind_two_waits id d x t :
  prog id = d ++ EvSampleOneDoc x :: t -> (2 <= waits d)%nat.
Proof.
  intros Hd. destruct (thread_program_run id) as (l1 & tail & Hp & _).
  rewrite Hp in Hd.
  destruct (split_before (fun e => opening_kind e = true) _ _ _ _ _ Hd)
    as (l & -> & _).
  - apply Forall_forall, opening_events_kind.
  - discriminate.
  - rewrite waits_app, waits_opening_events. lia.
Qed.

(** What a thread has done once it has passed two waits. *)
Lemma passed_two_waits id d t e :
  prog id = d ++ t -> (2 <= waits d)%nat ->
  e ∈ before_sampling_barrier cfg id trainer_num b (barrier id 0%nat) -> e ∈ d.
Proof.
  intros Hd Hw He. destruct (thread_program_run id) as (l1 & tail & Hp & _).
  rewrite Hp, opening_events_split, <- !app_assoc in Hd.
  eapply prefix_by_waits; [symmetry; exact Hd | | exact He].
  rewrite waits_before_sampling_barrier. lia.
Qed.

End ProgramLemmas.

(** ** The build phase precedes sampling *)

Section PhaseOrder.
Context `{Collaborators}.
Variables (cfg : Config) (trainer_num : Z) (b : LDADataBlock).
Variables (docs : list Document) (w : Z -> world) (barrier : Z -> nat -> bool).

Lemma ending_events_no_alias_write id n docs' w' bar :
  Forall (fun e => is_alias_write e = false)
         (ending_events cfg id trainer_num b n docs' w' bar).
Proof.
  destruct (ending_events_split cfg id trainer_num b n docs' w' bar)
    as (X & -> & HX & _).
  apply Forall_app. split.
  - eapply Forall_impl; [exact HX|]. intros [] ?; (reflexivity || discriminate).
  - destruct (_ =? _); repeat constructor.
Qed.

Lemma init_before_sampling_barrier e1 :
  EvInit (lda_block b) (lda_slice b)
  ∈ before_sampling_barrier cfg 0 trainer_num b e1.
Proof. unfold before_sampling_barrier. simpl. right. left. Qed.

Lemma dense_before_sampling_barrier e1 :
  EvBuild (-1) ∈ before_sampling_barrier cfg 0 trainer_num b e1.
Proof.
  unfold before_sampling_barrier. change (0 =? 0) with true.
  apply elem_of_app. right. apply elem_of_app. right. apply elem_of_app. right.
  apply elem_of_app. left. left.
Qed.

Lemma asymmetric_before_sampling_barrier e1 :
  (0 <=? asymmetric_alpha cfg)%float = true ->
  EvInitAsymmetricAlpha ∈ before_sampling_barrier cfg 0 trainer_num b e1.
Proof.
  intros Ha. unfold before_sampling_barrier. change (0 =? 0) with true. rewrite Ha.
  apply elem_of_app. right. apply elem_of_app. right. apply elem_of_app. right.
  apply elem_of_app. right. left.
Qed.

Lemma sparse_before_sampling_barrier id e1 p :
  p ∈ word_positions (vocab_begin (lda_meta b) (lda_slice b))
                     (vocab_end (lda_meta b) (lda_slice b)) id trainer_num ->
  EvBuild (vocab_at (lda_meta b) p) ∈ before_sampling_barrier cfg id trainer_num b e1.
Proof.
  intros Hp. unfold before_sampling_barrier.
  apply elem_of_app. right. apply elem_of_app. right. apply elem_of_app. left.
  apply (list_elem_of_fmap_2 (fun pword => EvBuild (vocab_at (lda_meta b) pword))).
  exact Hp.
Qed.

End PhaseOrder.

(** C1. In every call of [TrainIteration] the actions of thread [id] begin
    with: the installation of the slice's index (thread 0 only); a barrier
    wait; the sparse builds of the thread's words; the dense build
    [Build(-1)] (thread 0 only) and, exactly when [asymmetric_alpha >= 0],
    [InitAsymmetricAlpha] (thread 0 only); a second barrier wait; and no
    alias-table write follows.  Hence, in every execution of the threads
    under the barrier, a document is sampled only after thread 0 installed
    the index and built the shared slots and every thread built its sparse
    slots. *)
Theorem train_iteration_phase_order `{Collaborators}
    (cfg : Config) (trainer_num : Z) (b : LDADataBlock)
    (docs : list Document) (w : Z -> world) (barrier : Z -> nat -> bool) :
  (forall id, exists rest,
      thread_program cfg trainer_num b docs w barrier id =
        (if id =? 0
         then [EvInfo (InfoSlice (lda_iteration b) (lda_block b) (lda_slice b));
               EvInit (lda_block b) (lda_slice b)]
         else [])
        ++ [EvWait (barrier id 0%nat)]
        ++ ((fun pword => EvBuild (vocab_at (lda_meta b) pword)) <$>
              word_positions (vocab_begin (lda_meta b) (lda_slice b))
                             (vocab_end (lda_meta b) (lda_slice b)) id trainer_num)
        ++ (if id =? 0 then [EvBuild (-1); EvInfo InfoNonZeroTopic] else [])
        ++ (if (id =? 0) && (0 <=? asymmetric_alpha cfg)%float
            then [EvInitAsymmetricAlpha] else [])
        ++ [EvWait (barrier id 1%nat)]
        ++ rest /\
      Forall (fun e => is_alias_write e = false) rest) /\
  (forall sched g tr1 j doc_id tr2,
      gexec sched (ginit (programs cfg trainer_num b docs w barrier)) = Some g ->
      g_trace g = tr1 ++ (j, EvSampleOneDoc doc_id) :: tr2 ->
      (0%nat, EvInit (lda_block b) (lda_slice b)) ∈ tr1 /\
      (0%nat, EvBuild (-1)) ∈ tr1 /\
      ((0 <=? asymmetric_alpha cfg)%float = true ->
         (0%nat, EvInitAsymmetricAlpha) ∈ tr1) /\
      (forall (i : nat) p, Z.of_nat i < trainer_num ->
         p ∈ word_positions (vocab_begin (lda_meta b) (lda_slice b))
                            (vocab_end (lda_meta b) (lda_slice b))
                            (Z.of_nat i) trainer_num ->
         (i, EvBuild (vocab_at (lda_meta b) p)) ∈ tr1)).
Proof.
  split.
  - intros id.
    destruct (thread_program_run cfg trainer_num b docs w barrier id)
      as (l1 & tail & Hp & Hcase).
    exists ((if id =? 0 then [EvInfo InfoAliasTime] else [])
            ++ (EvSampleOneDoc <$> l1) ++ tail).
    split.
    + rewrite Hp, opening_events_split. unfold before_sampling_barrier.
      rewrite <- !app_assoc. reflexivity.
    + apply Forall_app. split; [destruct (id =? 0); repeat constructor|].
      apply Forall_app. split.
      * apply Forall_fmap, Forall_true. intros; reflexivity.
      * destruct Hcase as [(_ & n & docs' & w' & ->) | (d & l2 & m & _ & ->)].
        -- apply ending_events_no_alias_write.
        -- repeat constructor.
  - intros sched g tr1 j doc_id tr2 Hex Htr.
    destruct (executed_after_barriers _ _ _ _ _ _ _ Hex Htr) as (d & t & Hj & Hall).
    apply programs_lookup in Hj as [Hj Hjlt].
    assert (Hw2 : (2 <= waits d)%nat)
      by (eapply sample_behind_two_waits; symmetry; exact Hj).
    assert (Hthread : forall (i : nat) e, Z.of_nat i < trainer_num ->
              e ∈ before_sampling_barrier cfg (Z.of_nat i) trainer_num b
                    (barrier (Z.of_nat i) 0%nat) ->
              is_wait e = false -> (i, e) ∈ tr1).
    { intros i e Hi He Hnw.
      destruct (Hall i (thread_program cfg trainer_num b docs w barrier (Z.of_nat i)))
        as (di & ti & Hdi & Hwi & Hin).
      - apply programs_lookup. auto.
      - apply Hin; [|exact Hnw].
        eapply passed_two_waits; [exact Hdi | lia | exact He]. }
    assert (H0 : Z.of_nat 0 < trainer_num) by lia.
    split; [|split; [|split]].
    + apply Hthread; [exact H0 | apply init_before_sampling_barrier | reflexivity].
    + apply Hthread; [exact H0 | apply dense_before_sampling_barrier | reflexivity].
    + intros Ha. apply Hthread;
        [exact H0 | apply asymmetric_before_sampling_barrier; exact Ha | reflexivity].
    + intros i p Hi Hp. apply Hthread;
        [exact Hi | apply sparse_before_sampling_barrier; exact Hp | reflexivity].
Qed.

Lemma train_iteration_phase_order_witness :
  let progs := @programs example_collaborators example_config 2
                 (example_block 0 0 1) example_docs (fun _ => tt) example_barrier in
  exists g tr1 tr2,
    gexec example_schedule (ginit progs) = Some g /\
    g_trace g = tr1 ++ (0%nat, EvSampleOneDoc 0) :: tr2 /\
    (0%nat, EvBuild (-1)) ∈ tr1.
Proof.
  intros progs.
  destruct (@train_iteration_phase_order example_collaborators example_config 2
              (example_block 0 0 1) example_docs (fun _ => tt) example_barrier)
    as [_ Hg].
  eexists.
  exists [(0%nat, EvInfo (InfoSlice 1 0 0)); (0%nat, EvInit 0 0); (0%nat, EvBuild 0);
          (0%nat, EvBuild 2); (0%nat, EvBuild (-1)); (0%nat, EvInfo InfoNonZeroTopic);
          (0%nat, EvInitAsymmetricAlpha); (1%nat, EvBuild 1);
          (0%nat, EvInfo InfoAliasTime)],
         [(0%nat, EvInfo InfoTrainingTime); (0%nat, EvInfo (InfoThroughput 2));
          (0%nat, EvClear); (1%nat, EvSampleOneDoc 1); (1%nat, EvClear)].
  split; [vm_compute; reflexivity|].
  split; [reflexivity|].
  refine (proj1 (proj2 (Hg example_schedule _ _ _ _ _ _ _)));
    [vm_compute; reflexivity | reflexivity].
Defined.

(** ** Clearing the alias table *)

Section Clear.
Context `{Collaborators}.
Variables (cfg : Config) (trainer_num : Z) (b : LDADataBlock).
Variables (docs : list Document) (w : Z -> world) (barrier : Z -> nat -> bool).

Let prog := thread_program cfg trainer_num b docs w barrier.

(** The two ways a call ends: after the closing phase, or at a fatal log
    inside the sampling loop. *)
Lemma thread_program_cases id :
  let ids := doc_ids (Z.of_nat (length docs)) id trainer_num in
  let opening := opening_events cfg id trainer_num b (barrier id) in
  (exists X,
     prog id = (opening ++ (EvSampleOneDoc <$> ids) ++ X)
               ++ (if lda_iteration b =? Int32.wrap (num_iterations cfg - 1)
                   then [EvClear] else []) /\
     Forall (fun e => evaluation_kind e = true) X /\
     ((Int32.rem (lda_iteration b) 2 =? 0) = true -> (1 <= waits X)%nat /\ EvLock ∈ X) /\
     ((Int32.rem (lda_iteration b) 2 =? 0) = false ->
        Forall (fun e => is_info e = true) X)) \/
  (exists l1 d l2 m,
     ids = l1 ++ d :: l2 /\
     prog id = opening ++ (EvSampleOneDoc <$> l1) ++ [EvFatal m]).
Proof.
  intros ids opening.
  destruct (thread_program_run cfg trainer_num b docs w barrier id)
    as (l1 & tail & Hp & [(-> & n & docs' & w' & ->) | (d & l2 & m & Hids & ->)]).
  - left.
    destruct (ending_events_split cfg id trainer_num b n docs' w' (barrier id))
      as (X & HX & Hk & Hodd & Heven).
    exists X. split; [|auto].
    fold prog in Hp. rewrite Hp, HX, <- !app_assoc. reflexivity.
  - right. exists l1, d, l2, m. auto.
Qed.

Lemma clear_not_before id (l1 : list Z) X :
  Forall (fun e => evaluation_kind e = true) X ->
  EvClear ∉ opening_events cfg id trainer_num b (barrier id)
            ++ (EvSampleOneDoc <$> l1) ++ X.
Proof.
  intros HX Hin. apply elem_of_app in Hin as [Hin | Hin].
  - revert Hin. eapply not_kind_not_in; [apply opening_events_kind | reflexivity].
  - apply elem_of_app in Hin as [Hin | Hin].
    + apply list_elem_of_fmap in Hin as (x & Hx & _). discriminate.
    + revert Hin. eapply not_kind_not_in; [exact HX | reflexivity].
Qed.

End Clear.

(** C4 (as amended). [AliasTable::Clear] is called in [TrainIteration] only
    when the iteration index is [num_iterations - 1]; every thread whose
    call then runs to its end calls it, once, as its last action, after its
    own sampling loop; and when the iteration index is even (the evaluation
    phase, which ends at a barrier, has run) it is called only after every
    thread has sampled all the documents of its partition. *)
Theorem clear_at_final_iteration `{Collaborators}
    (cfg : Config) (trainer_num : Z) (b : LDADataBlock)
    (docs : list Document) (w : Z -> world) (barrier : Z -> nat -> bool) :
  (forall id,
      let o := TrainIteration cfg id trainer_num b (enter docs (w id) (barrier id)) in
      let tr := ts_trace (final_state o) in
      (EvClear ∈ tr -> lda_iteration b = Int32.wrap (num_iterations cfg - 1)) /\
      (halted o = false ->
       lda_iteration b = Int32.wrap (num_iterations cfg - 1) ->
       exists tr', tr = tr' ++ [EvClear] /\ (EvClear ∉ tr') /\
         forall x, x ∈ doc_ids (Z.of_nat (length docs)) id trainer_num ->
                   EvSampleOneDoc x ∈ tr')) /\
  (Int32.rem (lda_iteration b) 2 = 0 ->
   forall sched g tr1 j tr2,
     gexec sched (ginit (programs cfg trainer_num b docs w barrier)) = Some g ->
     g_trace g = tr1 ++ (j, EvClear) :: tr2 ->
     forall (i : nat) x, Z.of_nat i < trainer_num ->
       x ∈ doc_ids (Z.of_nat (length docs)) (Z.of_nat i) trainer_num ->
       (i, EvSampleOneDoc x) ∈ tr1).
Proof.
  split.
  - intros id o tr.
    destruct (TrainIteration_run cfg id trainer_num b docs (w id) (barrier id))
      as (l1 & tail & Htr & _ & Hcase).
    fold o in Htr, Hcase. fold tr in Htr.
    destruct Hcase as [(Hh & -> & n & docs' & w' & ->) | (Hh & d & l2 & m & _ & -> & _)].
    + destruct (ending_events_split cfg id trainer_num b n docs' w' (barrier id))
        as (X & HX & Hk & _).
      rewrite HX, !app_assoc in Htr. rewrite <- (app_assoc _ _ X) in Htr.
      pose proof (clear_not_before cfg trainer_num b barrier id
                    (doc_ids (Z.of_nat (length docs)) id trainer_num) X Hk) as Hnot.
      split.
      * rewrite Htr. intros Hin. apply elem_of_app in Hin as [Hin | Hin];
          [contradiction|].
        destruct (Z.eqb_spec (lda_iteration b) (Int32.wrap (num_iterations cfg - 1)));
          [assumption | inversion Hin].
      * intros _ Hlast. apply Z.eqb_eq in Hlast. rewrite Hlast in Htr.
        eexists. split; [exact Htr|]. split; [exact Hnot|].
        intros x Hx. apply elem_of_app. right. apply elem_of_app. left.
        apply list_elem_of_fmap_2. exact Hx.
    + split; [|rewrite Hh; discriminate].
      rewrite Htr. intros Hin. exfalso.
      apply elem_of_app in Hin as [Hin | Hin].
      * revert Hin. eapply not_kind_not_in; [apply opening_events_kind | reflexivity].
      * apply elem_of_app in Hin as [Hin | Hin].
        -- apply list_elem_of_fmap in Hin as (x & Hx & _). discriminate.
        -- apply list_elem_of_singleton in Hin. discriminate.
  - intros Heven sched g tr1 j tr2 Hex Htr i x Hi Hx.
    apply Z.eqb_eq in Heven.
    destruct (executed_after_barriers _ _ _ _ _ _ _ Hex Htr) as (d & t & Hj & Hall).
    apply programs_lookup in Hj as [Hj Hjlt].
    assert (Hw3 : (3 <= waits d)%nat).
    { destruct (thread_program_cases cfg trainer_num b docs w barrier (Z.of_nat j))
        as [(X & Hp & Hk & Hev & _) | (l1 & d' & l2 & m & _ & Hp)]; rewrite Hp in Hj.
      - destruct (Hev Heven) as [HwX _].
        pose proof (clear_not_before cfg trainer_num b barrier (Z.of_nat j)
                      (doc_ids (Z.of_nat (length docs)) (Z.of_nat j) trainer_num) X Hk)
          as Hnot.
        destruct (lda_iteration b =? Int32.wrap (num_iterations cfg - 1)).
        + symmetry in Hj. apply unique_last in Hj as [-> _]; [|exact Hnot].
          rewrite !waits_app, waits_opening_events, waits_samples. lia.
        + exfalso. rewrite app_nil_r in Hj. apply Hnot. rewrite <- Hj.
          apply elem_of_app. right. left.
      - exfalso.
        assert (Hin : EvClear ∈ opening_events cfg (Z.of_nat j) trainer_num b
                        (barrier (Z.of_nat j)) ++ (EvSampleOneDoc <$> l1) ++ [EvFatal m])
          by (rewrite <- Hj; apply elem_of_app; right; left).
        apply elem_of_app in Hin as [Hin | Hin].
        + revert Hin. eapply not_kind_not_in; [apply opening_events_kind | reflexivity].
        + apply elem_of_app in Hin as [Hin | Hin].
          * apply list_elem_of_fmap in Hin as (y & Hy & _). discriminate.
          * apply list_elem_of_singleton in Hin. discriminate. }
    destruct (Hall i (thread_program cfg trainer_num b docs w barrier (Z.of_nat i)))
      as (di & ti & Hdi & Hwi & Hin).
    { apply programs_lookup. auto. }
    apply Hin; [|reflexivity].
    destruct (thread_program_cases cfg trainer_num b docs w barrier (Z.of_nat i))
      as [(X & Hp & _) | (l1 & d' & l2 & m & _ & Hp)]; rewrite Hp in Hdi.
    + rewrite <- !app_assoc, app_assoc in Hdi.
      eapply prefix_by_waits; [symmetry; exact Hdi | |].
      * rewrite waits_app, waits_opening_events, waits_samples. lia.
      * apply elem_of_app. right. apply list_elem_of_fmap_2. exact Hx.
    + exfalso.
      assert (Hle : (waits di <= 2)%nat).
      { assert (Hwp : waits (di ++ ti) = 2%nat).
        { rewrite <- Hdi, !waits_app, waits_opening_events, waits_samples.
          reflexivity. }
        rewrite waits_app in Hwp. lia. }
      lia.
Qed.

(** Iteration 1 of 2, two threads: thread 1 clears too, and thread 0 may
    clear before thread 1 has sampled. *)
Lemma clear_at_final_iteration_counterexample :
  let progs := @programs example_collaborators example_config 2
                 (example_block 0 0 1) example_docs (fun _ => tt) example_barrier in
  lda_iteration (example_block 0 0 1) = Int32.wrap (num_iterations example_config - 1) /\
  EvClear ∈ @thread_program example_collaborators example_config 2
              (example_block 0 0 1) example_docs (fun _ => tt) example_barrier 1 /\
  exists g tr1 tr2,
    gexec example_schedule (ginit progs) = Some g /\
    g_trace g = tr1 ++ (1%nat, EvSampleOneDoc 1) :: tr2 /\
    (0%nat, EvClear) ∈ tr1.
Proof.
  intros progs. split; [reflexivity|]. split.
  - vm_compute. do 4 right. left.
  - eexists.
    exists [(0%nat, EvInfo (InfoSlice 1 0 0)); (0%nat, EvInit 0 0); (0%nat, EvBuild 0);
            (0%nat, EvBuild 2); (0%nat, EvBuild (-1)); (0%nat, EvInfo InfoNonZeroTopic);
            (0%nat, EvInitAsymmetricAlpha); (1%nat, EvBuild 1);
            (0%nat, EvInfo InfoAliasTime); (0%nat, EvSampleOneDoc 0);
            (0%nat, EvInfo InfoTrainingTime); (0%nat, EvInfo (InfoThroughput 2));
            (0%nat, EvClear)],
           [(1%nat, EvClear)].
    split; [vm_compute; reflexivity|]. split; [reflexivity|].
    do 12 right. left.
Qed.

Lemma clear_at_final_iteration_witness :
  let o := @TrainIteration example_collaborators example_config 1 2
             (example_block 0 0 1) (@enter example_collaborators example_docs tt
                                      (example_barrier 1)) in
  exists tr', ts_trace (final_state o) = tr' ++ [EvClear] /\ (EvClear ∉ tr').
Proof.
  intros o.
  destruct (proj1 (@clear_at_final_iteration example_collaborators example_config 2
                     (example_block 0 0 1) example_docs (fun _ => tt) example_barrier) 1)
    as [_ Hlast].
  destruct (Hlast eq_refl eq_refl) as (tr' & Htr & Hnot & _).
  exists tr'. split; [exact Htr | exact Hnot].
Defined.

(** ** The evaluation phase *)

Lemma rem2_even z : Int32.rem z 2 = 0 <-> Z.even z = true.
Proof.
  unfold Int32.rem. rewrite Z.rem_divide by lia. rewrite Z.even_spec.
  split; intros [k Hk]; exists k; lia.
Qed.

(** C6. The evaluation phase of [TrainIteration] is entered only when the
    iteration index is even; a call with an even index that is not stopped
    by a fatal log performs the whole of [Evaluate]; with an odd index the
    phase is skipped. *)
Theorem evaluation_on_even_iterations `{Collaborators}
    (cfg : Config) (id trainer_num : Z) (b : LDADataBlock)
    (docs : list Document) (w : world) (barrier : nat -> bool) :
  let o := TrainIteration cfg id trainer_num b (enter docs w barrier) in
  let tr := ts_trace (final_state o) in
  (Int32.rem (lda_iteration b) 2 = 0 <-> Z.even (lda_iteration b) = true) /\
  (evaluation_entered tr -> Int32.rem (lda_iteration b) 2 = 0) /\
  (Int32.rem (lda_iteration b) 2 <> 0 -> ~ evaluation_entered tr) /\
  (halted o = false -> Int32.rem (lda_iteration b) 2 = 0 ->
   evaluation_entered tr /\
   exists pre docs' w' post,
     tr = pre
          ++ evaluate_events id trainer_num b docs' w'
               (barrier 2%nat)
               (barrier ((if (lda_slice b =? 0)%Z then 1 else 0) + 2)%nat)
               (barrier (gated_waits b + 2)%nat)
          ++ post).
Proof.
  intros o tr.
  assert (Hentered : evaluation_entered tr -> Int32.rem (lda_iteration b) 2 = 0).
  { unfold evaluation_entered, tr, o.
    destruct (TrainIteration_run cfg id trainer_num b docs w barrier)
      as (l1 & tail & -> & _ & Hcase).
    intros Hin. apply elem_of_app in Hin as [Hin | Hin].
    { exfalso. revert Hin.
      eapply not_kind_not_in; [apply opening_events_kind | reflexivity]. }
    apply elem_of_app in Hin as [Hin | Hin].
    { apply list_elem_of_fmap in Hin as (x & Hx & _). discriminate. }
    destruct Hcase as [(_ & _ & n & docs' & w' & ->) | (_ & d & l2 & m & _ & -> & _)].
    - destruct (ending_events_split cfg id trainer_num b n docs' w' barrier)
        as (X & HX & _ & Hodd & _).
      rewrite HX in Hin.
      destruct (Z.eqb_spec (Int32.rem (lda_iteration b) 2) 0) as [|Hne];
        [assumption | exfalso].
      apply elem_of_app in Hin as [Hin | Hin].
      + revert Hin. eapply not_kind_not_in; [apply Hodd; reflexivity | reflexivity].
      + destruct (_ =? _) in Hin; [|inversion Hin].
        apply list_elem_of_singleton in Hin. discriminate.
    - apply list_elem_of_singleton in Hin. discriminate. }
  split; [apply rem2_even|]. split; [exact Hentered|].
  split; [intros Hodd Hin; apply Hodd, Hentered, Hin|].
  intros Hh Heven. unfold evaluation_entered, tr.
  destruct (TrainIteration_run cfg id trainer_num b docs w barrier)
    as (l1 & tail & Htr & _ & Hcase).
  fold o in Htr, Hcase.
  destruct Hcase as [(_ & _ & n & docs' & w' & ->) | (Hh' & _)]; [|congruence].
  rewrite Htr. unfold ending_events, closing_events.
  apply Z.eqb_eq in Heven. rewrite Heven.
  split.
  - apply elem_of_app. right. apply elem_of_app. right. apply elem_of_app. right.
    apply elem_of_app. left. apply elem_of_app. left.
    unfold evaluate_events. left.
  - exists (opening_events cfg id trainer_num b barrier
            ++ (EvSampleOneDoc <$> l1)
            ++ (if id =? 0
                then [EvInfo InfoTrainingTime; EvInfo (InfoThroughput n)] else [])),
           docs', w',
           ((if id =? 0 then [EvInfo InfoEvaluationTime] else [])
            ++ (if lda_iteration b =? Int32.wrap (num_iterations cfg - 1)
                then [EvClear] else [])).
    rewrite <- !app_assoc. reflexivity.
Qed.

Lemma evaluation_on_even_iterations_witness :
  evaluation_entered
    (ts_trace (final_state
       (@TrainIteration example_collaborators example_config 0 2 (example_block 0 0 0)
          (@enter example_collaborators example_docs tt (example_barrier 0))))).
Proof.
  apply (@evaluation_on_even_iterations example_collaborators example_config 0 2
           (example_block 0 0 0) example_docs tt (example_barrier 0));
    reflexivity.
Defined.

(** *** [Evaluate] *)

Section EvaluateLogs.
Context `{Collaborators}.

Lemma thread_doc_llh_gated id trainer_num b docs w :
  lda_slice b <> 0 -> thread_doc_llh id trainer_num b docs w = 0%float.
Proof.
  intros Hs. unfold thread_doc_llh.
  destruct (Z.eqb_spec (lda_slice b) 0); [contradiction | reflexivity].
Qed.

Lemma thread_word_llh_gated id trainer_num b w :
  lda_block b <> 0 -> thread_word_llh id trainer_num b w = 0%float.
Proof.
  intros Hs. unfold thread_word_llh.
  destruct (Z.eqb_spec (lda_block b) 0); [contradiction | reflexivity].
Qed.

Ltac decide_member :=
  repeat match goal with
         | H : _ ∈ _ ++ _ |- _ => apply elem_of_app in H as [H | H]
         | H : _ ∈ [] |- _ => inversion H
         | H : _ ∈ _ :: _ |- _ => apply elem_of_cons in H as [H | H]; try discriminate H
         | H : _ ∈ (if ?c then _ else _) |- _ => destruct c eqn:?
         end.

Lemma doc_log_iff id trainer_num b docs w e1 e2 e3 :
  EvInfo InfoDocLikelihood ∈ evaluate_events id trainer_num b docs w e1 e2 e3
  <-> lda_slice b = 0 /\ e1 = true.
Proof.
  unfold evaluate_events, gated_wait_events. split.
  - intros Hin. decide_member; try discriminate.
    split; [apply Z.eqb_eq; assumption | reflexivity].
  - intros [Hs ->]. apply Z.eqb_eq in Hs. rewrite Hs.
    apply elem_of_app. right. apply elem_of_app. left. right. left.
Qed.

Lemma word_log_iff id trainer_num b docs w e1 e2 e3 :
  EvInfo InfoWordLikelihood ∈ evaluate_events id trainer_num b docs w e1 e2 e3
  <-> lda_block b = 0 /\ e2 = true.
Proof.
  unfold evaluate_events, gated_wait_events. split.
  - intros Hin. decide_member; try discriminate.
    split; [apply Z.eqb_eq; assumption | reflexivity].
  - intros [Hs ->]. apply Z.eqb_eq in Hs. rewrite Hs.
    do 3 (apply elem_of_app; right). apply elem_of_app. left. right. left.
Qed.

End EvaluateLogs.

(** C5. One call of [Evaluate] by thread [id]: the partial document
    likelihood is added to [doc_llh_] between taking and releasing the
    mutex, and is zero unless [slice == 0]; only when [slice == 0] the
    thread waits at the barrier, and logs and resets [doc_llh_] exactly when
    that wait returns true; the same for the word likelihood with
    [block == 0]; the call ends at a barrier.  When the barrier returns
    true to exactly one of the threads, exactly one of them logs. *)
Theorem evaluate_accumulates_and_logs `{Collaborators}
    (trainer_num : Z) (b : LDADataBlock) :
  (forall id s,
      let e_doc := ts_barrier s (ts_waits s) in
      let e_word := ts_barrier s ((if (lda_slice b =? 0)%Z then 1 else 0)
                                  + ts_waits s)%nat in
      let e_end := ts_barrier s (gated_waits b + ts_waits s)%nat in
      let thread_doc := thread_doc_llh id trainer_num b (ts_docs s) (ts_world s) in
      let thread_word := thread_word_llh id trainer_num b (ts_world s) in
      (exists s', Evaluate id trainer_num b s = Done tt s' /\
         ts_trace s' =
           ts_trace s
           ++ [EvLock; EvAddDocLLH thread_doc; EvUnlock]
           ++ (if lda_slice b =? 0
               then EvWait e_doc
                    :: (if e_doc then [EvInfo InfoDocLikelihood; EvResetDocLLH] else [])
               else [])
           ++ [EvLock; EvAddWordLLH thread_word; EvUnlock]
           ++ (if lda_block b =? 0
               then EvWait e_word
                    :: (if e_word then [EvInfo InfoWordLikelihood; EvResetWordLLH] else [])
               else [])
           ++ (if (id =? 0) && (lda_block b =? 0)
               then [EvInfo InfoNormalizedLikelihood] else [])
           ++ [EvWait e_end]) /\
      (lda_slice b <> 0 -> thread_doc = 0%float) /\
      (lda_block b <> 0 -> thread_word = 0%float)) /\
  (forall st v,
      doc_llh_ (apply_event (EvAddDocLLH v) st) = (doc_llh_ st + v)%float /\
      word_llh_ (apply_event (EvAddWordLLH v) st) = (word_llh_ st + v)%float /\
      doc_llh_ (apply_event EvResetDocLLH st) = 0%float /\
      word_llh_ (apply_event EvResetWordLLH st) = 0%float) /\
  (forall (docs : list Document) (w : Z -> world) (barrier : Z -> nat -> bool) (n : nat),
      let logs m id :=
        EvInfo m ∈ ts_trace (final_state (Evaluate id trainer_num b
                     {| ts_docs := docs; ts_world := w id; ts_barrier := barrier id;
                        ts_waits := n; ts_trace := [] |})) in
      let n_word := ((if (lda_slice b =? 0)%Z then 1 else 0) + n)%nat in
      (lda_slice b = 0 ->
       (exists! id, 0 <= id < trainer_num /\ barrier id n = true) ->
       exists! id, 0 <= id < trainer_num /\ logs InfoDocLikelihood id) /\
      (lda_block b = 0 ->
       (exists! id, 0 <= id < trainer_num /\ barrier id n_word = true) ->
       exists! id, 0 <= id < trainer_num /\ logs InfoWordLikelihood id) /\
      (lda_slice b <> 0 -> forall id, ~ logs InfoDocLikelihood id) /\
      (lda_block b <> 0 -> forall id, ~ logs InfoWordLikelihood id)).
Proof.
  split; [|split].
  - intros id s e_doc e_word e_end thread_doc thread_word.
    split; [|split].
    + eexists. split; [apply Evaluate_run|]. reflexivity.
    + apply thread_doc_llh_gated.
    + apply thread_word_llh_gated.
  - intros st v. repeat split.
  - intros docs w barrier n logs n_word.
    assert (Hdoc : forall id, logs InfoDocLikelihood id
                              <-> lda_slice b = 0 /\ barrier id n = true).
    { intros id. unfold logs. rewrite Evaluate_run. simpl. apply doc_log_iff. }
    assert (Hword : forall id, logs InfoWordLikelihood id
                               <-> lda_block b = 0 /\ barrier id n_word = true).
    { intros id. unfold logs. rewrite Evaluate_run. simpl. apply word_log_iff. }
    split; [|split; [|split]].
    + intros Hs (id & [Hid Hb] & Huniq). exists id. split.
      * split; [exact Hid|]. apply Hdoc. auto.
      * intros id' [Hid' Hl]. apply Huniq. split; [exact Hid'|]. apply Hdoc, Hl.
    + intros Hs (id & [Hid Hb] & Huniq). exists id. split.
      * split; [exact Hid|]. apply Hword. auto.
      * intros id' [Hid' Hl]. apply Huniq. split; [exact Hid'|]. apply Hword, Hl.
    + intros Hs id Hl. apply Hdoc in Hl as [Hs' _]. contradiction.
    + intros Hs id Hl. apply Hword in Hl as [Hs' _]. contradiction.
Qed.

Lemma evaluate_accumulates_and_logs_witness :
  exists! id, 0 <= id < 2 /\
    EvInfo InfoDocLikelihood
    ∈ ts_trace (final_state (@Evaluate example_collaborators id 2 (example_block 0 0 0)
                  (@Build_thread_state example_collaborators example_docs tt
                     (example_barrier id) 2 []))).
Proof.
  apply (proj1 (proj2 (proj2 (@evaluate_accumulates_and_logs example_collaborators 2
                                (example_block 0 0 0)))
                 example_docs (fun _ => tt) example_barrier 2%nat)).
  - reflexivity.
  - exists 0. split; [split; [lia | reflexivity]|].
    intros id' [_ Hb]. symmetry. apply Z.eqb_eq. exact Hb.
Defined.

(** ** The warm-start check *)

Lemma consistent_spec cfg (doc : Document) :
  consistent cfg doc = true <->
  if word_init cfg
  then forall tok, tok ∈ doc -> tok.2 = tok.1
  else forall first rest, doc = first :: rest -> forall tok, tok ∈ rest -> tok.2 = first.2.
Proof.
  unfold consistent. destruct (word_init cfg).
  - rewrite forallb_forall. split.
    + intros Hall tok Hin. apply Z.eqb_eq, Hall, list_elem_of_In, Hin.
    + intros Hall tok Hin. apply Z.eqb_eq, Hall, list_elem_of_In, Hin.
  - destruct doc as [|first rest].
    + split; [intros _ ? ? Heq; discriminate | reflexivity].
    + rewrite forallb_forall. split.
      * intros Hall f r Heq tok Hin. injection Heq as <- <-.
        apply Z.eqb_eq, Hall, list_elem_of_In, Hin.
      * intros Hall tok Hin. apply Z.eqb_eq.
        apply (Hall first rest eq_refl), list_elem_of_In, Hin.
Qed.

Lemma NoDup_doc_ids size id trainer_num :
  1 <= trainer_num -> 0 <= id -> size + trainer_num <= 2 ^ 31 ->
  NoDup (doc_ids size id trainer_num).
Proof.
  intros HT Hid Hsz. unfold doc_ids.
  rewrite idx_loop_ptr_loop by (unfold Int32.min_signed; lia).
  apply NoDup_ptr_loop. exact HT.
Qed.

(** C7. At iteration 0 on slice 0 a thread samples the documents of its
    partition in order up to the first one that violates the expected
    invariant, where it logs a fatal error and the run stops: that document
    is not sampled.  A document that satisfies the invariant, with no
    violating document before it, is sampled; when no document of the
    partition violates it, the call is not stopped.  The invariant is: with
    [word_init], every token's topic is its word id; without, every token's
    topic is the topic of the document's first token. *)
Theorem warm_start_check_halts `{Collaborators}
    (cfg : Config) (id trainer_num : Z) (b : LDADataBlock)
    (docs : list Document) (w : world) (barrier : nat -> bool) :
  1 <= trainer_num -> 0 <= id ->
  Z.of_nat (length docs) + trainer_num <= 2 ^ 31 ->
  lda_iteration b = 0 -> lda_slice b = 0 ->
  let o := TrainIteration cfg id trainer_num b (enter docs w barrier) in
  let tr := ts_trace (final_state o) in
  let ids := doc_ids (Z.of_nat (length docs)) id trainer_num in
  (forall doc : Document,
      consistent cfg doc = true <->
      if word_init cfg
      then forall tok, tok ∈ doc -> tok.2 = tok.1
      else forall first rest, doc = first :: rest ->
             forall tok, tok ∈ rest -> tok.2 = first.2) /\
  (forall l1 d l2,
      ids = l1 ++ d :: l2 ->
      (forall x, x ∈ l1 -> consistent cfg (GetOneDoc docs x) = true) ->
      (consistent cfg (GetOneDoc docs d) = false ->
         halted o = true /\
         (exists m, tr = opening_events cfg id trainer_num b barrier
                         ++ (EvSampleOneDoc <$> l1) ++ [EvFatal m]) /\
         (forall x, EvSampleOneDoc x ∈ tr <-> x ∈ l1) /\
         EvSampleOneDoc d ∉ tr) /\
      (consistent cfg (GetOneDoc docs d) = true -> EvSampleOneDoc d ∈ tr)) /\
  ((forall x, x ∈ ids -> consistent cfg (GetOneDoc docs x) = true) ->
   halted o = false /\ (forall m, EvFatal m ∉ tr) /\
   (forall x, x ∈ ids -> EvSampleOneDoc x ∈ tr)).
Proof.
  intros HT Hid Hsz Hiter Hslice o tr ids.
  assert (Hnd : NoDup ids) by (apply NoDup_doc_ids; assumption).
  assert (Hcp : forall doc, check_passes cfg (lda_iteration b) (lda_slice b) doc
                            = consistent cfg doc).
  { intros doc. unfold check_passes. rewrite Hiter, Hslice. reflexivity. }
  destruct (TrainIteration_run cfg id trainer_num b docs w barrier)
    as (r1 & tail & Htr & Hok & Hcase).
  fold o in Htr, Hcase. fold tr in Htr. fold ids in Hok, Hcase.
  specialize (Hok Hnd).
  assert (Hsampled : forall x, x ∈ r1 -> EvSampleOneDoc x ∈ tr).
  { intros x Hx. rewrite Htr. apply elem_of_app. right. apply elem_of_app. left.
    apply list_elem_of_fmap_2. exact Hx. }
  split; [intros doc; apply consistent_spec|]. split.
  - intros l1 d l2 Hids Hl1. split.
    + intros Hbad.
      destruct Hcase as [(_ & -> & _) | (Hh & d' & l2' & m & Hids' & -> & Hbad')].
      { exfalso. rewrite <- Hcp, Hok in Hbad; [discriminate|].
        rewrite Hids. apply elem_of_app. right. left. }
      specialize (Hbad' Hnd). rewrite Hcp in Hbad'.
      destruct (first_failure_unique
                  (fun x => consistent cfg (GetOneDoc docs x) = true)
                  l1 l2 r1 l2' d d') as (-> & -> & ->).
      { rewrite <- Hids. exact Hids'. }
      { exact Hl1. }
      { rewrite Hbad. discriminate. }
      { intros x Hx. rewrite <- Hcp. apply Hok. exact Hx. }
      { rewrite Hbad'. discriminate. }
      assert (Hiff : forall x, EvSampleOneDoc x ∈ tr <-> x ∈ r1).
      { intros x. split; [|apply Hsampled]. rewrite Htr. intros Hin.
        apply elem_of_app in Hin as [Hin | Hin].
        - exfalso. revert Hin.
          eapply not_kind_not_in; [apply opening_events_kind | reflexivity].
        - apply elem_of_app in Hin as [Hin | Hin].
          + apply list_elem_of_fmap in Hin as (y & Hy & Hin).
            injection Hy as ->. exact Hin.
          + apply list_elem_of_singleton in Hin. discriminate. }
      split; [exact Hh|]. split; [exists m; exact Htr|]. split; [exact Hiff|].
      intros Hin. apply Hiff in Hin.
      rewrite Hids' in Hnd. apply NoDup_app in Hnd as (_ & Hdisj & _).
      apply (Hdisj _ Hin). left.
    + intros Hgood.
      destruct Hcase as [(_ & -> & _) | (Hh & d' & l2' & m & Hids' & -> & Hbad')].
      { apply Hsampled. rewrite Hids. apply elem_of_app. right. left. }
      specialize (Hbad' Hnd). rewrite Hcp in Hbad'.
      apply Hsampled.
      destruct (split_before (fun x => consistent cfg (GetOneDoc docs x) = true)
                  (l1 ++ [d]) l2 r1 l2' d') as (l & -> & _).
      { rewrite <- app_assoc. simpl. rewrite <- Hids. exact Hids'. }
      { intros x Hx. apply elem_of_app in Hx as [Hx | Hx]; [auto|].
        apply list_elem_of_singleton in Hx as ->. exact Hgood. }
      { rewrite Hbad'. discriminate. }
      apply elem_of_app. left. apply elem_of_app. right. left.
  - intros Hall.
    destruct Hcase as [(Hh & -> & n & docs' & w' & ->) | (_ & d' & l2' & m & Hids' & _ & Hbad')].
    + split; [exact Hh|]. split; [|exact Hsampled].
      intros m. rewrite Htr. intros Hin.
      apply elem_of_app in Hin as [Hin | Hin].
      { revert Hin. eapply not_kind_not_in; [apply opening_events_kind | reflexivity]. }
      apply elem_of_app in Hin as [Hin | Hin].
      { apply list_elem_of_fmap in Hin as (y & Hy & _). discriminate. }
      destruct (ending_events_split cfg id trainer_num b n docs' w' barrier)
        as (X & HX & Hk & _).
      rewrite HX in Hin. apply elem_of_app in Hin as [Hin | Hin].
      { revert Hin. eapply not_kind_not_in; [exact Hk | reflexivity]. }
      destruct (_ =? _) in Hin; [|inversion Hin].
      apply list_elem_of_singleton in Hin. discriminate.
    + exfalso. specialize (Hbad' Hnd). rewrite Hcp, Hall in Hbad'; [discriminate|].
      rewrite Hids'. apply elem_of_app. right. left.
Qed.

Lemma warm_start_check_halts_witness :
  let o := @TrainIteration example_collaborators example_config 0 1 (example_block 0 0 0)
             (@enter example_collaborators example_bad_docs tt (example_barrier 0)) in
  halted o = true /\ EvSampleOneDoc 1 ∉ ts_trace (final_state o).
Proof.
  intros o.
  pose proof (@warm_start_check_halts example_collaborators example_config 0 1
                (example_block 0 0 0) example_bad_docs tt (example_barrier 0)
                ltac:(lia) ltac:(lia) ltac:(simpl; lia) eq_refl eq_refl)
    as (_ & Hfirst & _).
  destruct (Hfirst [0] 1 [2] eq_refl) as [Hbad _].
  - intros x Hx. apply list_elem_of_singleton in Hx as ->. reflexivity.
  - destruct (Hbad eq_refl) as (Hh & _ & _ & Hnot). split; [exact Hh | exact Hnot].
Defined.

(** ** Table configuration *)

Section ConfigTableLemmas.
Variables (cfg : Config) (meta : Meta) (kLoadFactor : Z).

Lemma config_word_other s word word' :
  word' <> word ->
  server_rows (config_word cfg meta kLoadFactor s word') !! (kWordTopicTable, word)
  = server_rows s !! (kWordTopicTable, word) /\
  cache_rows (config_word cfg meta kLoadFactor s word') !! (kWordTopicTable, word)
  = cache_rows s !! (kWordTopicTable, word).
Proof.
  intros Hne. unfold config_word.
  repeat match goal with
         | |- context [if ?c then _ else _] => destruct c
         end;
    simpl; rewrite ?lookup_insert_ne by congruence; auto.
Qed.

Lemma config_word_same s word :
  0 < tf meta word ->
  server_rows (config_word cfg meta kLoadFactor s word) !! (kWordTopicTable, word)
  = Some (word_row_setting cfg meta kLoadFactor word) /\
  cache_rows (config_word cfg meta kLoadFactor s word) !! (kWordTopicTable, word)
  = Some (word_row_setting cfg meta kLoadFactor word).
Proof.
  intros Htf. unfold config_word, word_row_setting.
  destruct (Z.ltb_spec 0 (tf meta word)); [|lia].
  repeat match goal with
         | |- context [if ?c then _ else _] => destruct c
         end;
    simpl; rewrite ?lookup_insert_eq; auto.
Qed.

Lemma config_words_other words : forall s word,
  word ∉ words ->
  server_rows (foldl (config_word cfg meta kLoadFactor) s words) !! (kWordTopicTable, word)
  = server_rows s !! (kWordTopicTable, word) /\
  cache_rows (foldl (config_word cfg meta kLoadFactor) s words) !! (kWordTopicTable, word)
  = cache_rows s !! (kWordTopicTable, word).
Proof.
  induction words as [|x words IH]; intros s word Hnot; simpl; [auto|].
  apply not_elem_of_cons in Hnot as [Hne Hnot].
  destruct (IH (config_word cfg meta kLoadFactor s x) word Hnot) as [-> ->].
  apply config_word_other. congruence.
Qed.

Lemma config_words_same words : forall s word,
  NoDup words -> word ∈ words -> 0 < tf meta word ->
  server_rows (foldl (config_word cfg meta kLoadFactor) s words) !! (kWordTopicTable, word)
  = Some (word_row_setting cfg meta kLoadFactor word) /\
  cache_rows (foldl (config_word cfg meta kLoadFactor) s words) !! (kWordTopicTable, word)
  = Some (word_row_setting cfg meta kLoadFactor word).
Proof.
  induction words as [|x words IH]; intros s word Hnd Hin Htf; simpl.
  - inversion Hin.
  - apply NoDup_cons in Hnd as [Hx Hnd].
    apply elem_of_cons in Hin as [-> | Hin].
    + destruct (config_words_other words (config_word cfg meta kLoadFactor s x) x Hx)
        as [-> ->].
      apply config_word_same. exact Htf.
    + apply IH; assumption.
Qed.

End ConfigTableLemmas.

(** C3. For every word of the vocabulary with [tf(word) > 0], after
    [ConfigTable] the word's server row and cache row have the same format
    and capacity: dense with capacity [num_topics] if and only if
    [tf(word) * kLoadFactor > num_topics] (the product as the code computes
    it), and sparse with capacity [tf(word) * kLoadFactor] otherwise; at
    equality the row is sparse with capacity [num_topics]. *)
Theorem config_table_word_rows (cfg : Config) (meta : Meta) (kLoadFactor : Z)
    (s : row_settings) (word : Z) :
  0 <= word < num_vocabs cfg -> 0 < tf meta word ->
  let s' := ConfigTable cfg meta kLoadFactor s in
  let product := Int32.mul (tf meta word) kLoadFactor in
  exists format capacity,
    server_rows s' !! (kWordTopicTable, word) = Some (format, capacity) /\
    cache_rows s' !! (kWordTopicTable, word) = Some (format, capacity) /\
    (format = Dense <-> product > num_topics cfg) /\
    (format = Dense -> capacity = num_topics cfg) /\
    (format = Sparse <-> product <= num_topics cfg) /\
    (format = Sparse -> capacity = product) /\
    (product = num_topics cfg -> format = Sparse /\ capacity = num_topics cfg).
Proof.
  intros Hword Htf s' product.
  destruct (config_words_same cfg meta kLoadFactor (seqZ 0 (num_vocabs cfg)) s word)
    as [Hs Hc].
  { apply NoDup_seqZ. }
  { apply elem_of_seqZ. lia. }
  { exact Htf. }
  fold (ConfigTable cfg meta kLoadFactor s) in Hs, Hc. fold s' in Hs, Hc.
  unfold word_row_setting in Hs, Hc. fold product in Hs, Hc.
  destruct (Z.ltb_spec (num_topics cfg) product) as [Hlt | Hge].
  - exists Dense, (num_topics cfg). split; [exact Hs|]. split; [exact Hc|].
    repeat split; try lia; try discriminate; intros; lia.
  - exists Sparse, product. split; [exact Hs|]. split; [exact Hc|].
    repeat split; try lia; try discriminate; intros; lia.
Qed.

(** The boundary case of the design document: [tf = 5], [kLoadFactor = 2],
    [num_topics = 10]. *)
Lemma config_table_word_rows_witness :
  let cfg := {| num_topics := 10; num_vocabs := 3; num_iterations := 1;
                asymmetric_alpha := 0%float; word_init := false; warm_start := false |} in
  let meta := {| tf := fun word => nth (Z.to_nat word) [1; 5; 50] 0;
                 local_tf := fun _ => 0 |} in
  let s' := ConfigTable cfg meta 2
              {| server_rows := ∅; cache_rows := ∅; aggregator_rows := ∅ |} in
  server_rows s' !! (kWordTopicTable, 1) = Some (Sparse, 10) /\
  cache_rows s' !! (kWordTopicTable, 1) = Some (Sparse, 10).
Proof.
  intros cfg meta s'.
  destruct (config_table_word_rows cfg meta 2
              {| server_rows := ∅; cache_rows := ∅; aggregator_rows := ∅ |} 1
              ltac:(simpl; lia) ltac:(simpl; lia))
    as (format & capacity & Hs & Hc & _ & _ & _ & _ & Heq).
  destruct (Heq eq_refl) as [-> ->]. split; [exact Hs | exact Hc].
Defined.

(** Within the 32-bit range the product is the mathematical one. *)
Lemma config_table_product_exact (meta : Meta) (kLoadFactor word : Z) :
  Int32.in_range (tf meta word * kLoadFactor) ->
  Int32.mul (tf meta word) kLoadFactor = tf meta word * kLoadFactor.
Proof. apply wrap_small. Qed.

(** ** Initialisation *)

Lemma token_middle (pre suf : Document) tok :
  Doc.token (pre ++ tok :: suf) (Z.of_nat (length pre)) = tok.
Proof.
  unfold Doc.token. destruct (Z.ltb_spec (Z.of_nat (length pre)) 0); [lia|].
  rewrite Nat2Z.id, list_lookup_middle by reflexivity. reflexivity.
Qed.

Lemma Word_middle (pre suf : Document) tok :
  Doc.Word (pre ++ tok :: suf) (Z.of_nat (length pre)) = tok.1.
Proof. unfold Doc.Word. rewrite token_middle. reflexivity. Qed.

Lemma Topic_middle (pre suf : Document) tok :
  Doc.Topic (pre ++ tok :: suf) (Z.of_nat (length pre)) = tok.2.
Proof. unfold Doc.Topic. rewrite token_middle. reflexivity. Qed.

Lemma SetTopic_middle (pre suf : Document) tok t :
  Doc.SetTopic (pre ++ tok :: suf) (Z.of_nat (length pre)) t = pre ++ (tok.1, t) :: suf.
Proof.
  unfold Doc.SetTopic, Doc.Word. rewrite token_middle.
  destruct (Z.ltb_spec (Z.of_nat (length pre)) 0); [lia|].
  rewrite Nat2Z.id, insert_app_r_alt, Nat.sub_diag by lia. reflexivity.
Qed.

Lemma seqZ_tokens_cons (pre : Document) tok (suf : Document) :
  seqZ (Z.of_nat (length pre)) (Z.of_nat (length (tok :: suf)))
  = Z.of_nat (length pre)
    :: seqZ (Z.of_nat (length (pre ++ [tok]))) (Z.of_nat (length suf)).
Proof.
  rewrite seqZ_cons by (simpl; lia). f_equal.
  rewrite length_app. simpl. f_equal; lia.
Qed.

Section InitializeLemmas.
Variable cfg : Config.

Lemma max_loop_tokens (suf : Document) : forall (pre : Document) m,
  foldl (fun max_word_id word_idx =>
           if max_word_id <? Doc.Word (pre ++ suf) word_idx
           then Doc.Word (pre ++ suf) word_idx else max_word_id)
        m (seqZ (Z.of_nat (length pre)) (Z.of_nat (length suf)))
  = foldl max_step m suf.
Proof.
  induction suf as [|tok suf IH]; intros pre m; [reflexivity|].
  rewrite seqZ_tokens_cons. simpl foldl.
  rewrite Word_middle.
  specialize (IH (pre ++ [tok])). rewrite <- app_assoc in IH. simpl app in IH.
  rewrite IH. reflexivity.
Qed.

Lemma max_word_id_of_tokens (doc : Document) :
  max_word_id_of doc = foldl max_step 0 doc.
Proof. exact (max_loop_tokens doc [] 0). Qed.

Lemma foldl_max_step (doc : Document) : forall m,
  let r := foldl max_step m doc in
  m <= r /\ (forall tok, tok ∈ doc -> tok.1 <= r) /\
  (r = m \/ exists tok, tok ∈ doc /\ tok.1 = r).
Proof.
  induction doc as [|tok doc IH]; intros m; simpl.
  - split; [lia|]. split; [intros tok Hin; inversion Hin | left; reflexivity].
  - destruct (IH (max_step m tok)) as (Hle & Hub & Hmem).
    assert (Hstep : m <= max_step m tok /\ tok.1 <= max_step m tok /\
                    (max_step m tok = m \/ max_step m tok = tok.1)).
    { unfold max_step. destruct (Z.ltb_spec m tok.1); lia. }
    split; [lia|]. split.
    + intros tok' Hin. apply elem_of_cons in Hin as [-> | Hin]; [lia | auto].
    + destruct Hmem as [Hr | (tok' & Hin & Hr)].
      * destruct Hstep as (_ & _ & [Hm | Hm]).
        -- left. lia.
        -- right. exists tok. split; [left | lia].
      * right. exists tok'. split; [right; exact Hin | exact Hr].
Qed.

(** The value the first loop leaves in [max_word_id] is the largest word id
    of a non-empty document of non-negative word ids. *)
Lemma max_word_id_of_max (doc : Document) m :
  (forall tok, tok ∈ doc -> 0 <= tok.1) ->
  (exists tok, tok ∈ doc /\ tok.1 = m) -> (forall tok, tok ∈ doc -> tok.1 <= m) ->
  max_word_id_of doc = m.
Proof.
  intros Hnn (tok & Hin & Htok) Hub. rewrite max_word_id_of_tokens.
  destruct (foldl_max_step doc 0) as (Hle & Hub' & Hmem). simpl in *.
  pose proof (Hub' tok Hin). pose proof (Hnn tok Hin).
  destruct Hmem as [Hr | (tok' & Hin' & Hr)].
  - lia.
  - pose proof (Hub tok' Hin'). lia.
Qed.

Hypothesis cold : warm_start cfg = false.

Lemma init_tokens_cold t (suf : Document) : forall (pre : Document) calls,
  foldl (init_token cfg t) (pre ++ suf, calls)
        (seqZ (Z.of_nat (length pre)) (Z.of_nat (length suf)))
  = (pre ++ ((fun tok => (tok.1, t)) <$> suf),
     calls ++ List.flat_map (token_calls t) suf).
Proof.
  induction suf as [|tok suf IH]; intros pre calls.
  - simpl. rewrite !app_nil_r. reflexivity.
  - rewrite seqZ_tokens_cons. simpl foldl.
    unfold init_token at 2. rewrite cold. simpl negb. cbv iota. simpl fst. simpl snd.
    rewrite SetTopic_middle.
    rewrite Word_middle, Topic_middle. simpl fst. simpl snd.
    specialize (IH (pre ++ [(tok.1, t)])).
    rewrite length_app in IH |- *. simpl length in IH |- *.
    rewrite <- app_assoc in IH. simpl app in IH. rewrite IH.
    rewrite <- !app_assoc. reflexivity.
Qed.

Lemma init_doc_cold (doc : Document) :
  let t := Int32.rem (max_word_id_of doc) (num_topics cfg) in
  init_doc cfg doc = ((fun tok => (tok.1, t)) <$> doc, List.flat_map (token_calls t) doc).
Proof. exact (init_tokens_cold _ doc [] []). Qed.

End InitializeLemmas.

Lemma max_word_spec (doc : Document) :
  (forall tok, tok ∈ doc -> 0 <= tok.1) ->
  0 <= max_word doc /\
  (forall tok, tok ∈ doc -> tok.1 <= max_word doc) /\
  (doc <> [] -> exists tok, tok ∈ doc /\ tok.1 = max_word doc).
Proof.
  induction doc as [|tok doc IH]; intros Hnn; simpl.
  - split; [lia|]. split; [intros tok Hin; inversion Hin | congruence].
  - destruct IH as (H0 & Hub & Hmem).
    { intros tok' Hin. apply Hnn. right. exact Hin. }
    pose proof (Hnn tok ltac:(left)) as Htok.
    split; [lia|]. split.
    + intros tok' Hin. apply elem_of_cons in Hin as [-> | Hin]; [lia|].
      pose proof (Hub tok' Hin). lia.
    + intros _. destruct (Z.max_spec tok.1 (max_word doc)) as [[Hlt ->] | [Hge ->]].
      * destruct doc as [|tok' doc'].
        -- simpl in *. exists tok. split; [left | lia].
        -- destruct Hmem as (tok'' & Hin & Heq); [congruence|].
           exists tok''. split; [right; exact Hin | exact Heq].
      * exists tok. split; [left | reflexivity].
Qed.

Lemma max_word_id_of_max_word (doc : Document) :
  (forall tok, tok ∈ doc -> 0 <= tok.1) -> max_word_id_of doc = max_word doc.
Proof.
  intros Hnn. destruct (max_word_spec doc Hnn) as (_ & Hub & Hmem).
  destruct doc as [|tok doc]; [reflexivity|].
  apply max_word_id_of_max; [exact Hnn | apply Hmem; congruence | exact Hub].
Qed.

Section InitializeBlocks.
Variable cfg : Config.
Hypothesis cold : warm_start cfg = false.
Hypothesis topics : 0 < num_topics cfg.

Let doc_topic (doc : Document) : Z := max_word doc mod num_topics cfg.

Lemma init_doc_cold_topic (doc : Document) :
  (forall tok, tok ∈ doc -> 0 <= tok.1) ->
  init_doc cfg doc = ((fun tok => (tok.1, doc_topic doc)) <$> doc,
                      List.flat_map (token_calls (doc_topic doc)) doc).
Proof.
  intros Hnn. rewrite (init_doc_cold cfg cold).
  unfold Int32.rem, doc_topic. rewrite max_word_id_of_max_word by exact Hnn.
  destruct (max_word_spec doc Hnn) as (H0 & _).
  rewrite Z.rem_mod_nonneg by lia. reflexivity.
Qed.

Lemma init_docs_cold (block : list Document) : forall ds cs,
  (forall doc tok, doc ∈ block -> tok ∈ doc -> 0 <= tok.1) ->
  foldl (fun (acc : list Document * list server_call) doc =>
           let r := init_doc cfg doc in (acc.1 ++ [r.1], acc.2 ++ r.2))
        (ds, cs) block
  = (ds ++ ((fun doc : Document => (fun tok : Z * Z => (tok.1, doc_topic doc)) <$> doc) <$> block),
     cs ++ List.flat_map
             (fun doc => List.flat_map (token_calls (doc_topic doc)) doc) block).
Proof.
  induction block as [|doc block IH]; intros ds cs Hnn.
  - simpl. rewrite !app_nil_r. reflexivity.
  - simpl foldl. rewrite init_doc_cold_topic by (intros tok; apply Hnn; left).
    simpl fst. simpl snd. rewrite IH by (intros d tok Hd; apply Hnn; right; exact Hd).
    simpl. rewrite <- !app_assoc. reflexivity.
Qed.

Lemma init_blocks_cold (blocks : list (list Document)) : forall bs cs,
  (forall block doc tok, block ∈ blocks -> doc ∈ block -> tok ∈ doc -> 0 <= tok.1) ->
  foldl (init_block cfg) (bs, cs) blocks
  = (bs ++ ((fun block : list Document =>
               (fun doc : Document => (fun tok : Z * Z => (tok.1, doc_topic doc)) <$> doc) <$> block)
              <$> blocks),
     cs ++ List.flat_map
             (fun block =>
                List.flat_map
                  (fun doc => List.flat_map (token_calls (doc_topic doc)) doc) block
                ++ [Flush]) blocks).
Proof.
  induction blocks as [|block blocks IH]; intros bs cs Hnn.
  - simpl. rewrite !app_nil_r. reflexivity.
  - simpl foldl. unfold init_block at 2. simpl fst. simpl snd.
    rewrite init_docs_cold by (intros d tok; apply Hnn; left).
    simpl fst. simpl snd.
    rewrite IH by (intros bl d tok Hb; apply Hnn; right; exact Hb).
    simpl. rewrite <- !app_assoc. reflexivity.
Qed.

End InitializeBlocks.

(** C10. With [warm_start] off (and word ids non-negative, [num_topics]
    positive), [Initialize] gives every token of a document the topic
    [m mod num_topics], [m] being the largest word id of the document; the
    result does not depend on the random number generator; and the calls
    made to the parameter store are, token by token, one [+1] on
    [kWordTopicTable] at [(word, topic)] and one [+1] on [kSummaryRow] at
    [topic] (then a flush at the end of each block). *)
Theorem initialize_cold_start {xorshift_rng : Type} (rng rng' : xorshift_rng)
    (cfg : Config) (blocks : list (list Document)) :
  warm_start cfg = false -> 0 < num_topics cfg ->
  (forall block doc tok, block ∈ blocks -> doc ∈ block -> tok ∈ doc -> 0 <= tok.1) ->
  let doc_topic (doc : Document) := max_word doc mod num_topics cfg in
  (forall block doc, block ∈ blocks -> doc ∈ block -> doc <> [] ->
     (exists tok, tok ∈ doc /\ tok.1 = max_word doc) /\
     (forall tok, tok ∈ doc -> tok.1 <= max_word doc)) /\
  Initialize rng cfg blocks = Initialize rng' cfg blocks /\
  (Initialize rng cfg blocks).1
  = (fun block : list Document => (fun doc : Document => (fun tok : Z * Z => (tok.1, doc_topic doc)) <$> doc) <$> block)
      <$> blocks /\
  (Initialize rng cfg blocks).2
  = List.flat_map
      (fun block =>
         List.flat_map
           (fun doc =>
              List.flat_map
                (fun tok => [AddToServer kWordTopicTable tok.1 (doc_topic doc) 1;
                             AddToServer kSummaryRow 0 (doc_topic doc) 1]) doc)
           block
         ++ [Flush])
      blocks.
Proof.
  intros Hcold Htopics Hnn doc_topic.
  split; [|split; [reflexivity|]].
  - intros block doc Hb Hd Hne.
    destruct (max_word_spec doc) as (_ & Hub & Hmem).
    { intros tok. apply (Hnn block doc tok Hb Hd). }
    split; [apply Hmem; exact Hne | exact Hub].
  - unfold Initialize.
    rewrite (init_blocks_cold cfg Hcold Htopics blocks [] [] Hnn).
    split; reflexivity.
Qed.

Lemma initialize_cold_start_witness :
  Initialize tt example_config [[[(3, 0); (12, 0); (7, 0)]; [(1, 5)]]]
  = ([[[(3, 2); (12, 2); (7, 2)]; [(1, 1)]]],
     [AddToServer kWordTopicTable 3 2 1; AddToServer kSummaryRow 0 2 1;
      AddToServer kWordTopicTable 12 2 1; AddToServer kSummaryRow 0 2 1;
      AddToServer kWordTopicTable 7 2 1; AddToServer kSummaryRow 0 2 1;
      AddToServer kWordTopicTable 1 1 1; AddToServer kSummaryRow 0 1 1;
      Flush]).
Proof.
  destruct (@initialize_cold_start unit tt tt example_config
              [[[(3, 0); (12, 0); (7, 0)]; [(1, 5)]]] eq_refl ltac:(simpl; lia))
    as (_ & _ & H1 & H2).
  - intros block doc tok Hb Hd Ht.
    apply list_elem_of_singleton in Hb as ->.
    repeat (apply elem_of_cons in Hd as [-> | Hd]);
      [| |inversion Hd];
      repeat (apply elem_of_cons in Ht as [-> | Ht]); simpl; try lia; inversion Ht.
  - destruct (Initialize tt example_config _) as [ds cs]. simpl in H1, H2.
    rewrite H1, H2. reflexivity.
Defined.

(** ** The alias table *)

Module AliasFacts.
Import Alias.

Lemma walker_length fuel : forall L H filled,
  (length (walker fuel L H filled) <= length filled + length L + length H)%nat.
Proof.
  induction fuel as [|n IH]; intros L H filled; simpl; [lia|].
  destruct L as [|[l sl] L'], H as [|[h sh] H']; simpl; try lia.
  - specialize (IH [] H' (filled ++ [{| bin_height := 1; primary := h; alternate := h |}])).
    rewrite length_app in IH. simpl in IH. lia.
  - specialize (IH L' [] (filled ++ [{| bin_height := 1; primary := l; alternate := l |}])).
    rewrite length_app in IH. simpl in IH. lia.
  - destruct (Qlt_le_dec 0 (sh - (1 - sl))); [destruct (Qlt_le_dec (sh - (1 - sl)) 1)|].
    + specialize (IH ((h, (sh - (1 - sl))%Q) :: L') H'
                     (filled ++ [{| bin_height := sl; primary := l; alternate := h |}])).
      rewrite length_app in IH. simpl in IH. lia.
    + specialize (IH L' ((h, (sh - (1 - sl))%Q) :: H')
                     (filled ++ [{| bin_height := sl; primary := l; alternate := h |}])).
      rewrite length_app in IH. simpl in IH. lia.
    + specialize (IH L' H'
                     (filled ++ [{| bin_height := sl; primary := l; alternate := h |}])).
      rewrite length_app in IH. simpl in IH. lia.
Qed.

Lemma filter_split_length {A} (f g : A -> bool) (l : list A) :
  (forall x, g x = negb (f x)) ->
  (length (List.filter f l) + length (List.filter g l) = length l)%nat.
Proof.
  intros Hfg. induction l as [|x l IH]; simpl; [reflexivity|].
  rewrite Hfg. destruct (f x); simpl; lia.
Qed.

(** A slot holds at most as many bins as the distribution has entries, and
    its mass is the sum of the weights. *)
Lemma build_slot_bounds entries :
  0 <= height (build_slot entries) <= Z.of_nat (length entries) /\
  height (build_slot entries) = Z.of_nat (length (bins (build_slot entries))) /\
  mass (build_slot entries) = sum_Q (snd <$> entries).
Proof.
  unfold build_slot. simpl. split; [|split; reflexivity].
  split; [lia|]. apply Nat2Z.inj_le.
  etransitivity; [apply walker_length|]. simpl.
  rewrite !length_rev.
  rewrite filter_split_length by (intros x; destruct (Qlt_le_dec x.2 1); reflexivity).
  rewrite length_fmap. lia.
Qed.

(** The topics of the bins are topics of the stacks. *)
Lemma walker_topics (T : Z -> Prop) fuel : forall L H filled,
  Forall (fun e : Z * Q => T e.1) L -> Forall (fun e : Z * Q => T e.1) H ->
  Forall (fun b => T (primary b) /\ T (alternate b)) filled ->
  Forall (fun b => T (primary b) /\ T (alternate b)) (walker fuel L H filled).
Proof.
  induction fuel as [|n IH]; intros L H filled HL HH Hf; simpl; [exact Hf|].
  destruct L as [|[l sl] L'], H as [|[h sh] H']; [exact Hf| | |].
  - apply Forall_cons in HH as [Hh HH]. apply IH; [constructor | exact HH |].
    apply Forall_app. split; [exact Hf|]. repeat constructor; exact Hh.
  - apply Forall_cons in HL as [Hl HL]. apply IH; [exact HL | constructor |].
    apply Forall_app. split; [exact Hf|]. repeat constructor; exact Hl.
  - apply Forall_cons in HL as [Hl HL]. apply Forall_cons in HH as [Hh HH].
    assert (Hb : Forall (fun b => T (primary b) /\ T (alternate b))
                   (filled ++ [{| bin_height := sl; primary := l; alternate := h |}])).
    { apply Forall_app. split; [exact Hf|]. repeat constructor; assumption. }
    destruct (Qlt_le_dec 0 (sh - (1 - sl))); [destruct (Qlt_le_dec (sh - (1 - sl)) 1)|].
    + apply IH; [constructor; assumption | exact HH | exact Hb].
    + apply IH; [exact HL | constructor; assumption | exact Hb].
    + apply IH; [exact HL | exact HH | exact Hb].
Qed.

(** Every round fills a bin. *)
Lemma walker_grows fuel : forall L H filled,
  (length filled <= length (walker fuel L H filled))%nat /\
  ((0 < fuel)%nat -> (0 < length L + length H)%nat ->
   (length filled < length (walker fuel L H filled))%nat).
Proof.
  induction fuel as [|n IH]; intros L H filled; simpl; [split; lia|].
  assert (Hstep : forall L1 H1 b,
            (length filled < length (walker n L1 H1 (filled ++ [b])))%nat).
  { intros L1 H1 b0. destruct (IH L1 H1 (filled ++ [b0])) as [Hle _].
    rewrite length_app in Hle. simpl in Hle. lia. }
  destruct L as [|[l sl] L'], H as [|[h sh] H'].
  - simpl. split; lia.
  - pose proof (Hstep [] H' {| bin_height := 1; primary := h; alternate := h |}).
    split; intros; lia.
  - pose proof (Hstep L' [] {| bin_height := 1; primary := l; alternate := l |}).
    split; intros; lia.
  - destruct (Qlt_le_dec 0 (sh - (1 - sl))); [destruct (Qlt_le_dec (sh - (1 - sl)) 1)|].
    + pose proof (Hstep ((h, (sh - (1 - sl))%Q) :: L') H'
                    {| bin_height := sl; primary := l; alternate := h |}).
      split; intros; lia.
    + pose proof (Hstep L' ((h, (sh - (1 - sl))%Q) :: H')
                    {| bin_height := sl; primary := l; alternate := h |}).
      split; intros; lia.
    + pose proof (Hstep L' H' {| bin_height := sl; primary := l; alternate := h |}).
      split; intros; lia.
Qed.

Lemma Forall_list_filter {A} (P : A -> Prop) (f : A -> bool) (l : list A) :
  Forall P l -> Forall P (List.filter f l).
Proof.
  induction 1 as [|x l Hx _ IH]; simpl; [constructor|].
  destruct (f x); [constructor; assumption | exact IH].
Qed.

(** The bins of a slot hold topics of the distribution it was built from,
    and there is at least one bin when the distribution has an entry. *)
Lemma build_slot_topics (T : Z -> Prop) entries :
  Forall (fun e : Z * Q => T e.1) entries ->
  Forall (fun b => T (primary b) /\ T (alternate b)) (bins (build_slot entries)).
Proof.
  intros He. unfold build_slot. simpl.
  assert (Hs : Forall (fun e : Z * Q => T e.1)
                 ((fun e : Z * Q =>
                     (e.1, (inject_Z (Z.of_nat (length entries)) * e.2
                            / sum_Q (snd <$> entries))%Q)) <$> entries)).
  { apply Forall_fmap. eapply Forall_impl; [exact He|]. intros e Hx. exact Hx. }
  apply walker_topics; [| |constructor].
  - apply Forall_forall. intros e Hin. apply list_elem_of_In, in_rev in Hin.
    revert e Hin. apply List.Forall_forall, Forall_list_filter. exact Hs.
  - apply Forall_forall. intros e Hin. apply list_elem_of_In, in_rev in Hin.
    revert e Hin. apply List.Forall_forall, Forall_list_filter. exact Hs.
Qed.

Lemma build_slot_nonempty entries :
  entries <> [] -> 0 < height (build_slot entries).
Proof.
  intros Hne. unfold build_slot. simpl.
  set (shares := (fun e : Z * Q => _) <$> entries).
  set (L := List.filter _ shares). set (H := List.filter _ shares).
  assert (Hlen : (length L + length H = length entries)%nat).
  { unfold L, H. rewrite filter_split_length
      by (intros x; destruct (Qlt_le_dec x.2 1); reflexivity).
    unfold shares. apply length_fmap. }
  assert (Hpos : (0 < length entries)%nat) by (destruct entries; [congruence | simpl; lia]).
  destruct (walker_grows (length L + length H) (rev L) (rev H) []) as [_ Hgrow].
  rewrite !length_rev in Hgrow. simpl in Hgrow. lia.
Qed.

(** A draw from a slot with a bin for every index returns a topic of one of
    its bins. *)
Lemma alias_draw_topic (R : RandomSource) (T : Z -> Prop) (s : slot) (r : rng R) :
  uniform_source R ->
  0 < height s -> height s = Z.of_nat (length (bins s)) ->
  Forall (fun b => T (primary b) /\ T (alternate b)) (bins s) ->
  T (alias_draw R s r).1.
Proof.
  intros [_ Hk] Hpos Hlen Hall. specialize (Hk r (height s) Hpos).
  unfold alias_draw. destruct (rand_k R r (height s)) as [i r1]. simpl in Hk.
  destruct (rand_double R r1) as [threshold r2].
  assert (Hlt : (Z.to_nat i < length (bins s))%nat) by lia.
  apply lookup_lt_is_Some in Hlt as [b Hb]. rewrite Hb. simpl.
  rewrite Forall_forall in Hall.
  destruct (Hall b ltac:(eapply list_elem_of_lookup_2; exact Hb)) as [Hp Ha].
  destruct (Qlt_le_dec threshold (bin_height b)); assumption.
Qed.

Lemma sum_Q_nil_entries (entries : list (Z * Q)) :
  entries = [] -> sum_Q (snd <$> entries) = 0%Q.
Proof. intros ->. reflexivity. Qed.

End AliasFacts.

(** C8. [Build(word, model)] with [word >= 0] succeeds when the row of the
    word has at most as many non-zero topics as the index reserves (equality
    included): the slot of the word is then the one built from the row, with
    at most that many bins and the sum of the weights as its mass.  When the
    row has more, [Build] returns the capacity error and leaves the table as
    it was.  (In both cases a value is returned.) *)
Theorem build_capacity_boundary (W : Alias.Weights) (t : Alias.AliasTable)
    (word : Z) (model : Alias.ModelBase) :
  0 <= word ->
  let row := Alias.nonzero_entries (Alias.word_topic_row model word) in
  let reserved := Alias.capacity (Alias.table_index_ t word) in
  let entries := (fun e : Z * Z => (e.1, Alias.sparse_weight W model e.1 e.2)) <$> row in
  (Z.of_nat (length row) <= reserved ->
   exists t',
     Alias.Build W t word model = (t', Alias.BuildSuccess) /\
     Alias.word_slot t' word = Alias.build_slot entries /\
     0 <= Alias.height (Alias.word_slot t' word) <= reserved /\
     Alias.mass (Alias.word_slot t' word) = Alias.sum_Q (snd <$> entries)) /\
  (reserved < Z.of_nat (length row) ->
   Alias.Build W t word model = (t, Alias.BuildCapacityViolation)).
Proof.
  intros Hword row reserved entries. unfold Alias.Build.
  destruct (Z.eqb_spec word (-1)) as [Hm | _]; [lia|].
  destruct (Z.leb_spec 0 word) as [_ | Hneg]; [|lia].
  fold row. fold reserved. fold entries.
  split.
  - intros Hfit. destruct (Z.ltb_spec reserved (Z.of_nat (length row))); [lia|].
    eexists. split; [reflexivity|].
    assert (Hslot : Alias.word_slot
                      {| Alias.table_index_ := Alias.table_index_ t;
                         Alias.memory_block_ :=
                           <[Alias.begin_offset (Alias.table_index_ t word) :=
                               Alias.build_slot entries]> (Alias.memory_block_ t);
                         Alias.beta_slot_ := Alias.beta_slot_ t |} word
                    = Alias.build_slot entries).
    { unfold Alias.word_slot. simpl. rewrite lookup_insert_eq. reflexivity. }
    rewrite Hslot. split; [reflexivity|].
    destruct (AliasFacts.build_slot_bounds entries) as (Hh & _ & Hm).
    split; [|exact Hm].
    assert (Hlen : length entries = length row) by apply length_fmap.
    rewrite Hlen in Hh. lia.
  - intros Hover. destruct (Z.ltb_spec reserved (Z.of_nat (length row))); [|lia].
    reflexivity.
Qed.

(** Two non-zero topics, two entries reserved. *)
Lemma build_capacity_boundary_witness :
  exists t', Alias.Build example_weights example_table 0 example_model
             = (t', Alias.BuildSuccess) /\
             Alias.height (Alias.word_slot t' 0) <= 2.
Proof.
  destruct (proj1 (build_capacity_boundary example_weights example_table 0 example_model
                     ltac:(lia)) ltac:(simpl; lia))
    as (t' & Hb & _ & Hh & _).
  exists t'. split; [exact Hb | apply Hh].
Defined.

(** C9. [Propose(word, rng)] draws a value in [[0, sparse_mass +
    dense_mass)] and samples the sparse slot of the word when the value is
    below [sparse_mass], the shared dense slot otherwise; a sample of a slot
    takes a bin in [[0, height)] and returns its primary topic when the
    threshold is under the bin's stored height, its alternate topic
    otherwise.  On a table whose dense slot and whose slot for the word
    were built by [Build], the topic drawn from the sparse slot is a topic
    with a non-zero count in the word's row, and the topic drawn from the
    dense slot is an index of the summary row. *)
Theorem propose_mixture (R : Alias.RandomSource) (t : Alias.AliasTable)
    (word : Z) (r : Alias.rng R) :
  Alias.uniform_source R ->
  let sparse := Alias.word_slot t word in
  let dense := Alias.beta_slot_ t in
  (0 <= Alias.mass sparse)%Q -> (0 <= Alias.mass dense)%Q ->
  (0 < Alias.mass sparse + Alias.mass dense)%Q ->
  let u := (Alias.rand_double R r).1 in
  let r1 := (Alias.rand_double R r).2 in
  let sample := (u * (Alias.mass sparse + Alias.mass dense))%Q in
  (0 <= sample)%Q /\ (sample < Alias.mass sparse + Alias.mass dense)%Q /\
  ((sample < Alias.mass sparse)%Q ->
     Alias.Propose R t word r = Alias.alias_draw R sparse r1) /\
  ((Alias.mass sparse <= sample)%Q ->
     Alias.Propose R t word r = Alias.alias_draw R dense r1) /\
  (forall (s : Alias.slot) (r' : Alias.rng R),
     0 < Alias.height s -> Alias.height s = Z.of_nat (length (Alias.bins s)) ->
     let i := (Alias.rand_k R r' (Alias.height s)).1 in
     let threshold := (Alias.rand_double R (Alias.rand_k R r' (Alias.height s)).2).1 in
     0 <= i < Alias.height s /\
     exists b, Alias.bins s !! Z.to_nat i = Some b /\
       (Alias.alias_draw R s r').1
       = if Qlt_le_dec threshold (Alias.bin_height b)
         then Alias.primary b else Alias.alternate b) /\
  (forall (W : Alias.Weights) (t0 : Alias.AliasTable) (model : Alias.ModelBase),
     0 <= word ->
     Alias.Build W (Alias.Build W t0 (-1) model).1 word model = (t, Alias.BuildSuccess) ->
     let topic := (Alias.Propose R t word r).1 in
     ((sample < Alias.mass sparse)%Q ->
        exists count, (topic, count) ∈ Alias.word_topic_row model word /\ count <> 0) /\
     ((Alias.mass sparse <= sample)%Q ->
        0 <= topic < Z.of_nat (length (Alias.summary_row model)))).
Proof.
  intros Huniform sparse dense HS HD Htotal u r1 sample.
  pose proof Huniform as [Hdouble Hk].
  destruct (Hdouble r) as [Hu0 Hu1]. fold u in Hu0, Hu1.
  assert (Hs0 : (0 <= sample)%Q) by (unfold sample; nra).
  assert (Hs1 : (sample < Alias.mass sparse + Alias.mass dense)%Q)
    by (unfold sample; nra).
  assert (Hsparse : (sample < Alias.mass sparse)%Q ->
            Alias.Propose R t word r = Alias.alias_draw R sparse r1).
  { unfold Alias.Propose. fold sparse. fold dense.
    unfold sample, u, r1. destruct (Alias.rand_double R r) as [u' r']. simpl.
    intros Hlt. destruct (Qlt_le_dec _ _) as [_ | Hge]; [reflexivity|].
    exfalso. apply (Qlt_not_le _ _ Hlt Hge). }
  assert (Hdense : (Alias.mass sparse <= sample)%Q ->
            Alias.Propose R t word r = Alias.alias_draw R dense r1).
  { unfold Alias.Propose. fold sparse. fold dense.
    unfold sample, u, r1. destruct (Alias.rand_double R r) as [u' r']. simpl.
    intros Hge. destruct (Qlt_le_dec _ _) as [Hlt | _]; [|reflexivity].
    exfalso. apply (Qlt_not_le _ _ Hlt Hge). }
  split; [exact Hs0|]. split; [exact Hs1|].
  split; [exact Hsparse|]. split; [exact Hdense|]. split.
  - intros s r0 Hpos Hlen. specialize (Hk r0 (Alias.height s) Hpos).
    split; [exact Hk|].
    assert (Hlt : (Z.to_nat (Alias.rand_k R r0 (Alias.height s)).1
                   < length (Alias.bins s))%nat) by lia.
    apply lookup_lt_is_Some in Hlt as [b Hb]. exists b. split; [exact Hb|].
    unfold Alias.alias_draw.
    destruct (Alias.rand_k R r0 (Alias.height s)) as [i0 r2]. simpl in *.
    destruct (Alias.rand_double R r2) as [th r3]. simpl. rewrite Hb. reflexivity.
  - intros W t0 model Hword Hbuild topic.
    set (row := Alias.nonzero_entries (Alias.word_topic_row model word)).
    set (sentries := (fun e : Z * Z => (e.1, Alias.sparse_weight W model e.1 e.2)) <$> row).
    set (dentries := imap (fun k (_ : Z) =>
                             (Z.of_nat k, Alias.dense_weight W model (Z.of_nat k)))
                          (Alias.summary_row model)).
    assert (Hslots : sparse = Alias.build_slot sentries /\
                     dense = Alias.build_slot dentries).
    { unfold Alias.Build in Hbuild. simpl in Hbuild.
      destruct (Z.eqb_spec word (-1)) as [Hm | _]; [lia|].
      destruct (Z.leb_spec 0 word) as [_ | Hneg]; [|lia].
      fold row in Hbuild.
      destruct (_ <? Z.of_nat (length row)); [discriminate|].
      injection Hbuild as Ht. unfold sparse, dense, Alias.word_slot. rewrite <- Ht. simpl.
      rewrite lookup_insert_eq. split; reflexivity. }
    destruct Hslots as [Hsp Hde].
    split.
    + intros Hlt. unfold topic. rewrite (Hsparse Hlt), Hsp.
      destruct (AliasFacts.build_slot_bounds sentries) as (_ & Hlen & Hmass).
      apply (AliasFacts.alias_draw_topic R
               (fun k => exists count,
                    (k, count) ∈ Alias.word_topic_row model word /\ count <> 0));
        [exact Huniform | | exact Hlen |].
      * apply AliasFacts.build_slot_nonempty. intros Hnil.
        rewrite Hsp, Hmass, (AliasFacts.sum_Q_nil_entries _ Hnil) in Hlt.
        apply (Qlt_not_le _ _ Hlt Hs0).
      * apply (AliasFacts.build_slot_topics
                 (fun k => exists count,
                      (k, count) ∈ Alias.word_topic_row model word /\ count <> 0)).
        unfold sentries. apply Forall_fmap.
        apply Forall_forall. intros [k count] Hin. simpl.
        unfold row, Alias.nonzero_entries in Hin.
        apply list_elem_of_In, filter_In in Hin as [Hin Hnz]. simpl in Hnz.
        exists count. split; [apply list_elem_of_In; exact Hin|].
        intros ->. discriminate.
    + intros Hge. unfold topic. rewrite (Hdense Hge), Hde.
      destruct (AliasFacts.build_slot_bounds dentries) as (_ & Hlen & Hmass).
      apply (AliasFacts.alias_draw_topic R
               (fun k => 0 <= k < Z.of_nat (length (Alias.summary_row model))));
        [exact Huniform | | exact Hlen |].
      * apply AliasFacts.build_slot_nonempty. intros Hnil.
        rewrite Hde, Hmass, (AliasFacts.sum_Q_nil_entries _ Hnil) in Hs1.
        assert (Hcontra : (sample < Alias.mass sparse)%Q).
        { eapply Qlt_le_trans; [exact Hs1|]. rewrite Qplus_0_r. apply Qle_refl. }
        apply (Qlt_not_le _ _ Hcontra Hge).
      * apply (AliasFacts.build_slot_topics
                 (fun k => 0 <= k < Z.of_nat (length (Alias.summary_row model)))).
        unfold dentries. apply Forall_forall. intros e Hin.
        apply elem_of_lookup_imap in Hin as (k & y & -> & Hk'). simpl.
        apply lookup_lt_Some in Hk'. lia.
Qed.

(** The table of the example with both slots built (sparse mass 4, dense
    mass 3/10).  A generator returning 1/2 gives the value 43/20, under the
    sparse mass: the sparse slot is sampled, and its bin 0 (primary topic 5
    under height 1/2, alternate 2) returns topic 2.  A generator returning
    19/20 gives 817/200, above the sparse mass: the dense slot is sampled,
    and its bin 1 returns topic 1. *)
Lemma propose_mixture_witness :
  let t := example_built_table in
  (Alias.mass (Alias.word_slot t 0) == 4)%Q /\
  (Alias.mass (Alias.beta_slot_ t) == 3 # 10)%Q /\
  Alias.Propose example_source t 0 0%nat
  = Alias.alias_draw example_source (Alias.word_slot t 0) 1%nat /\
  (Alias.Propose example_source t 0 0%nat).1 = 2 /\
  Alias.Propose example_high_source t 0 0%nat
  = Alias.alias_draw example_high_source (Alias.beta_slot_ t) 1%nat /\
  (Alias.Propose example_high_source t 0 0%nat).1 = 1 /\
  (exists count, ((Alias.Propose example_source t 0 0%nat).1, count)
                 ∈ Alias.word_topic_row example_model 0 /\ count <> 0).
Proof.
  intros t.
  assert (Hlow : Alias.uniform_source example_source).
  { split; [intros r; split; vm_compute; congruence|].
    intros r n Hn. simpl. lia. }
  assert (Hhigh : Alias.uniform_source example_high_source).
  { split; [intros r; split; vm_compute; congruence|].
    intros r n Hn. simpl. destruct (Z.ltb_spec 1 n); lia. }
  pose proof (propose_mixture example_source t 0 0%nat Hlow
                ltac:(vm_compute; congruence) ltac:(vm_compute; congruence)
                ltac:(vm_compute; reflexivity))
    as (_ & _ & Hsparse & _ & _ & Hbuilt).
  pose proof (propose_mixture example_high_source t 0 0%nat Hhigh
                ltac:(vm_compute; congruence) ltac:(vm_compute; congruence)
                ltac:(vm_compute; reflexivity))
    as (_ & _ & _ & Hdense & _).
  split; [vm_compute; reflexivity|]. split; [vm_compute; reflexivity|].
  split; [apply Hsparse; vm_compute; reflexivity|].
  split; [vm_compute; reflexivity|].
  split; [apply Hdense; vm_compute; congruence|].
  split; [vm_compute; reflexivity|].
  apply (Hbuilt example_weights example_table example_model ltac:(lia) eq_refl).
  vm_compute. reflexivity.
Defined.

(** ** More on the table configuration *)

Section ConfigTableFrame.
Variables (cfg : Config) (meta : Meta) (kLoadFactor : Z).

Lemma config_word_frame s word (k : table_id * Z) :
  k <> (kWordTopicTable, word) ->
  server_rows (config_word cfg meta kLoadFactor s word) !! k = server_rows s !! k /\
  cache_rows (config_word cfg meta kLoadFactor s word) !! k = cache_rows s !! k /\
  aggregator_rows (config_word cfg meta kLoadFactor s word) !! k
  = aggregator_rows s !! k.
Proof.
  intros Hne. unfold config_word.
  repeat match goal with
         | |- context [if ?c then _ else _] => destruct c
         end;
    simpl; rewrite ?lookup_insert_ne by congruence; auto.
Qed.

Lemma config_word_skip s word :
  tf meta word <= 0 ->
  server_rows (config_word cfg meta kLoadFactor s word) = server_rows s /\
  cache_rows (config_word cfg meta kLoadFactor s word) = cache_rows s.
Proof.
  intros Htf. unfold config_word.
  destruct (Z.ltb_spec 0 (tf meta word)); [lia|].
  repeat match goal with
         | |- context [if ?c then _ else _] => destruct c
         end; auto.
Qed.

Lemma config_word_skip_aggregator s word :
  local_tf meta word <= 0 ->
  aggregator_rows (config_word cfg meta kLoadFactor s word) = aggregator_rows s.
Proof.
  intros Htf. unfold config_word.
  destruct (Z.ltb_spec 0 (local_tf meta word)); [lia|].
  repeat match goal with
         | |- context [if ?c then _ else _] => destruct c
         end; auto.
Qed.

Lemma config_word_aggregator s word :
  0 < local_tf meta word ->
  aggregator_rows (config_word cfg meta kLoadFactor s word) !! (kWordTopicTable, word)
  = Some (aggregator_row_setting cfg meta kLoadFactor word).
Proof.
  intros Htf. unfold config_word, aggregator_row_setting.
  destruct (Z.ltb_spec 0 (local_tf meta word)); [|lia].
  repeat match goal with
         | |- context [if ?c then _ else _] => destruct c
         end;
    simpl; rewrite ?lookup_insert_eq; auto.
Qed.

(** Rows the loop over [words] does not set keep their setting. *)
Lemma config_words_frame words : forall s (k : table_id * Z),
  (k.1 = kWordTopicTable -> k.2 ∈ words -> tf meta k.2 <= 0) ->
  server_rows (foldl (config_word cfg meta kLoadFactor) s words) !! k
  = server_rows s !! k /\
  cache_rows (foldl (config_word cfg meta kLoadFactor) s words) !! k
  = cache_rows s !! k.
Proof.
  induction words as [|x words IH]; intros s k Hk; simpl; [auto|].
  destruct (IH (config_word cfg meta kLoadFactor s x) k) as [-> ->].
  { intros Ht Hin. apply Hk; [exact Ht | right; exact Hin]. }
  destruct (decide (k = (kWordTopicTable, x))) as [-> | Hne].
  - destruct (config_word_skip s x) as [-> ->]; [|auto].
    apply (Hk eq_refl). left.
  - destruct (config_word_frame s x k Hne) as (-> & -> & _). auto.
Qed.

Lemma config_words_frame_aggregator words : forall s (k : table_id * Z),
  (k.1 = kWordTopicTable -> k.2 ∈ words -> local_tf meta k.2 <= 0) ->
  aggregator_rows (foldl (config_word cfg meta kLoadFactor) s words) !! k
  = aggregator_rows s !! k.
Proof.
  induction words as [|x words IH]; intros s k Hk; simpl; [auto|].
  rewrite IH by (intros Ht Hin; apply Hk; [exact Ht | right; exact Hin]).
  destruct (decide (k = (kWordTopicTable, x))) as [-> | Hne].
  - rewrite config_word_skip_aggregator; [reflexivity|].
    apply (Hk eq_refl). left.
  - destruct (config_word_frame s x k Hne) as (_ & _ & ->). reflexivity.
Qed.

Lemma config_words_aggregator words : forall s word,
  word ∈ words -> 0 < local_tf meta word ->
  aggregator_rows (foldl (config_word cfg meta kLoadFactor) s words)
    !! (kWordTopicTable, word)
  = Some (aggregator_row_setting cfg meta kLoadFactor word).
Proof.
  induction words as [|x words IH]; intros s word Hin Htf; simpl.
  - inversion Hin.
  - destruct (decide (word ∈ words)) as [Hin' | Hnot]; [apply IH; assumption|].
    apply elem_of_cons in Hin as [-> | Hin]; [|contradiction].
    rewrite config_words_frame_aggregator by (simpl; intros _ Hx; contradiction).
    apply config_word_aggregator. exact Htf.
Qed.

(** The same for server and cache rows, without asking [words] to be
    free of repetitions. *)
Lemma config_words_set words : forall s word,
  word ∈ words -> 0 < tf meta word ->
  server_rows (foldl (config_word cfg meta kLoadFactor) s words)
    !! (kWordTopicTable, word)
  = Some (word_row_setting cfg meta kLoadFactor word) /\
  cache_rows (foldl (config_word cfg meta kLoadFactor) s words)
    !! (kWordTopicTable, word)
  = Some (word_row_setting cfg meta kLoadFactor word).
Proof.
  induction words as [|x words IH]; intros s word Hin Htf; simpl.
  - inversion Hin.
  - destruct (decide (word ∈ words)) as [Hin' | Hnot]; [apply IH; assumption|].
    apply elem_of_cons in Hin as [-> | Hin]; [|contradiction].
    destruct (config_words_frame words (config_word cfg meta kLoadFactor s x)
                (kWordTopicTable, x)) as [-> ->].
    { simpl. intros _ Hx. contradiction. }
    apply config_word_same. exact Htf.
Qed.

End ConfigTableFrame.

(** X1. For every word of the vocabulary with [local_tf(word) > 0], after
    [ConfigTable] the word's aggregator row is dense with capacity
    [num_topics] if and only if [local_tf(word) * 2 * kLoadFactor >
    num_topics] (32-bit products), and sparse with that product as capacity
    otherwise. *)
Theorem config_table_aggregator_rows (cfg : Config) (meta : Meta) (kLoadFactor : Z)
    (s : row_settings) (word : Z) :
  0 <= word < num_vocabs cfg -> 0 < local_tf meta word ->
  let s' := ConfigTable cfg meta kLoadFactor s in
  let product := Int32.mul (Int32.mul (local_tf meta word) 2) kLoadFactor in
  exists format capacity,
    aggregator_rows s' !! (kWordTopicTable, word) = Some (format, capacity) /\
    (format = Dense <-> product > num_topics cfg) /\
    (format = Dense -> capacity = num_topics cfg) /\
    (format = Sparse <-> product <= num_topics cfg) /\
    (format = Sparse -> capacity = product).
Proof.
  intros Hword Htf s' product.
  pose proof (config_words_aggregator cfg meta kLoadFactor (seqZ 0 (num_vocabs cfg))
                s word ltac:(apply elem_of_seqZ; lia) Htf) as Ha.
  fold (ConfigTable cfg meta kLoadFactor s) in Ha. fold s' in Ha.
  unfold aggregator_row_setting in Ha. fold product in Ha.
  destruct (Z.ltb_spec (num_topics cfg) product) as [Hlt | Hge].
  - exists Dense, (num_topics cfg). split; [exact Ha|].
    repeat split; try lia; try discriminate; intros; lia.
  - exists Sparse, product. split; [exact Ha|].
    repeat split; try lia; try discriminate; intros; lia.
Qed.

Lemma config_table_aggregator_rows_witness :
  let cfg := {| num_topics := 10; num_vocabs := 3; num_iterations := 1;
                asymmetric_alpha := 0%float; word_init := false; warm_start := false |} in
  let meta := {| tf := fun _ => 0;
                 local_tf := fun word => nth (Z.to_nat word) [1; 2; 3] 0 |} in
  let s' := ConfigTable cfg meta 2
              {| server_rows := ∅; cache_rows := ∅; aggregator_rows := ∅ |} in
  aggregator_rows s' !! (kWordTopicTable, 2) = Some (Dense, 10).
Proof.
  intros cfg meta s'.
  destruct (config_table_aggregator_rows cfg meta 2
              {| server_rows := ∅; cache_rows := ∅; aggregator_rows := ∅ |} 2
              ltac:(simpl; lia) ltac:(simpl; lia))
    as (format & capacity & Ha & Hd & Hc & _).
  assert (Hf : format = Dense) by (apply Hd; vm_compute; reflexivity).
  rewrite Hf, (Hc Hf) in Ha. exact Ha.
Defined.

(** X2. [ConfigTable] leaves every other row as it was: a row of another
    table, a row outside the vocabulary, or the row of a word whose term
    frequency is not positive keeps its server and cache setting (its
    aggregator setting when the local term frequency is not positive). *)
Theorem config_table_leaves_other_rows (cfg : Config) (meta : Meta) (kLoadFactor : Z)
    (s : row_settings) (table : table_id) (row : Z) :
  let s' := ConfigTable cfg meta kLoadFactor s in
  (table <> kWordTopicTable \/ ~ (0 <= row < num_vocabs cfg) \/ tf meta row <= 0 ->
   server_rows s' !! (table, row) = server_rows s !! (table, row) /\
   cache_rows s' !! (table, row) = cache_rows s !! (table, row)) /\
  (table <> kWordTopicTable \/ ~ (0 <= row < num_vocabs cfg) \/ local_tf meta row <= 0 ->
   aggregator_rows s' !! (table, row) = aggregator_rows s !! (table, row)).
Proof.
  intros s'. split.
  - intros Hcase. apply config_words_frame. simpl. intros Ht Hin.
    apply elem_of_seqZ in Hin. destruct Hcase as [Hc | [Hc | Hc]];
      [contradiction | lia | exact Hc].
  - intros Hcase. apply config_words_frame_aggregator. simpl. intros Ht Hin.
    apply elem_of_seqZ in Hin. destruct Hcase as [Hc | [Hc | Hc]];
      [contradiction | lia | exact Hc].
Qed.

Lemma config_table_leaves_other_rows_witness :
  let cfg := {| num_topics := 10; num_vocabs := 3; num_iterations := 1;
                asymmetric_alpha := 0%float; word_init := false; warm_start := false |} in
  let meta := {| tf := fun word => nth (Z.to_nat word) [1; 0; 50] 0;
                 local_tf := fun _ => 1 |} in
  let s := {| server_rows := {[ (kWordTopicTable, 1) := (Dense, 7) ]};
              cache_rows := ∅; aggregator_rows := ∅ |} in
  server_rows (ConfigTable cfg meta 2 s) !! (kWordTopicTable, 1) = Some (Dense, 7).
Proof.
  intros cfg meta s.
  destruct (proj1 (config_table_leaves_other_rows cfg meta 2 s kWordTopicTable 1))
    as [Hs _].
  - right. right. simpl. lia.
  - rewrite Hs. reflexivity.
Defined.

(** X3. The capacity [ConfigTable] gives a row never exceeds [num_topics];
    with [num_topics >= 1], [kLoadFactor >= 1] and the product within the
    32-bit range it is at least 1.  This holds for the server and cache rows
    of a word with [tf > 0] and for the aggregator row of a word with
    [local_tf > 0]. *)
Theorem config_table_capacity_bounds (cfg : Config) (meta : Meta) (kLoadFactor : Z)
    (s : row_settings) (word : Z) :
  0 <= word < num_vocabs cfg ->
  let s' := ConfigTable cfg meta kLoadFactor s in
  (0 < tf meta word ->
   exists format capacity,
     server_rows s' !! (kWordTopicTable, word) = Some (format, capacity) /\
     cache_rows s' !! (kWordTopicTable, word) = Some (format, capacity) /\
     capacity <= num_topics cfg /\
     (1 <= num_topics cfg -> 1 <= kLoadFactor ->
      Int32.in_range (tf meta word * kLoadFactor) -> 1 <= capacity)) /\
  (0 < local_tf meta word ->
   exists format capacity,
     aggregator_rows s' !! (kWordTopicTable, word) = Some (format, capacity) /\
     capacity <= num_topics cfg /\
     (1 <= num_topics cfg -> 1 <= kLoadFactor ->
      Int32.in_range (local_tf meta word * 2 * kLoadFactor) -> 1 <= capacity)).
Proof.
  intros Hword s'. split.
  - intros Htf.
    destruct (config_words_set cfg meta kLoadFactor (seqZ 0 (num_vocabs cfg)) s word
                ltac:(apply elem_of_seqZ; lia) Htf) as [Hs Hc].
    fold (ConfigTable cfg meta kLoadFactor s) in Hs, Hc. fold s' in Hs, Hc.
    unfold word_row_setting in Hs, Hc.
    destruct (Z.ltb_spec (num_topics cfg) (Int32.mul (tf meta word) kLoadFactor)).
    + eexists _, _. split; [exact Hs|]. split; [exact Hc|]. split; [lia|]. auto.
    + eexists _, _. split; [exact Hs|]. split; [exact Hc|]. split; [lia|].
      intros _ Hk Hr. unfold Int32.mul. rewrite wrap_small by exact Hr. nia.
  - intros Htf.
    pose proof (config_words_aggregator cfg meta kLoadFactor (seqZ 0 (num_vocabs cfg))
                  s word ltac:(apply elem_of_seqZ; lia) Htf) as Ha.
    fold (ConfigTable cfg meta kLoadFactor s) in Ha. fold s' in Ha.
    unfold aggregator_row_setting in Ha.
    destruct (Z.ltb_spec (num_topics cfg)
                (Int32.mul (Int32.mul (local_tf meta word) 2) kLoadFactor)).
    + eexists _, _. split; [exact Ha|]. split; [lia|]. auto.
    + eexists _, _. split; [exact Ha|]. split; [lia|].
      intros _ Hk Hr. unfold Int32.mul.
      assert (Hr2 : Int32.in_range (local_tf meta word * 2)).
      { unfold Int32.in_range, Int32.min_signed, Int32.max_signed in *. nia. }
      rewrite (wrap_small (local_tf meta word * 2)) by exact Hr2.
      rewrite wrap_small by exact Hr. nia.
Qed.

Lemma config_table_capacity_bounds_witness :
  let cfg := {| num_topics := 10; num_vocabs := 3; num_iterations := 1;
                asymmetric_alpha := 0%float; word_init := false; warm_start := false |} in
  let meta := {| tf := fun word => nth (Z.to_nat word) [1; 5; 50] 0;
                 local_tf := fun _ => 0 |} in
  let s' := ConfigTable cfg meta 2
              {| server_rows := ∅; cache_rows := ∅; aggregator_rows := ∅ |} in
  exists format capacity,
    server_rows s' !! (kWordTopicTable, 0) = Some (format, capacity) /\
    1 <= capacity <= 10.
Proof.
  intros cfg meta s'.
  destruct (proj1 (config_table_capacity_bounds cfg meta 2
                     {| server_rows := ∅; cache_rows := ∅; aggregator_rows := ∅ |} 0
                     ltac:(simpl; lia)) ltac:(simpl; lia))
    as (format & capacity & Hs & _ & Hle & Hge).
  exists format, capacity. split; [exact Hs|]. split; [|exact Hle].
  apply Hge; [simpl; lia | lia | vm_compute; split; discriminate].
Defined.

Lemma row_settings_eq (s1 s2 : row_settings) :
  server_rows s1 = server_rows s2 -> cache_rows s1 = cache_rows s2 ->
  aggregator_rows s1 = aggregator_rows s2 -> s1 = s2.
Proof. destruct s1, s2; simpl; intros -> -> ->; reflexivity. Qed.

(** X4. Running [ConfigTable] again changes nothing: the settings it
    writes depend on the vocabulary statistics only, not on the settings
    found. *)
Theorem config_table_idempotent (cfg : Config) (meta : Meta) (kLoadFactor : Z)
    (s : row_settings) :
  ConfigTable cfg meta kLoadFactor (ConfigTable cfg meta kLoadFactor s)
  = ConfigTable cfg meta kLoadFactor s.
Proof.
  unfold ConfigTable.
  set (f := config_word cfg meta kLoadFactor).
  set (ws := seqZ 0 (num_vocabs cfg)).
  assert (Hsc : forall k,
            server_rows (foldl f (foldl f s ws) ws) !! k
            = server_rows (foldl f s ws) !! k /\
            cache_rows (foldl f (foldl f s ws) ws) !! k
            = cache_rows (foldl f s ws) !! k).
  { intros [t row].
    destruct (decide (t = kWordTopicTable /\ row ∈ ws /\ 0 < tf meta row))
      as [(-> & Hin & Htf) | Hno].
    - destruct (config_words_set cfg meta kLoadFactor ws (foldl f s ws) row Hin Htf)
        as [H1 H2].
      destruct (config_words_set cfg meta kLoadFactor ws s row Hin Htf) as [H3 H4].
      fold f in H1, H2, H3, H4. rewrite H1, H2, H3, H4. auto.
    - apply config_words_frame. simpl. intros Ht Hin.
      destruct (Z.le_gt_cases (tf meta row) 0); [assumption|].
      exfalso. apply Hno. auto with zarith. }
  assert (Ha : forall k,
            aggregator_rows (foldl f (foldl f s ws) ws) !! k
            = aggregator_rows (foldl f s ws) !! k).
  { intros [t row].
    destruct (decide (t = kWordTopicTable /\ row ∈ ws /\ 0 < local_tf meta row))
      as [(-> & Hin & Htf) | Hno].
    - pose proof (config_words_aggregator cfg meta kLoadFactor ws (foldl f s ws)
                    row Hin Htf) as H1.
      pose proof (config_words_aggregator cfg meta kLoadFactor ws s row Hin Htf) as H2.
      fold f in H1, H2. rewrite H1, H2. reflexivity.
    - apply config_words_frame_aggregator. simpl. intros Ht Hin.
      destruct (Z.le_gt_cases (local_tf meta row) 0); [assumption|].
      exfalso. apply Hno. auto with zarith. }
  apply row_settings_eq; apply map_eq; intros k; [apply Hsc | apply Hsc | apply Ha].
Qed.

(** ** More on [TrainIteration]: the documents and the end of the call *)

Lemma elem_of_doc_ids size id trainer_num x :
  1 <= trainer_num -> 0 <= id -> size + trainer_num <= 2 ^ 31 ->
  x ∈ doc_ids size id trainer_num <->
  id <= x < size /\ (x - id) mod trainer_num = 0.
Proof.
  intros HT Hid Hsz. unfold doc_ids.
  rewrite idx_loop_ptr_loop by (unfold Int32.min_signed; lia).
  apply elem_of_ptr_loop; lia.
Qed.

Lemma doc_ids_disjoint size id1 id2 trainer_num x :
  0 <= id1 < trainer_num -> 0 <= id2 < trainer_num ->
  size + trainer_num <= 2 ^ 31 ->
  x ∈ doc_ids size id1 trainer_num -> x ∈ doc_ids size id2 trainer_num -> id1 = id2.
Proof.
  intros H1 H2 Hsz Hx1 Hx2.
  apply elem_of_doc_ids in Hx1 as [_ Hm1]; [|lia..].
  apply elem_of_doc_ids in Hx2 as [_ Hm2]; [|lia..].
  apply Z.mod_divide in Hm1; [|lia]. apply Z.mod_divide in Hm2; [|lia].
  destruct Hm1 as [k1 Hk1], Hm2 as [k2 Hk2].
  assert (Hd : id2 - id1 = (k1 - k2) * trainer_num) by lia.
  assert (Hk : k1 - k2 = 0) by nia.
  lia.
Qed.

Section IterationMore.
Context `{Collaborators}.

(** The documents at the end of a call: the loop writes back the documents
    it sampled and nothing else of the call stores a document. *)
Lemma TrainIteration_docs cfg id trainer_num b docs w barrier :
  let o := TrainIteration cfg id trainer_num b (enter docs w barrier) in
  let ids := doc_ids (Z.of_nat (length docs)) id trainer_num in
  length (ts_docs (final_state o)) = length docs /\
  forall y, y ∉ ids -> GetOneDoc (ts_docs (final_state o)) y = GetOneDoc docs y.
Proof.
  intros o ids. subst o ids.
  unfold TrainIteration, sampling_phase, get_docs.
  set (s0 := advance 0 (if id =? 0
                        then [EvInfo (InfoSlice (lda_iteration b) (lda_block b) (lda_slice b))]
                        else []) (enter docs w barrier)).
  assert (H0 : when (id =? 0)
                 (Log_Info (InfoSlice (lda_iteration b) (lda_block b) (lda_slice b)))
                 (enter docs w barrier) = Done tt s0).
  { unfold when, s0. destruct (id =? 0); [reflexivity|].
    rewrite advance_nil. reflexivity. }
  rewrite (bind_done _ _ _ _ _ H0).
  rewrite (bind_done _ _ _ _ _ (build_phase_run cfg id trainer_num b s0)).
  set (s1 := advance 2 _ s0).
  set (s2 := advance 0 (if id =? 0 then [EvInfo InfoAliasTime] else []) s1).
  assert (H2 : when (id =? 0) (Log_Info InfoAliasTime) s1 = Done tt s2).
  { unfold when, s2. destruct (id =? 0); [reflexivity|].
    rewrite advance_nil. reflexivity. }
  unfold mbind, Thread_bind. rewrite H2.
  change (ts_docs s2) with docs.
  destruct (sample_loop_run cfg (lda_iteration b) (lda_slice b)
              (LastWord (lda_meta b) (lda_slice b))
              (doc_ids (Z.of_nat (length docs)) id trainer_num) 0 s2)
    as (l1 & tail & _ & Hsync & Hfr & _ & Hcase).
  assert (Hsub : forall y, y ∉ doc_ids (Z.of_nat (length docs)) id trainer_num -> y ∉ l1).
  { intros y Hy Hin. apply Hy.
    destruct Hcase as [(_ & <- & _) | (_ & d & l2 & m & -> & _)]; [exact Hin|].
    apply elem_of_app. left. exact Hin. }
  destruct Hsync as (_ & _ & Hlen).
  change (ts_docs s2) with docs in Hlen, Hfr.
  destruct (for_each _ _ 0 s2) as [n s3 | s3]; cbn [final_state] in Hlen, Hfr.
  - set (s4 := advance 0 (if id =? 0
                          then [EvInfo InfoTrainingTime; EvInfo (InfoThroughput n)]
                          else []) s3).
    assert (H4 : when (id =? 0)
                   (x ← Log_Info InfoTrainingTime; Log_Info (InfoThroughput n)) s3
                 = Done tt s4).
    { unfold when, s4. destruct (id =? 0).
      - unfold mbind, Thread_bind, Log_Info. rewrite !emit_run, advance_advance.
        reflexivity.
      - rewrite advance_nil. reflexivity. }
    unfold mbind, Thread_bind in H4. rewrite H4, closing_phase_run.
    cbn [final_state advance ts_docs]. unfold s4. cbn [advance ts_docs].
    split; [exact Hlen|]. intros y Hy. apply Hfr, Hsub, Hy.
  - cbn [final_state]. split; [exact Hlen|]. intros y Hy. apply Hfr, Hsub, Hy.
Qed.

(** The closing phase of a call that ran to its end works on the documents
    and the collaborators as the sampling loop left them, which is how the
    call leaves them. *)
Lemma TrainIteration_final cfg id trainer_num b docs w barrier :
  let o := TrainIteration cfg id trainer_num b (enter docs w barrier) in
  halted o = false ->
  exists num_token,
    ts_trace (final_state o)
    = opening_events cfg id trainer_num b barrier
      ++ (EvSampleOneDoc <$> doc_ids (Z.of_nat (length docs)) id trainer_num)
      ++ ending_events cfg id trainer_num b num_token
           (ts_docs (final_state o)) (ts_world (final_state o)) barrier.
Proof.
  intros o. subst o.
  unfold TrainIteration, sampling_phase, get_docs.
  set (s0 := advance 0 (if id =? 0
                        then [EvInfo (InfoSlice (lda_iteration b) (lda_block b) (lda_slice b))]
                        else []) (enter docs w barrier)).
  assert (H0 : when (id =? 0)
                 (Log_Info (InfoSlice (lda_iteration b) (lda_block b) (lda_slice b)))
                 (enter docs w barrier) = Done tt s0).
  { unfold when, s0. destruct (id =? 0); [reflexivity|].
    rewrite advance_nil. reflexivity. }
  rewrite (bind_done _ _ _ _ _ H0).
  rewrite (bind_done _ _ _ _ _ (build_phase_run cfg id trainer_num b s0)).
  set (s1 := advance 2 _ s0).
  set (s2 := advance 0 (if id =? 0 then [EvInfo InfoAliasTime] else []) s1).
  assert (H2 : when (id =? 0) (Log_Info InfoAliasTime) s1 = Done tt s2).
  { unfold when, s2. destruct (id =? 0); [reflexivity|].
    rewrite advance_nil. reflexivity. }
  unfold mbind, Thread_bind. rewrite H2.
  change (ts_docs s2) with docs.
  destruct (sample_loop_run cfg (lda_iteration b) (lda_slice b)
              (LastWord (lda_meta b) (lda_slice b))
              (doc_ids (Z.of_nat (length docs)) id trainer_num) 0 s2)
    as (l1 & tail & Htr & Hsync & _ & _ & Hcase).
  assert (Htr2 : ts_trace s2 = opening_events cfg id trainer_num b barrier).
  { unfold s2, s1, s0, opening_events. simpl. rewrite <- !app_assoc. reflexivity. }
  destruct (for_each _ _ 0 s2) as [n s3 | s3]; cbn [final_state halted] in Htr, Hsync, Hcase.
  - destruct Hcase as [(_ & -> & ->) | (Hh & _)]; [|discriminate].
    set (s4 := advance 0 (if id =? 0
                          then [EvInfo InfoTrainingTime; EvInfo (InfoThroughput n)]
                          else []) s3).
    assert (H4 : when (id =? 0)
                   (x ← Log_Info InfoTrainingTime; Log_Info (InfoThroughput n)) s3
                 = Done tt s4).
    { unfold when, s4. destruct (id =? 0).
      - unfold mbind, Thread_bind, Log_Info. rewrite !emit_run, advance_advance.
        reflexivity.
      - rewrite advance_nil. reflexivity. }
    unfold mbind, Thread_bind in H4. rewrite H4, closing_phase_run.
    intros _. exists n.
    destruct Hsync as (Hw & Hb & _).
    unfold ending_events, s4.
    cbn [final_state advance ts_trace ts_docs ts_world ts_barrier ts_waits].
    rewrite Htr, Htr2, Hw, Hb, app_nil_r.
    rewrite <- !app_assoc. reflexivity.
  - cbn [halted]. discriminate.
Qed.

(** A call in which every document of the partition passes the check runs
    to its end, sampling the whole partition in order. *)
Lemma TrainIteration_completes cfg id trainer_num b docs w barrier :
  let o := TrainIteration cfg id trainer_num b (enter docs w barrier) in
  let ids := doc_ids (Z.of_nat (length docs)) id trainer_num in
  NoDup ids ->
  (forall x, x ∈ ids ->
     check_passes cfg (lda_iteration b) (lda_slice b) (GetOneDoc docs x) = true) ->
  halted o = false /\
  exists num_token docs' w',
    ts_trace (final_state o)
    = opening_events cfg id trainer_num b barrier ++ (EvSampleOneDoc <$> ids)
      ++ ending_events cfg id trainer_num b num_token docs' w' barrier.
Proof.
  intros o ids Hnd Hall.
  destruct (TrainIteration_run cfg id trainer_num b docs w barrier)
    as (l1 & tail & Htr & _ & Hcase).
  fold o in Htr, Hcase. fold ids in Hcase.
  destruct Hcase as [(Hh & -> & n & docs' & w' & ->)
                    | (_ & d & l2 & m & Hids & _ & Hbad)].
  - split; [exact Hh|]. exists n, docs', w'. exact Htr.
  - exfalso. specialize (Hbad Hnd). rewrite Hall in Hbad; [discriminate|].
    rewrite Hids. apply elem_of_app. right. left.
Qed.

(** No action of a call that ran to its end is a fatal log. *)
Lemma no_fatal_in_complete_run cfg id trainer_num b barrier l n docs' w' m :
  EvFatal m ∉ opening_events cfg id trainer_num b barrier ++ (EvSampleOneDoc <$> l)
              ++ ending_events cfg id trainer_num b n docs' w' barrier.
Proof.
  intros Hin. apply elem_of_app in Hin as [Hin | Hin].
  { revert Hin. eapply not_kind_not_in; [apply opening_events_kind | reflexivity]. }
  apply elem_of_app in Hin as [Hin | Hin].
  { apply list_elem_of_fmap in Hin as (y & Hy & _). discriminate. }
  destruct (ending_events_split cfg id trainer_num b n docs' w' barrier)
    as (X & HX & Hk & _).
  rewrite HX in Hin. apply elem_of_app in Hin as [Hin | Hin].
  { revert Hin. eapply not_kind_not_in; [exact Hk | reflexivity]. }
  destruct (_ =? _) in Hin; [|inversion Hin].
  apply list_elem_of_singleton in Hin. discriminate.
Qed.

End IterationMore.

(** ** More on the initialisation *)

Lemma foldl_max_step_max (doc : Document) : forall m,
  0 <= m -> foldl max_step m doc = Z.max m (max_word doc).
Proof.
  induction doc as [|tok doc IH]; intros m Hm; simpl.
  - lia.
  - assert (Hs : max_step m tok = Z.max m tok.1)
      by (unfold max_step; destruct (Z.ltb_spec m tok.1); lia).
    rewrite IH by (rewrite Hs; lia). rewrite Hs. lia.
Qed.

Lemma max_word_nonneg (doc : Document) : 0 <= max_word doc.
Proof. induction doc as [|tok doc IH]; simpl; lia. Qed.

(** The first loop of [Initialize] starts from 0: it computes the largest
    word id, or 0 when every word id is negative. *)
Lemma max_word_id_of_floor (doc : Document) : max_word_id_of doc = max_word doc.
Proof.
  rewrite max_word_id_of_tokens, foldl_max_step_max by lia.
  pose proof (max_word_nonneg doc). lia.
Qed.

Lemma max_word_upper (doc : Document) tok : tok ∈ doc -> tok.1 <= max_word doc.
Proof.
  induction doc as [|x doc IH]; intros Hin; [inversion Hin|].
  simpl. apply elem_of_cons in Hin as [-> | Hin]; [lia|].
  specialize (IH Hin). lia.
Qed.

Lemma max_word_floor (doc : Document) :
  (forall tok, tok ∈ doc -> tok.1 <= 0) -> max_word doc = 0.
Proof.
  induction doc as [|x doc IH]; intros Hall; [reflexivity|].
  simpl. rewrite IH by (intros tok Hin; apply Hall; right; exact Hin).
  pose proof (Hall x ltac:(left)). lia.
Qed.

Section InitializeAny.
Variable cfg : Config.

Lemma init_tokens_any t (suf : Document) : forall (pre : Document) calls,
  foldl (init_token cfg t) (pre ++ suf, calls)
        (seqZ (Z.of_nat (length pre)) (Z.of_nat (length suf)))
  = (pre ++ ((fun tok => (tok.1, assigned_topic cfg t tok)) <$> suf),
     calls ++ List.flat_map (fun tok => token_calls (assigned_topic cfg t tok) tok) suf).
Proof.
  induction suf as [|tok suf IH]; intros pre calls.
  - simpl. rewrite !app_nil_r. reflexivity.
  - rewrite seqZ_tokens_cons. simpl foldl.
    unfold init_token at 2. simpl fst. simpl snd.
    destruct (warm_start cfg) eqn:Hwarm; simpl negb; cbv iota.
    + rewrite Word_middle, Topic_middle.
      specialize (IH (pre ++ [tok])).
      rewrite length_app in IH |- *. simpl length in IH |- *.
      rewrite <- app_assoc in IH. simpl app in IH. rewrite IH.
      rewrite <- !app_assoc. unfold assigned_topic. rewrite Hwarm.
      destruct tok as [word topic]. reflexivity.
    + rewrite SetTopic_middle, Word_middle, Topic_middle. simpl fst. simpl snd.
      specialize (IH (pre ++ [(tok.1, t)])).
      rewrite length_app in IH |- *. simpl length in IH |- *.
      rewrite <- app_assoc in IH. simpl app in IH. rewrite IH.
      rewrite <- !app_assoc. unfold assigned_topic. rewrite Hwarm. reflexivity.
Qed.

Lemma init_doc_any (doc : Document) :
  let t := Int32.rem (max_word_id_of doc) (num_topics cfg) in
  init_doc cfg doc
  = ((fun tok => (tok.1, assigned_topic cfg t tok)) <$> doc,
     List.flat_map (fun tok => token_calls (assigned_topic cfg t tok) tok) doc).
Proof. exact (init_tokens_any _ doc [] []). Qed.

(** The calls of a document are read off the topics it ends with. *)
Lemma init_doc_calls (doc : Document) :
  (init_doc cfg doc).2
  = List.flat_map (fun tok => token_calls tok.2 tok) (init_doc cfg doc).1.
Proof.
  rewrite init_doc_any. simpl.
  generalize (Int32.rem (max_word_id_of doc) (num_topics cfg)). intros t.
  induction doc as [|tok doc IH]; simpl; [reflexivity|]. rewrite IH. reflexivity.
Qed.

Lemma init_docs_fold (block : list Document) : forall ds cs,
  foldl (fun (acc : list Document * list server_call) doc =>
           let r := init_doc cfg doc in (acc.1 ++ [r.1], acc.2 ++ r.2))
        (ds, cs) block
  = (ds ++ ((fun doc : Document => (init_doc cfg doc).1) <$> block),
     cs ++ List.flat_map (fun doc => (init_doc cfg doc).2) block).
Proof.
  induction block as [|doc block IH]; intros ds cs.
  - simpl. rewrite !app_nil_r. reflexivity.
  - simpl foldl. rewrite IH. simpl. rewrite <- !app_assoc. reflexivity.
Qed.

Lemma init_blocks_fold (blocks : list (list Document)) : forall bs cs,
  foldl (init_block cfg) (bs, cs) blocks
  = (bs ++ ((fun block : list Document =>
               (fun doc : Document => (init_doc cfg doc).1) <$> block) <$> blocks),
     cs ++ List.flat_map
             (fun block =>
                List.flat_map (fun doc => (init_doc cfg doc).2) block ++ [Flush])
             blocks).
Proof.
  induction blocks as [|block blocks IH]; intros bs cs.
  - simpl. rewrite !app_nil_r. reflexivity.
  - simpl foldl. unfold init_block at 2. simpl fst. simpl snd.
    rewrite init_docs_fold. simpl fst. simpl snd. rewrite IH.
    simpl. rewrite <- !app_assoc. reflexivity.
Qed.

End InitializeAny.

Lemma word_topic_total_app word topic l1 l2 :
  word_topic_total word topic (l1 ++ l2)
  = word_topic_total word topic l1 + word_topic_total word topic l2.
Proof.
  induction l1 as [|c l1 IH]; simpl; [reflexivity|].
  destruct c as [[] row col delta|]; try exact IH.
  destruct ((row =? word) && (col =? topic)); lia.
Qed.

Lemma summary_total_app topic l1 l2 :
  summary_total topic (l1 ++ l2) = summary_total topic l1 + summary_total topic l2.
Proof.
  induction l1 as [|c l1 IH]; simpl; [reflexivity|].
  destruct c as [[] row col delta|]; try exact IH.
  destruct ((row =? 0) && (col =? topic)); lia.
Qed.

Lemma word_topic_total_tokens word topic (toks : Document) :
  word_topic_total word topic (List.flat_map (fun tok => token_calls tok.2 tok) toks)
  = Z.of_nat (length (List.filter (fun tok => (tok.1 =? word) && (tok.2 =? topic)) toks)).
Proof.
  induction toks as [|tok toks IH]; simpl; [reflexivity|].
  rewrite IH. destruct ((tok.1 =? word) && (tok.2 =? topic)); simpl length; lia.
Qed.

Lemma summary_total_tokens topic (toks : Document) :
  summary_total topic (List.flat_map (fun tok => token_calls tok.2 tok) toks)
  = Z.of_nat (length (List.filter (fun tok => tok.2 =? topic) toks)).
Proof.
  induction toks as [|tok toks IH]; simpl; [reflexivity|].
  rewrite IH. destruct (tok.2 =? topic); simpl length; lia.
Qed.

(** The totals of the calls made for whole blocks, each document's calls
    being read off its tokens and each block ending in a flush. *)
Lemma totals_of_blocks (blocks : list (list Document)) word topic :
  let calls :=
    List.flat_map
      (fun block =>
         List.flat_map
           (fun doc : Document => List.flat_map (fun tok => token_calls tok.2 tok) doc)
           block ++ [Flush]) blocks in
  word_topic_total word topic calls
  = occurrences (fun tok => (tok.1 =? word) && (tok.2 =? topic)) blocks /\
  summary_total topic calls = occurrences (fun tok => tok.2 =? topic) blocks.
Proof.
  unfold occurrences.
  induction blocks as [|block blocks [IHw IHs]]; [split; reflexivity|].
  simpl concat. simpl List.flat_map.
  rewrite concat_app, !List.filter_app, !length_app.
  rewrite !word_topic_total_app, !summary_total_app, IHw, IHs.
  assert (Hblock :
    word_topic_total word topic
      (List.flat_map
         (fun doc : Document => List.flat_map (fun tok => token_calls tok.2 tok) doc) block)
    = Z.of_nat (length (List.filter (fun tok => (tok.1 =? word) && (tok.2 =? topic))
                          (concat block))) /\
    summary_total topic
      (List.flat_map
         (fun doc : Document => List.flat_map (fun tok => token_calls tok.2 tok) doc) block)
    = Z.of_nat (length (List.filter (fun tok => tok.2 =? topic) (concat block)))).
  { clear. induction block as [|doc block [IHw IHs]]; [split; reflexivity|].
    simpl concat. simpl List.flat_map.
    rewrite !List.filter_app, !length_app.
    rewrite word_topic_total_app, summary_total_app, IHw, IHs.
    rewrite word_topic_total_tokens, summary_total_tokens. lia. }
  destruct Hblock as [-> ->]. simpl. lia.
Qed.

(** ** [Initialize] in both modes *)

Lemma fmap_ext_all {A B} (f g : A -> B) (l : list A) :
  (forall x, f x = g x) -> f <$> l = g <$> l.
Proof.
  intros Hfg. induction l as [|x l IH]; simpl; [reflexivity|].
  rewrite Hfg. f_equal. exact IH.
Qed.

(** [Initialize] from what it does to one document. *)
Lemma Initialize_by_docs {R : Type} (rng : R) cfg (blocks : list (list Document))
    (F : Document -> Document) (G : Document -> list server_call) :
  (forall doc, init_doc cfg doc = (F doc, G doc)) ->
  Initialize rng cfg blocks
  = ((fun block : list Document => F <$> block) <$> blocks,
     List.flat_map (fun block => List.flat_map G block ++ [Flush]) blocks).
Proof.
  intros HFG. unfold Initialize. rewrite init_blocks_fold. simpl. f_equal.
  - apply fmap_ext_all. intros block. apply fmap_ext_all. intros doc.
    rewrite HFG. reflexivity.
  - apply List.flat_map_ext. intros block. f_equal.
    apply List.flat_map_ext. intros doc. rewrite HFG. reflexivity.
Qed.

Lemma init_doc_warm cfg (doc : Document) :
  warm_start cfg = true ->
  init_doc cfg doc = (doc, List.flat_map (fun tok => token_calls tok.2 tok) doc).
Proof.
  intros Hwarm. rewrite init_doc_any. unfold assigned_topic. rewrite Hwarm. f_equal.
  induction doc as [|[word topic] doc IH]; simpl; [reflexivity|].
  f_equal. exact IH.
Qed.

Lemma init_doc_cold_floor cfg (doc : Document) :
  warm_start cfg = false -> 0 < num_topics cfg ->
  init_doc cfg doc
  = ((fun tok => (tok.1, max_word doc mod num_topics cfg)) <$> doc,
     List.flat_map (token_calls (max_word doc mod num_topics cfg)) doc).
Proof.
  intros Hcold HK. rewrite init_doc_any. unfold assigned_topic. rewrite Hcold.
  rewrite max_word_id_of_floor. unfold Int32.rem.
  rewrite Z.rem_mod_nonneg by (pose proof (max_word_nonneg doc); lia).
  reflexivity.
Qed.

(** X5. [Initialize] with [warm_start] on leaves every document as it was
    read and counts every token under the topic it already carries: per
    token one increment of the word-topic row of its word and one of the
    summary row, at that topic, in document order, with one flush after
    each block.  ([num_topics] is not 0: the function divides by it in
    either mode.) *)
Theorem initialize_warm_start {R : Type} (rng : R) (cfg : Config)
    (blocks : list (list Document)) :
  warm_start cfg = true -> num_topics cfg <> 0 ->
  Initialize rng cfg blocks
  = (blocks,
     List.flat_map
       (fun block : list Document =>
          List.flat_map
            (fun doc : Document =>
               List.flat_map
                 (fun tok : Z * Z =>
                    [AddToServer kWordTopicTable tok.1 tok.2 1;
                     AddToServer kSummaryRow 0 tok.2 1]) doc) block
          ++ [Flush]) blocks).
Proof.
  intros Hwarm _.
  rewrite (Initialize_by_docs rng cfg blocks (fun doc => doc)
             (fun doc => List.flat_map (fun tok => token_calls tok.2 tok) doc))
    by (intros doc; apply init_doc_warm, Hwarm).
  f_equal. clear. induction blocks as [|block blocks IH]; [reflexivity|].
  rewrite fmap_cons, IH. f_equal. apply list_fmap_id.
Qed.

Lemma initialize_warm_start_witness :
  Initialize tt
    {| num_topics := 4; num_vocabs := 10; num_iterations := 2;
       asymmetric_alpha := (-1)%float; word_init := false; warm_start := true |}
    [[[(7, 3); (2, 1)]; []]; [[(5, 0)]]]
  = ([[[(7, 3); (2, 1)]; []]; [[(5, 0)]]],
     [AddToServer kWordTopicTable 7 3 1; AddToServer kSummaryRow 0 3 1;
      AddToServer kWordTopicTable 2 1 1; AddToServer kSummaryRow 0 1 1; Flush;
      AddToServer kWordTopicTable 5 0 1; AddToServer kSummaryRow 0 0 1; Flush]).
Proof.
  exact (initialize_warm_start tt
           {| num_topics := 4; num_vocabs := 10; num_iterations := 2;
              asymmetric_alpha := (-1)%float; word_init := false; warm_start := true |}
           [[[(7, 3); (2, 1)]; []]; [[(5, 0)]]] eq_refl ltac:(discriminate)).
Defined.

(** X6. [Initialize] with [warm_start] off and [num_topics > 0], whatever
    the word ids: all the tokens of a document get one topic, the largest
    word id of the document floored at 0 (the running maximum starts at 0,
    so a document of negative ids, or an empty one, counts as 0) modulo
    [num_topics]; in particular every topic written is a valid index,
    [0 <= topic < num_topics]. *)
Theorem initialize_cold_start_topic_range {R : Type} (rng : R) (cfg : Config)
    (blocks : list (list Document)) :
  warm_start cfg = false -> 0 < num_topics cfg ->
  let r := Initialize rng cfg blocks in
  r.1 = (fun block : list Document =>
           (fun doc : Document =>
              (fun tok : Z * Z => (tok.1, max_word doc mod num_topics cfg)) <$> doc)
           <$> block) <$> blocks /\
  (forall doc : Document,
      0 <= max_word doc /\
      (forall tok, tok ∈ doc -> tok.1 <= max_word doc) /\
      ((forall tok, tok ∈ doc -> tok.1 <= 0) -> max_word doc = 0)) /\
  (forall (block : list Document) (doc : Document) tok,
      block ∈ r.1 -> doc ∈ block -> tok ∈ doc -> 0 <= tok.2 < num_topics cfg) /\
  (forall (block : list Document) (doc : Document) tok1 tok2,
      block ∈ r.1 -> doc ∈ block -> tok1 ∈ doc -> tok2 ∈ doc -> tok1.2 = tok2.2).
Proof.
  intros Hcold HK r.
  assert (Hr : r.1 = (fun block : list Document =>
           (fun doc : Document =>
              (fun tok : Z * Z => (tok.1, max_word doc mod num_topics cfg)) <$> doc)
           <$> block) <$> blocks).
  { unfold r.
    rewrite (Initialize_by_docs rng cfg blocks
               (fun doc => (fun tok => (tok.1, max_word doc mod num_topics cfg)) <$> doc)
               (fun doc => List.flat_map (token_calls (max_word doc mod num_topics cfg)) doc))
      by (intros doc; apply init_doc_cold_floor; assumption).
    reflexivity. }
  assert (Htok : forall (block : list Document) (doc : Document) tok,
             block ∈ r.1 -> doc ∈ block -> tok ∈ doc ->
             exists doc0 : Document, tok.2 = max_word doc0 mod num_topics cfg /\
               doc = (fun tok : Z * Z => (tok.1, max_word doc0 mod num_topics cfg)) <$> doc0).
  { intros block doc tok Hb Hd Ht. rewrite Hr in Hb.
    apply list_elem_of_fmap in Hb as (block0 & -> & _).
    apply list_elem_of_fmap in Hd as (doc0 & -> & _).
    exists doc0. split; [|reflexivity].
    apply list_elem_of_fmap in Ht as (tok0 & -> & _). reflexivity. }
  split; [exact Hr|]. split; [|split].
  - intros doc. split; [apply max_word_nonneg|].
    split; [apply max_word_upper | apply max_word_floor].
  - intros block doc tok Hb Hd Ht.
    destruct (Htok block doc tok Hb Hd Ht) as (doc0 & -> & _).
    apply Z.mod_pos_bound. exact HK.
  - intros block doc tok1 tok2 Hb Hd H1 H2.
    destruct (Htok block doc tok1 Hb Hd H1) as (doc0 & -> & Hdoc).
    rewrite Hdoc in H2. apply list_elem_of_fmap in H2 as (tok0 & -> & _). reflexivity.
Qed.

Lemma initialize_cold_start_topic_range_witness :
  (Initialize tt example_config [[[(-7, 3); (-2, 1)]; [(5, 9); (12, 9)]]]).1
  = [[[(-7, 0); (-2, 0)]; [(5, 12 mod num_topics example_config);
                           (12, 12 mod num_topics example_config)]]].
Proof.
  exact (proj1 (initialize_cold_start_topic_range tt example_config
                  [[[(-7, 3); (-2, 1)]; [(5, 9); (12, 9)]]]
                  eq_refl eq_refl)).
Defined.

(** X7. [Initialize] in either mode ([num_topics] not 0): the word ids and
    the shape of the data are kept, and the counts sent to the parameter
    store are those of the documents as the function leaves them: the total
    added to row [word], column [topic] of the word-topic table is the
    number of tokens of that word carrying that topic, and the total added
    to column [topic] of the summary row is the number of tokens carrying
    that topic. *)
Theorem initialize_counts_match_documents {R : Type} (rng : R) (cfg : Config)
    (blocks : list (list Document)) :
  num_topics cfg <> 0 ->
  let r := Initialize rng cfg blocks in
  (fun block : list Document => (fun doc : Document => fst <$> doc) <$> block) <$> r.1
  = (fun block : list Document => (fun doc : Document => fst <$> doc) <$> block) <$> blocks /\
  (forall word topic,
      word_topic_total word topic r.2
      = occurrences (fun tok => (tok.1 =? word) && (tok.2 =? topic)) r.1) /\
  (forall topic,
      summary_total topic r.2 = occurrences (fun tok => tok.2 =? topic) r.1).
Proof.
  intros _ r.
  assert (Hr : r = ((fun block : list Document =>
                       (fun doc : Document => (init_doc cfg doc).1) <$> block) <$> blocks,
                    List.flat_map
                      (fun block =>
                         List.flat_map (fun doc => (init_doc cfg doc).2) block ++ [Flush])
                      blocks)).
  { unfold r. apply Initialize_by_docs. intros doc. destruct (init_doc cfg doc); reflexivity. }
  assert (Hcalls : r.2 = List.flat_map
      (fun block =>
         List.flat_map
           (fun doc : Document => List.flat_map (fun tok => token_calls tok.2 tok) doc)
           block ++ [Flush]) r.1).
  { rewrite Hr. simpl. clear. induction blocks as [|block blocks IH]; [reflexivity|].
    rewrite fmap_cons. simpl List.flat_map. rewrite IH. f_equal. f_equal.
    clear. induction block as [|doc block IH]; [reflexivity|].
    rewrite fmap_cons. simpl List.flat_map. rewrite IH, init_doc_calls. reflexivity. }
  split; [|split].
  - rewrite Hr. simpl. rewrite <- list_fmap_compose.
    apply fmap_ext_all. intros block. simpl. rewrite <- list_fmap_compose.
    apply fmap_ext_all. intros doc. simpl. rewrite init_doc_any. simpl.
    rewrite <- list_fmap_compose. apply fmap_ext_all. intros tok. reflexivity.
  - intros word topic. rewrite Hcalls. apply totals_of_blocks.
  - intros topic. rewrite Hcalls. apply (totals_of_blocks r.1 0 topic).
Qed.

Lemma initialize_counts_match_documents_witness :
  let r := Initialize tt example_config [[[(7, 3); (2, 1)]; [(2, 5)]]; [[(2, 0)]]] in
  word_topic_total 2 2 r.2 = 2 /\ summary_total 7 r.2 = 2.
Proof.
  pose proof (initialize_counts_match_documents tt example_config
                [[[(7, 3); (2, 1)]; [(2, 5)]]; [[(2, 0)]]] ltac:(discriminate)) as Hx.
  destruct Hx as (_ & Hw & Hs).
  split; [exact (Hw 2 2) | exact (Hs 7)].
Defined.

(** X8. The documents [Initialize] produces with [warm_start] off pass the
    check [TrainIteration] makes at iteration 0 on slice 0 when [word_init]
    is off (all the tokens of a document carry one topic): whatever the
    iteration and the slice, a thread's call on such a block is never ended
    by a fatal log and samples every document of its partition. *)
Theorem cold_start_passes_first_check `{Collaborators} {R : Type} (rng : R)
    (cfg : Config) (blocks : list (list Document))
    (id trainer_num : Z) (b : LDADataBlock)
    (docs : list Document) (w : world) (barrier : nat -> bool) :
  warm_start cfg = false -> word_init cfg = false -> 0 < num_topics cfg ->
  1 <= trainer_num -> 0 <= id ->
  Z.of_nat (length docs) + trainer_num <= 2 ^ 31 ->
  docs ∈ (Initialize rng cfg blocks).1 ->
  let o := TrainIteration cfg id trainer_num b (enter docs w barrier) in
  let tr := ts_trace (final_state o) in
  (forall doc, doc ∈ docs -> consistent cfg doc = true) /\
  halted o = false /\
  (forall m, EvFatal m ∉ tr) /\
  (forall x, x ∈ doc_ids (Z.of_nat (length docs)) id trainer_num -> EvSampleOneDoc x ∈ tr).
Proof.
  intros Hcold Hwi HK HT Hid Hsz Hdocs o tr.
  assert (Hcons : forall doc, doc ∈ docs -> consistent cfg doc = true).
  { intros doc Hdoc.
    rewrite (Initialize_by_docs rng cfg blocks
               (fun doc => (fun tok => (tok.1, max_word doc mod num_topics cfg)) <$> doc)
               (fun doc => List.flat_map (token_calls (max_word doc mod num_topics cfg)) doc))
      in Hdocs by (intros doc0; apply init_doc_cold_floor; assumption).
    simpl in Hdocs. apply list_elem_of_fmap in Hdocs as (block0 & -> & _).
    apply list_elem_of_fmap in Hdoc as (doc0 & -> & _).
    unfold consistent. rewrite Hwi.
    destruct doc0 as [|first rest]; [reflexivity|].
    rewrite fmap_cons. apply forallb_forall. intros tok Hin.
    apply list_elem_of_In, list_elem_of_fmap in Hin as (tok0 & -> & _).
    apply Z.eqb_refl. }
  assert (Hall : forall x, check_passes cfg (lda_iteration b) (lda_slice b)
                             (GetOneDoc docs x) = true).
  { intros x. unfold check_passes. apply orb_true_iff. right.
    unfold GetOneDoc. destruct (x <? 0); [unfold consistent; rewrite Hwi; reflexivity|].
    destruct (docs !! Z.to_nat x) as [doc|] eqn:Hx; simpl.
    - apply Hcons. eapply list_elem_of_lookup_2. exact Hx.
    - unfold consistent. rewrite Hwi. reflexivity. }
  destruct (TrainIteration_completes cfg id trainer_num b docs w barrier)
    as (Hh & n & docs' & w' & Htr).
  { apply NoDup_doc_ids; assumption. }
  { intros x _. apply Hall. }
  fold o in Hh, Htr. fold tr in Htr.
  split; [exact Hcons|]. split; [exact Hh|]. split.
  - intros m. rewrite Htr. apply no_fatal_in_complete_run.
  - intros x Hx. rewrite Htr. apply elem_of_app. right. apply elem_of_app. left.
    apply list_elem_of_fmap_2. exact Hx.
Qed.

Lemma cold_start_passes_first_check_witness :
  let o := @TrainIteration example_collaborators example_cold_config 0 1
             (example_block 0 0 0)
             (@enter example_collaborators [[(3, 1); (9, 1)]; [(2, 2)]] tt
                     (example_barrier 0)) in
  halted o = false.
Proof.
  intros o.
  pose proof (@cold_start_passes_first_check example_collaborators unit tt
                example_cold_config [[[(3, 0); (9, 0)]; [(2, 0)]]] 0 1
                (example_block 0 0 0) [[(3, 1); (9, 1)]; [(2, 2)]] tt (example_barrier 0)
                eq_refl eq_refl eq_refl ltac:(lia) ltac:(lia) ltac:(simpl; lia)
                ltac:(apply list_elem_of_here))
    as (_ & Hh & _).
  exact Hh.
Defined.

(** ** [TrainIteration]: documents touched, documents sampled, barrier waits *)

Lemma sampled_docs_app l1 l2 : sampled_docs (l1 ++ l2) = sampled_docs l1 ++ sampled_docs l2.
Proof. apply omap_app. Qed.

Lemma sampled_docs_samples (l : list Z) : sampled_docs (EvSampleOneDoc <$> l) = l.
Proof.
  induction l as [|x l IH]; [reflexivity|].
  rewrite fmap_cons. unfold sampled_docs. simpl. f_equal. exact IH.
Qed.

Lemma sampled_docs_none (k : event -> bool) l :
  (forall x, k (EvSampleOneDoc x) = false) ->
  Forall (fun e => k e = true) l -> sampled_docs l = [].
Proof.
  intros Hk. induction 1 as [|e l He _ IH]; [reflexivity|].
  unfold sampled_docs. simpl. destruct e; try exact IH.
  rewrite Hk in He. discriminate.
Qed.

Section TrainerShapes.
Context `{Collaborators}.

Lemma sampled_docs_opening cfg id trainer_num b barrier :
  sampled_docs (opening_events cfg id trainer_num b barrier) = [].
Proof.
  apply (sampled_docs_none opening_kind); [reflexivity | apply opening_events_kind].
Qed.

Lemma sampled_docs_ending cfg id trainer_num b n docs w barrier :
  sampled_docs (ending_events cfg id trainer_num b n docs w barrier) = [].
Proof.
  destruct (ending_events_split cfg id trainer_num b n docs w barrier)
    as (X & -> & Hk & _).
  rewrite sampled_docs_app, (sampled_docs_none evaluation_kind X) by (reflexivity || exact Hk).
  destruct (_ =? _); reflexivity.
Qed.

Lemma waits_evaluate_events id trainer_num b docs w e1 e2 e3 :
  waits (evaluate_events id trainer_num b docs w e1 e2 e3) = S (gated_waits b).
Proof.
  unfold evaluate_events, gated_wait_events, gated_waits.
  rewrite !waits_app.
  destruct (lda_slice b =? 0), (lda_block b =? 0), (id =? 0), e1, e2; reflexivity.
Qed.

Lemma waits_ending_events cfg id trainer_num b n docs w barrier :
  waits (ending_events cfg id trainer_num b n docs w barrier) = closing_waits b.
Proof.
  unfold ending_events, closing_events, closing_waits.
  rewrite !waits_app.
  destruct (Int32.rem (lda_iteration b) 2 =? 0).
  - rewrite waits_app, waits_evaluate_events.
    destruct (id =? 0), (lda_iteration b =? Int32.wrap (num_iterations cfg - 1));
      generalize (gated_waits b); intros g; unfold waits; simpl; lia.
  - destruct (id =? 0), (lda_iteration b =? Int32.wrap (num_iterations cfg - 1));
      reflexivity.
Qed.

End TrainerShapes.

(** X9. A call of [TrainIteration] by thread [id] stores documents only at
    the ids of its own partition: the block keeps its size, a document
    whose id is not [id] modulo [trainer_num] is left as it was, and so is
    every document of the partition of another thread.  This holds whether
    the call runs to its end or is stopped by a fatal log. *)
Theorem train_iteration_private_documents `{Collaborators}
    (cfg : Config) (id trainer_num : Z) (b : LDADataBlock)
    (docs : list Document) (w : world) (barrier : nat -> bool) :
  0 <= id < trainer_num ->
  Z.of_nat (length docs) + trainer_num <= 2 ^ 31 ->
  let o := TrainIteration cfg id trainer_num b (enter docs w barrier) in
  let docs' := ts_docs (final_state o) in
  length docs' = length docs /\
  (forall y, (y - id) mod trainer_num <> 0 -> GetOneDoc docs' y = GetOneDoc docs y) /\
  (forall id2 y, 0 <= id2 < trainer_num -> id2 <> id ->
     y ∈ doc_ids (Z.of_nat (length docs)) id2 trainer_num ->
     GetOneDoc docs' y = GetOneDoc docs y).
Proof.
  intros Hid Hsz o docs'.
  destruct (TrainIteration_docs cfg id trainer_num b docs w barrier) as [Hlen Hfr].
  fold o in Hlen, Hfr. fold docs' in Hlen, Hfr.
  split; [exact Hlen|]. split.
  - intros y Hy. apply Hfr. intros Hin.
    apply elem_of_doc_ids in Hin as [_ Hm]; [|lia..]. contradiction.
  - intros id2 y Hid2 Hne Hy. apply Hfr. intros Hin. apply Hne.
    eapply doc_ids_disjoint; [| |exact Hsz|exact Hy|exact Hin]; assumption.
Qed.

Lemma train_iteration_private_documents_witness :
  let o := @TrainIteration example_collaborators example_config 0 2 (example_block 0 0 1)
             (@enter example_collaborators example_docs tt (example_barrier 0)) in
  GetOneDoc (ts_docs (final_state o)) 1 = GetOneDoc example_docs 1.
Proof.
  intros o.
  pose proof (@train_iteration_private_documents example_collaborators example_config
                0 2 (example_block 0 0 1) example_docs tt (example_barrier 0)
                ltac:(lia) ltac:(simpl; lia)) as (_ & Hfr & _).
  apply Hfr. discriminate.
Defined.

(** X10. The documents a call of [TrainIteration] passes to the sampler are
    an initial part of the thread's partition, in increasing order and each
    once; they are the whole partition exactly when the call is not stopped
    by a fatal log; and the call is never stopped unless it is the one of
    iteration 0 on slice 0, the only one that checks the documents. *)
Theorem train_iteration_samples_partition `{Collaborators}
    (cfg : Config) (id trainer_num : Z) (b : LDADataBlock)
    (docs : list Document) (w : world) (barrier : nat -> bool) :
  1 <= trainer_num -> 0 <= id ->
  Z.of_nat (length docs) + trainer_num <= 2 ^ 31 ->
  let o := TrainIteration cfg id trainer_num b (enter docs w barrier) in
  let tr := ts_trace (final_state o) in
  let ids := doc_ids (Z.of_nat (length docs)) id trainer_num in
  (exists rest, ids = sampled_docs tr ++ rest /\ (halted o = false <-> rest = [])) /\
  NoDup (sampled_docs tr) /\
  (forall x, x ∈ sampled_docs tr <-> EvSampleOneDoc x ∈ tr) /\
  ((lda_iteration b =? 0) && (lda_slice b =? 0) = false ->
     halted o = false /\ sampled_docs tr = ids /\ forall m, EvFatal m ∉ tr).
Proof.
  intros HT Hid Hsz o tr ids.
  assert (Hnd : NoDup ids) by (apply NoDup_doc_ids; assumption).
  destruct (TrainIteration_run cfg id trainer_num b docs w barrier)
    as (l1 & tail & Htr & _ & Hcase).
  fold o in Htr, Hcase. fold tr in Htr. fold ids in Hcase.
  assert (Hs : sampled_docs tr = l1).
  { rewrite Htr, !sampled_docs_app, sampled_docs_opening, sampled_docs_samples.
    destruct Hcase as [(_ & _ & n & docs' & w' & ->) | (_ & d & l2 & m & _ & -> & _)].
    - rewrite sampled_docs_ending, app_nil_r. reflexivity.
    - rewrite app_nil_r. reflexivity. }
  assert (Hpre : exists rest, ids = l1 ++ rest /\ (halted o = false <-> rest = [])).
  { destruct Hcase as [(Hh & -> & _) | (Hh & d & l2 & m & Hids & _)].
    - exists []. rewrite app_nil_r. split; [reflexivity|]. split; auto.
    - exists (d :: l2). split; [exact Hids|]. rewrite Hh. split; discriminate. }
  split; [rewrite Hs; exact Hpre|]. split; [|split].
  - rewrite Hs. destruct Hpre as (rest & Hids & _). rewrite Hids in Hnd.
    apply NoDup_app in Hnd as (Hnd & _). exact Hnd.
  - intros x. rewrite Hs. split.
    + intros Hx. rewrite Htr. apply elem_of_app. right. apply elem_of_app. left.
      apply list_elem_of_fmap_2. exact Hx.
    + intros Hin. unfold sampled_docs in Hs. rewrite <- Hs.
      apply list_elem_of_omap. exists (EvSampleOneDoc x). split; [exact Hin | reflexivity].
  - intros Hgate.
    destruct (TrainIteration_completes cfg id trainer_num b docs w barrier Hnd)
      as (Hh & n & docs' & w' & Htr').
    { intros x _. unfold check_passes. rewrite Hgate. reflexivity. }
    fold o in Hh, Htr'. fold tr in Htr'. fold ids in Htr'.
    split; [exact Hh|]. split.
    + rewrite Htr', !sampled_docs_app, sampled_docs_opening, sampled_docs_samples,
        sampled_docs_ending, app_nil_r. reflexivity.
    + intros m. rewrite Htr'. apply no_fatal_in_complete_run.
Qed.

Lemma train_iteration_samples_partition_witness :
  let o := @TrainIteration example_collaborators example_config 1 2 (example_block 0 1 0)
             (@enter example_collaborators example_bad_docs tt (example_barrier 1)) in
  halted o = false /\ sampled_docs (ts_trace (final_state o)) = [1].
Proof.
  intros o.
  pose proof (@train_iteration_samples_partition example_collaborators example_config
                1 2 (example_block 0 1 0) example_bad_docs tt (example_barrier 1)
                ltac:(lia) ltac:(lia) ltac:(simpl; lia)) as (_ & _ & _ & Hoff).
  destruct (Hoff eq_refl) as (Hh & Hs & _). split; [exact Hh | exact Hs].
Defined.

(** X11. The number of times a call of [TrainIteration] waits at the
    barrier does not depend on the thread, the documents or what the
    collaborators return: a call that runs to its end waits twice on an odd
    iteration and, on an even one, three times plus once if [slice == 0]
    and once if [block == 0]; a call stopped by a fatal log has waited
    twice.  All the threads of a process that run to the end of the call on
    one block therefore meet at every barrier. *)
Theorem train_iteration_barrier_count `{Collaborators}
    (cfg : Config) (id trainer_num : Z) (b : LDADataBlock)
    (docs : list Document) (w : world) (barrier : nat -> bool) :
  let o := TrainIteration cfg id trainer_num b (enter docs w barrier) in
  waits (ts_trace (final_state o))
  = if halted o then 2%nat
    else if Int32.rem (lda_iteration b) 2 =? 0
         then (3 + (if (lda_slice b =? 0)%Z then 1 else 0)
                 + (if (lda_block b =? 0)%Z then 1 else 0))%nat
         else 2%nat.
Proof.
  intros o.
  destruct (TrainIteration_run cfg id trainer_num b docs w barrier)
    as (l1 & tail & Htr & _ & Hcase).
  fold o in Htr, Hcase. rewrite Htr, !waits_app, waits_opening_events, waits_samples.
  destruct Hcase as [(-> & _ & n & docs' & w' & ->) | (-> & d & l2 & m & _ & -> & _)].
  - rewrite waits_ending_events. unfold closing_waits, gated_waits.
    destruct (Int32.rem (lda_iteration b) 2 =? 0); lia.
  - reflexivity.
Qed.

(** ** The threads under the barrier: the first barrier and the likelihood logs *)

Lemma waits_before_occurrence (l P Q d t : list event) a :
  l = P ++ Q -> l = d ++ a :: t -> a ∉ P -> (waits P <= waits d)%nat.
Proof.
  intros HP Hd Ha. rewrite HP in Hd.
  destruct (split_before (fun e => e <> a) P Q d t a Hd) as (l' & -> & _).
  - intros x Hx ->. contradiction.
  - intros Hne. apply Hne. reflexivity.
  - rewrite waits_app. lia.
Qed.

Lemma waits_prefix (d t : list event) : (waits d <= waits (d ++ t))%nat.
Proof. rewrite waits_app. lia. Qed.

Section LikelihoodLogs.
Context `{Collaborators}.
Variables (cfg : Config) (trainer_num : Z) (b : LDADataBlock).
Variables (docs : list Document) (w : Z -> world) (barrier : Z -> nat -> bool).

Let prog := thread_program cfg trainer_num b docs w barrier.

(** The part of a call that ran to its end up to the first addition to
    [doc_llh_], that addition included. *)
Let doc_head (id n : Z) : list event :=
  opening_events cfg id trainer_num b (barrier id)
  ++ (EvSampleOneDoc <$> doc_ids (Z.of_nat (length docs)) id trainer_num)
  ++ (if id =? 0 then [EvInfo InfoTrainingTime; EvInfo (InfoThroughput n)] else [])
  ++ [EvLock; EvAddDocLLH (final_doc_llh cfg trainer_num b docs w barrier id); EvUnlock].

(** ... and up to the addition to [word_llh_]. *)
Let word_head (id n : Z) (e_doc : bool) : list event :=
  doc_head id n
  ++ gated_wait_events (lda_slice b =? 0) e_doc InfoDocLikelihood EvResetDocLLH
  ++ [EvLock; EvAddWordLLH (final_word_llh cfg trainer_num b docs w barrier id); EvUnlock].

(** A call ends at a fatal log after two waits, or after the closing phase
    of an odd iteration (two waits), or it has gone through [Evaluate]. *)
Lemma thread_program_shapes id :
  (waits (prog id) = 2%nat /\
   Forall (fun e => is_doc_likelihood_log e = false) (prog id) /\
   Forall (fun e => is_word_likelihood_log e = false) (prog id)) \/
  (Int32.rem (lda_iteration b) 2 = 0 /\
   exists n e_doc e_word rest,
     prog id = word_head id n e_doc
               ++ gated_wait_events (lda_block b =? 0) e_word
                    InfoWordLikelihood EvResetWordLLH
               ++ rest /\
     Forall (fun e => is_doc_likelihood_log e = false) rest /\
     Forall (fun e => is_word_likelihood_log e = false) rest).
Proof.
  destruct (halted (TrainIteration cfg id trainer_num b
                      (enter docs (w id) (barrier id)))) eqn:Hh.
  - left.
    destruct (TrainIteration_run cfg id trainer_num b docs (w id) (barrier id))
      as (l1 & tail & Hp & _ & [(Hh' & _) | (_ & d & l2 & m & _ & -> & _)]);
      [congruence|].
    change (ts_trace (final_state (TrainIteration cfg id trainer_num b
                                     (enter docs (w id) (barrier id)))))
      with (prog id) in Hp.
    split; [|split].
    + rewrite Hp, !waits_app, waits_opening_events, waits_samples. reflexivity.
    + rewrite Hp. unfold opening_events, build_events. kinds.
    + rewrite Hp. unfold opening_events, build_events. kinds.
  - destruct (TrainIteration_final cfg id trainer_num b docs (w id) (barrier id) Hh)
      as (n & Hp).
    change (ts_trace (final_state (TrainIteration cfg id trainer_num b
                                     (enter docs (w id) (barrier id)))))
      with (prog id) in Hp.
    change (final_state (TrainIteration cfg id trainer_num b
                           (enter docs (w id) (barrier id))))
      with (thread_final cfg trainer_num b docs w barrier id) in Hp.
    destruct (Int32.rem (lda_iteration b) 2 =? 0) eqn:Heven.
    + right. split; [apply Z.eqb_eq, Heven|].
      exists n. do 2 eexists. eexists.
      split; [|split].
      * rewrite Hp. unfold word_head, doc_head, final_doc_llh, final_word_llh,
          ending_events, closing_events, evaluate_events.
        rewrite Heven, <- !app_assoc. reflexivity.
      * kinds.
      * kinds.
    + left. split; [|split].
      * rewrite Hp, !waits_app, waits_opening_events, waits_samples,
          waits_ending_events. unfold closing_waits. rewrite Heven. reflexivity.
      * rewrite Hp. unfold ending_events, closing_events, opening_events, build_events.
        rewrite Heven. kinds.
      * rewrite Hp. unfold ending_events, closing_events, opening_events, build_events.
        rewrite Heven. kinds.
Qed.

Lemma waits_doc_head id n : waits (doc_head id n) = 2%nat.
Proof.
  unfold doc_head. rewrite !waits_app, waits_opening_events, waits_samples.
  destruct (id =? 0); reflexivity.
Qed.

Lemma waits_word_head id n e_doc :
  waits (word_head id n e_doc) = (2 + (if (lda_slice b =? 0)%Z then 1 else 0))%nat.
Proof.
  unfold word_head. rewrite !waits_app, waits_doc_head. unfold gated_wait_events.
  destruct (lda_slice b =? 0), e_doc; reflexivity.
Qed.

Lemma doc_head_no_log id n :
  Forall (fun e => is_doc_likelihood_log e = false) (doc_head id n).
Proof. unfold doc_head, opening_events, build_events. kinds. Qed.

Lemma word_head_no_log id n e_doc :
  Forall (fun e => is_word_likelihood_log e = false) (word_head id n e_doc).
Proof.
  unfold word_head, doc_head, opening_events, build_events, gated_wait_events. kinds.
Qed.

Lemma not_log_not_in (k : event -> bool) l e :
  Forall (fun x => k x = false) l -> k e = true -> e ∉ l.
Proof.
  intros Hall He Hin. rewrite Forall_forall in Hall. apply Hall in Hin. congruence.
Qed.

(** The document likelihood is logged behind three waits, on slice 0 of an
    even iteration only. *)
Lemma doc_log_behind_three_waits id d t :
  prog id = d ++ EvInfo InfoDocLikelihood :: t ->
  (3 <= waits d)%nat /\ lda_slice b = 0 /\ Int32.rem (lda_iteration b) 2 = 0.
Proof.
  intros Hd.
  destruct (thread_program_shapes id)
    as [(_ & Hnd & _) | (Heven & n & e_doc & e_word & rest & Hp & Hrd & _)].
  - exfalso. rewrite Hd in Hnd. apply Forall_app in Hnd as [_ Hnd].
    apply Forall_cons in Hnd as [Hnd _]. discriminate.
  - unfold word_head in Hp. destruct (lda_slice b =? 0) eqn:Hs.
    + split; [|split; [apply Z.eqb_eq, Hs | exact Heven]].
      assert (Hw : waits (doc_head id n ++ [EvWait e_doc]) = 3%nat)
        by (rewrite waits_app, waits_doc_head; reflexivity).
      rewrite <- Hw.
      eapply (waits_before_occurrence (prog id) _ _ d t); [|exact Hd|].
      * rewrite Hp. unfold gated_wait_events at 1. rewrite <- !app_assoc. reflexivity.
      * apply (not_log_not_in is_doc_likelihood_log); [|reflexivity].
        apply Forall_app. split; [apply doc_head_no_log | repeat constructor].
    + exfalso.
      assert (Hnd : Forall (fun e => is_doc_likelihood_log e = false) (prog id)).
      { rewrite Hp. rewrite !Forall_app. split; [split; [apply doc_head_no_log|]|].
        - repeat constructor.
        - split; [|exact Hrd]. unfold gated_wait_events. kinds. }
      rewrite Hd in Hnd. apply Forall_app in Hnd as [_ Hnd].
      apply Forall_cons in Hnd as [Hnd _]. discriminate.
Qed.

(** A thread that has passed three waits has added its partial sum to
    [doc_llh_]. *)
Lemma add_doc_within_three_waits id di ti :
  prog id = di ++ ti -> (3 <= waits di)%nat ->
  EvAddDocLLH (final_doc_llh cfg trainer_num b docs w barrier id) ∈ di.
Proof.
  intros Hd Hw.
  destruct (thread_program_shapes id)
    as [(Hw2 & _) | (_ & n & e_doc & e_word & rest & Hp & _)].
  - exfalso. rewrite Hd in Hw2. pose proof (waits_prefix di ti). lia.
  - rewrite Hd in Hp. unfold word_head in Hp. rewrite <- !app_assoc in Hp.
    eapply prefix_by_waits; [exact Hp | rewrite waits_doc_head; lia |].
    unfold doc_head. apply elem_of_app. right. apply elem_of_app. right.
    apply elem_of_app. right. right. left.
Qed.

(** The word likelihood is logged behind the waits that precede it, on
    block 0 of an even iteration only. *)
Lemma word_log_behind_waits id d t :
  prog id = d ++ EvInfo InfoWordLikelihood :: t ->
  (3 + (if (lda_slice b =? 0)%Z then 1 else 0) <= waits d)%nat /\
  lda_block b = 0 /\ Int32.rem (lda_iteration b) 2 = 0.
Proof.
  intros Hd.
  destruct (thread_program_shapes id)
    as [(_ & _ & Hnw) | (Heven & n & e_doc & e_word & rest & Hp & _ & Hrw)].
  - exfalso. rewrite Hd in Hnw. apply Forall_app in Hnw as [_ Hnw].
    apply Forall_cons in Hnw as [Hnw _]. discriminate.
  - destruct (lda_block b =? 0) eqn:Hb.
    + split; [|split; [apply Z.eqb_eq, Hb | exact Heven]].
      assert (Hw : waits (word_head id n e_doc ++ [EvWait e_word])
                   = (3 + (if (lda_slice b =? 0)%Z then 1 else 0))%nat).
      { rewrite waits_app, waits_word_head.
        change (waits [EvWait e_word]) with 1%nat. lia. }
      rewrite <- Hw.
      eapply (waits_before_occurrence (prog id) _ _ d t); [|exact Hd|].
      * rewrite Hp. unfold gated_wait_events at 1. rewrite <- !app_assoc. reflexivity.
      * apply (not_log_not_in is_word_likelihood_log); [|reflexivity].
        apply Forall_app. split; [apply word_head_no_log | repeat constructor].
    + exfalso.
      assert (Hnw : Forall (fun e => is_word_likelihood_log e = false) (prog id)).
      { rewrite Hp. rewrite !Forall_app. split; [apply word_head_no_log|].
        split; [constructor | exact Hrw]. }
      rewrite Hd in Hnw. apply Forall_app in Hnw as [_ Hnw].
      apply Forall_cons in Hnw as [Hnw _]. discriminate.
Qed.

Lemma add_word_within_waits id di ti :
  prog id = di ++ ti ->
  (3 + (if (lda_slice b =? 0)%Z then 1 else 0) <= waits di)%nat ->
  EvAddWordLLH (final_word_llh cfg trainer_num b docs w barrier id) ∈ di.
Proof.
  intros Hd Hw.
  destruct (thread_program_shapes id)
    as [(Hw2 & _) | (_ & n & e_doc & e_word & rest & Hp & _)].
  - exfalso. rewrite Hd in Hw2. pose proof (waits_prefix di ti).
    destruct (lda_slice b =? 0); lia.
  - rewrite Hd in Hp.
    eapply prefix_by_waits; [exact Hp | rewrite waits_word_head; lia |].
    unfold word_head. apply elem_of_app. right. apply elem_of_app. right.
    right. left.
Qed.

(** Every sparse or dense build of a thread stands behind its first wait. *)
Lemma build_behind_first_wait id d word t :
  prog id = d ++ EvBuild word :: t -> (1 <= waits d)%nat.
Proof.
  intros Hd.
  destruct (thread_program_run cfg trainer_num b docs w barrier id)
    as (l1 & tail & Hp & _).
  fold (prog id) in Hp. rewrite opening_events_split in Hp.
  unfold before_sampling_barrier in Hp. rewrite <- !app_assoc in Hp.
  rewrite app_assoc in Hp.
  assert (Hw : waits ((if id =? 0
                       then [EvInfo (InfoSlice (lda_iteration b) (lda_block b) (lda_slice b));
                             EvInit (lda_block b) (lda_slice b)]
                       else []) ++ [EvWait (barrier id 0%nat)]) = 1%nat)
    by (destruct (id =? 0); reflexivity).
  rewrite <- Hw.
  eapply (waits_before_occurrence (prog id) _ _ d t); [exact Hp | exact Hd |].
  intros Hin. apply elem_of_app in Hin as [Hin | Hin].
  - destruct (id =? 0); [|inversion Hin].
    apply elem_of_cons in Hin as [Hin | Hin]; [discriminate|].
    apply list_elem_of_singleton in Hin. discriminate.
  - apply list_elem_of_singleton in Hin. discriminate.
Qed.

(** Thread 0, once past a wait, has installed the index of the slice. *)
Lemma init_within_first_wait di ti :
  prog 0 = di ++ ti -> (1 <= waits di)%nat ->
  EvInit (lda_block b) (lda_slice b) ∈ di.
Proof.
  intros Hd Hw.
  destruct (thread_program_run cfg trainer_num b docs w barrier 0)
    as (l1 & tail & Hp & _).
  fold (prog 0) in Hp. rewrite opening_events_split in Hp.
  unfold before_sampling_barrier in Hp. change (0 =? 0) with true in Hp.
  rewrite Hd in Hp. rewrite <- !app_assoc in Hp.
  eapply prefix_by_waits; [exact Hp | | right; left].
  change (waits [EvInfo (InfoSlice (lda_iteration b) (lda_block b) (lda_slice b));
                 EvInit (lda_block b) (lda_slice b)]) with 0%nat. lia.
Qed.

End LikelihoodLogs.

(** X12. In every execution of the threads of a process under the barrier,
    when a thread logs the document likelihood every thread of the process
    has already added its partial sum to [doc_llh_] (the one computed on
    the documents as its own sampling left them), and this happens on slice
    0 of an even iteration only; likewise the word likelihood is logged
    only on block 0 of an even iteration, after every thread has added its
    partial sum to [word_llh_].  In particular no likelihood is logged in
    an execution where a thread was stopped by a fatal log. *)
Theorem likelihood_logged_after_all_added `{Collaborators}
    (cfg : Config) (trainer_num : Z) (b : LDADataBlock)
    (docs : list Document) (w : Z -> world) (barrier : Z -> nat -> bool)
    (sched : list choice) (g : gstate) :
  gexec sched (ginit (programs cfg trainer_num b docs w barrier)) = Some g ->
  (forall tr1 j tr2,
      g_trace g = tr1 ++ (j, EvInfo InfoDocLikelihood) :: tr2 ->
      Int32.rem (lda_iteration b) 2 = 0 /\ lda_slice b = 0 /\
      forall i : nat, Z.of_nat i < trainer_num ->
        (i, EvAddDocLLH (final_doc_llh cfg trainer_num b docs w barrier (Z.of_nat i)))
        ∈ tr1) /\
  (forall tr1 j tr2,
      g_trace g = tr1 ++ (j, EvInfo InfoWordLikelihood) :: tr2 ->
      Int32.rem (lda_iteration b) 2 = 0 /\ lda_block b = 0 /\
      forall i : nat, Z.of_nat i < trainer_num ->
        (i, EvAddWordLLH (final_word_llh cfg trainer_num b docs w barrier (Z.of_nat i)))
        ∈ tr1).
Proof.
  intros Hex. split.
  - intros tr1 j tr2 Htr.
    destruct (executed_after_barriers _ _ _ _ _ _ _ Hex Htr) as (d & t & Hj & Hall).
    apply programs_lookup in Hj as [Hj Hjlt].
    destruct (doc_log_behind_three_waits cfg trainer_num b docs w barrier
                (Z.of_nat j) d t (eq_sym Hj)) as (Hw3 & Hs & Heven).
    split; [exact Heven|]. split; [exact Hs|].
    intros i Hi.
    destruct (Hall i (thread_program cfg trainer_num b docs w barrier (Z.of_nat i)))
      as (di & ti & Hdi & Hwi & Hin).
    { apply programs_lookup. auto. }
    apply Hin; [|reflexivity].
    eapply add_doc_within_three_waits; [exact Hdi | lia].
  - intros tr1 j tr2 Htr.
    destruct (executed_after_barriers _ _ _ _ _ _ _ Hex Htr) as (d & t & Hj & Hall).
    apply programs_lookup in Hj as [Hj Hjlt].
    destruct (word_log_behind_waits cfg trainer_num b docs w barrier
                (Z.of_nat j) d t (eq_sym Hj)) as (Hw3 & Hb & Heven).
    split; [exact Heven|]. split; [exact Hb|].
    intros i Hi.
    destruct (Hall i (thread_program cfg trainer_num b docs w barrier (Z.of_nat i)))
      as (di & ti & Hdi & Hwi & Hin).
    { apply programs_lookup. auto. }
    apply Hin; [|reflexivity].
    eapply add_word_within_waits; [exact Hdi | lia].
Qed.

Lemma likelihood_logged_after_all_added_witness :
  let progs := @programs example_collaborators example_config 2
                 (example_block 0 0 0) example_docs (fun _ => tt) example_barrier in
  exists g tr1 tr2,
    gexec example_even_schedule (ginit progs) = Some g /\
    g_trace g = tr1 ++ (0%nat, EvInfo InfoDocLikelihood) :: tr2 /\
    (1%nat, EvAddDocLLH 1%float) ∈ tr1.
Proof.
  intros progs.
  eexists.
  exists [(0%nat, EvInfo (InfoSlice 0 0 0)); (0%nat, EvInit 0 0); (0%nat, EvBuild 0);
          (0%nat, EvBuild 2); (0%nat, EvBuild (-1)); (0%nat, EvInfo InfoNonZeroTopic);
          (0%nat, EvInitAsymmetricAlpha); (1%nat, EvBuild 1);
          (0%nat, EvInfo InfoAliasTime); (0%nat, EvSampleOneDoc 0);
          (0%nat, EvInfo InfoTrainingTime); (0%nat, EvInfo (InfoThroughput 2));
          (0%nat, EvLock); (0%nat, EvAddDocLLH 1%float); (0%nat, EvUnlock);
          (1%nat, EvSampleOneDoc 1); (1%nat, EvLock); (1%nat, EvAddDocLLH 1%float);
          (1%nat, EvUnlock)],
         [(0%nat, EvResetDocLLH); (0%nat, EvLock); (0%nat, EvAddWordLLH 2%float);
          (0%nat, EvUnlock); (1%nat, EvLock); (1%nat, EvAddWordLLH 1%float);
          (1%nat, EvUnlock); (0%nat, EvInfo InfoWordLikelihood);
          (0%nat, EvResetWordLLH); (0%nat, EvInfo InfoNormalizedLikelihood);
          (0%nat, EvInfo InfoEvaluationTime)].
  split; [vm_compute; reflexivity|].
  split; [reflexivity|].
  refine (proj2 (proj2 (proj1 (@likelihood_logged_after_all_added example_collaborators
            example_config 2 (example_block 0 0 0) example_docs (fun _ => tt)
            example_barrier example_even_schedule _ _) _ _ _ _)) 1%nat _);
    [vm_compute; reflexivity | reflexivity | reflexivity].
Defined.

(** X13. In every execution of the threads of a process under the barrier,
    no thread builds an alias table (a word's or the shared one) before
    thread 0 has installed the index of the slice: every [Build] follows
    thread 0's [Init]. *)
Theorem index_installed_before_builds `{Collaborators}
    (cfg : Config) (trainer_num : Z) (b : LDADataBlock)
    (docs : list Document) (w : Z -> world) (barrier : Z -> nat -> bool)
    (sched : list choice) (g : gstate) tr1 j word tr2 :
  gexec sched (ginit (programs cfg trainer_num b docs w barrier)) = Some g ->
  g_trace g = tr1 ++ (j, EvBuild word) :: tr2 ->
  (0%nat, EvInit (lda_block b) (lda_slice b)) ∈ tr1.
Proof.
  intros Hex Htr.
  destruct (executed_after_barriers _ _ _ _ _ _ _ Hex Htr) as (d & t & Hj & Hall).
  apply programs_lookup in Hj as [Hj Hjlt].
  pose proof (build_behind_first_wait cfg trainer_num b docs w barrier
                (Z.of_nat j) d word t (eq_sym Hj)) as Hw1.
  destruct (Hall 0%nat (thread_program cfg trainer_num b docs w barrier 0))
    as (di & ti & Hdi & Hwi & Hin).
  { apply (programs_lookup cfg trainer_num b docs w barrier 0%nat).
    split; [reflexivity | lia]. }
  apply Hin; [|reflexivity].
  eapply init_within_first_wait; [exact Hdi | lia].
Qed.

Lemma index_installed_before_builds_witness :
  let progs := @programs example_collaborators example_config 2
                 (example_block 0 0 1) example_docs (fun _ => tt) example_barrier in
  exists g tr1 tr2,
    gexec example_schedule (ginit progs) = Some g /\
    g_trace g = tr1 ++ (1%nat, EvBuild 1) :: tr2 /\
    (0%nat, EvInit 0 0) ∈ tr1.
Proof.
  intros progs.
  eexists.
  exists [(0%nat, EvInfo (InfoSlice 1 0 0)); (0%nat, EvInit 0 0); (0%nat, EvBuild 0);
          (0%nat, EvBuild 2); (0%nat, EvBuild (-1)); (0%nat, EvInfo InfoNonZeroTopic);
          (0%nat, EvInitAsymmetricAlpha)],
         [(0%nat, EvInfo InfoAliasTime); (0%nat, EvSampleOneDoc 0);
          (0%nat, EvInfo InfoTrainingTime); (0%nat, EvInfo (InfoThroughput 2));
          (0%nat, EvClear); (1%nat, EvSampleOneDoc 1); (1%nat, EvClear)].
  split; [vm_compute; reflexivity|].
  split; [reflexivity|].
  refine (@index_installed_before_builds example_collaborators example_config 2
            (example_block 0 0 1) example_docs (fun _ => tt) example_barrier
            example_schedule _ _ _ _ _ _ _);
    [vm_compute; reflexivity | reflexivity].
Defined.

(** ** The training loop *)

Lemma mapM_total {A B} (f : A -> option B) (g : A -> B) (l : list A) :
  (forall x, x ∈ l -> f x = Some (g x)) -> mapM f l = Some (g <$> l).
Proof.
  induction l as [|x l IH]; intros Hf; [reflexivity|].
  simpl. rewrite (Hf x) by left. simpl.
  rewrite IH by (intros y Hy; apply Hf; right; exact Hy). reflexivity.
Qed.

Lemma mapM_fails {A B} (f : A -> option B) (l : list A) x :
  x ∈ l -> f x = None -> mapM f l = None.
Proof.
  induction l as [|y l IH]; intros Hx Hf; [inversion Hx|].
  simpl. apply elem_of_cons in Hx as [<- | Hx].
  - rewrite Hf. reflexivity.
  - destruct (f y); [|reflexivity]. simpl. rewrite IH by assumption. reflexivity.
Qed.

Lemma pushed_blocks_app l1 l2 :
  pushed_blocks (l1 ++ l2) = pushed_blocks l1 ++ pushed_blocks l2.
Proof. apply omap_app. Qed.

Lemma pushed_blocks_concat (ls : list (list train_call)) :
  pushed_blocks (concat ls) = concat (pushed_blocks <$> ls).
Proof.
  induction ls as [|l ls IH]; [reflexivity|].
  rewrite fmap_cons. simpl concat. rewrite pushed_blocks_app, IH. reflexivity.
Qed.

Lemma pushed_blocks_pushes i block (l : list Z) :
  pushed_blocks ((fun slice => PushDataBlock i block slice) <$> l)
  = (fun slice => (i, block, slice)) <$> l.
Proof.
  induction l as [|x l IH]; [reflexivity|].
  rewrite !fmap_cons. unfold pushed_blocks. simpl. f_equal. exact IH.
Qed.

Lemma elem_of_seqZ_0 (n x : Z) : x ∈ seqZ 0 n <-> 0 <= x < n.
Proof. rewrite elem_of_seqZ. lia. Qed.

Lemma train_clock_total num_blocks num_slice i :
  (forall block, 0 <= block < num_blocks -> 0 <= num_slice block) ->
  train_clock num_blocks num_slice i = Some (clock_calls num_blocks num_slice i).
Proof.
  intros Hn. unfold train_clock.
  rewrite (mapM_total _ (block_calls num_slice i)); [reflexivity|].
  intros block Hb. apply elem_of_seqZ_0 in Hb. unfold train_block.
  destruct (Z.ltb_spec (num_slice block) 0) as [Hlt|_]; [|reflexivity].
  specialize (Hn block Hb). lia.
Qed.

Lemma Train_total cfg num_blocks num_slice :
  (0 < num_iterations cfg ->
   forall block, 0 <= block < num_blocks -> 0 <= num_slice block) ->
  Train cfg num_blocks num_slice
  = Some ([BeginTrain]
          ++ concat (clock_calls num_blocks num_slice <$> seqZ 0 (num_iterations cfg))
          ++ [EndTrain]).
Proof.
  intros Hn. unfold Train.
  rewrite (mapM_total _ (clock_calls num_blocks num_slice)); [reflexivity|].
  intros i Hi. apply elem_of_seqZ_0 in Hi. apply train_clock_total, Hn. lia.
Qed.

Lemma pushed_blocks_block num_slice i block :
  pushed_blocks (block_calls num_slice i block) = block_triples num_slice i block.
Proof.
  unfold block_calls. rewrite !pushed_blocks_app, pushed_blocks_pushes.
  simpl. rewrite app_nil_r. reflexivity.
Qed.

Lemma pushed_blocks_clock num_blocks num_slice i :
  pushed_blocks (clock_calls num_blocks num_slice i) = clock_triples num_blocks num_slice i.
Proof.
  unfold clock_calls, clock_triples.
  rewrite !pushed_blocks_app, pushed_blocks_concat. simpl. rewrite app_nil_r.
  rewrite <- list_fmap_compose. f_equal.
  apply fmap_ext_all. intros block. apply pushed_blocks_block.
Qed.

Lemma elem_of_concat_fmap {A B} (f : A -> list B) (l : list A) y :
  y ∈ concat (f <$> l) <-> exists x, x ∈ l /\ y ∈ f x.
Proof.
  induction l as [|a l IH].
  - simpl. split; [intros Hy; inversion Hy | intros (x & Hx & _); inversion Hx].
  - rewrite fmap_cons. simpl concat. rewrite elem_of_app, IH. split.
    + intros [Hy | (x & Hx & Hy)]; [exists a; split; [left | exact Hy]|].
      exists x. split; [right; exact Hx | exact Hy].
    + intros (x & Hx & Hy). apply elem_of_cons in Hx as [-> | Hx]; [left; exact Hy|].
      right. exists x. auto.
Qed.

Lemma sorted_app {A} (R : A -> A -> Prop) (l1 l2 : list A) :
  StronglySorted R l1 -> StronglySorted R l2 ->
  (forall x y, x ∈ l1 -> y ∈ l2 -> R x y) ->
  StronglySorted R (l1 ++ l2).
Proof.
  intros H1 H2 H12. induction H1 as [|x l1 Hs IH Hx]; [exact H2|].
  simpl. constructor.
  - apply IH. intros a c Ha Hc. apply H12; [right; exact Ha | exact Hc].
  - apply Forall_app. split; [exact Hx|].
    apply Forall_forall. intros c Hc. apply H12; [left | exact Hc].
Qed.

(** Lists produced along an increasing range, each sorted and each below
    the later ones, concatenate to a sorted list. *)
Lemma sorted_concat_seqZ {A} (R : A -> A -> Prop) (f : Z -> list A) (n : nat) : forall lo,
  (forall k, StronglySorted R (f k)) ->
  (forall k1 k2 x y, k1 < k2 -> x ∈ f k1 -> y ∈ f k2 -> R x y) ->
  StronglySorted R (concat (f <$> seqZ lo (Z.of_nat n))).
Proof.
  induction n as [|n IH]; intros lo Hs Hlt.
  - simpl. constructor.
  - rewrite seqZ_cons by lia. rewrite fmap_cons. simpl concat.
    replace (Z.pred (Z.of_nat (S n))) with (Z.of_nat n) by lia.
    apply sorted_app; [apply Hs | apply IH; assumption |].
    intros x y Hx Hy. apply elem_of_concat_fmap in Hy as (k & Hk & Hy).
    apply elem_of_seqZ in Hk. eapply Hlt; [|exact Hx|exact Hy]. lia.
Qed.

Lemma sorted_concat_range {A} (R : A -> A -> Prop) (f : Z -> list A) (n : Z) :
  (forall k, StronglySorted R (f k)) ->
  (forall k1 k2 x y, k1 < k2 -> x ∈ f k1 -> y ∈ f k2 -> R x y) ->
  StronglySorted R (concat (f <$> seqZ 0 n)).
Proof.
  intros Hs Hlt. destruct (Z.le_gt_cases 0 n) as [Hn|Hn].
  - rewrite <- (Z2Nat.id n Hn). apply sorted_concat_seqZ; assumption.
  - unfold seqZ. replace (Z.to_nat n) with 0%nat by lia. simpl. constructor.
Qed.

Lemma elem_of_block_triples num_slice i block x :
  x ∈ block_triples num_slice i block <->
  x.1.1 = i /\ x.1.2 = block /\ 0 <= x.2 < num_slice block.
Proof.
  unfold block_triples. rewrite list_elem_of_fmap. split.
  - intros (s & -> & Hs). apply elem_of_seqZ_0 in Hs. auto.
  - destruct x as [[xi xb] xs]. simpl. intros (-> & -> & Hs).
    exists xs. split; [reflexivity | apply elem_of_seqZ_0, Hs].
Qed.

Lemma elem_of_clock_triples num_blocks num_slice i x :
  x ∈ clock_triples num_blocks num_slice i <->
  x.1.1 = i /\ 0 <= x.1.2 < num_blocks /\ 0 <= x.2 < num_slice x.1.2.
Proof.
  unfold clock_triples. rewrite elem_of_concat_fmap. split.
  - intros (block & Hb & Hx). apply elem_of_seqZ_0 in Hb.
    apply elem_of_block_triples in Hx as (Hi & <- & Hs). auto.
  - intros (Hi & Hb & Hs). exists x.1.2.
    split; [apply elem_of_seqZ_0, Hb | apply elem_of_block_triples; auto].
Qed.

Lemma sorted_block_triples num_slice i block :
  StronglySorted lex_lt (block_triples num_slice i block).
Proof.
  unfold block_triples.
  assert (Hgen : forall (n : nat) lo,
            StronglySorted lex_lt ((fun slice => (i, block, slice)) <$> seqZ lo (Z.of_nat n))).
  { induction n as [|n IH]; intros lo; [constructor|].
    rewrite seqZ_cons by lia. rewrite fmap_cons.
    replace (Z.pred (Z.of_nat (S n))) with (Z.of_nat n) by lia.
    constructor; [apply IH|].
    apply Forall_forall. intros y Hy. apply list_elem_of_fmap in Hy as (s & -> & Hs).
    apply elem_of_seqZ in Hs. unfold lex_lt. simpl. right. split; [reflexivity|].
    right. split; [reflexivity | lia]. }
  destruct (Z.le_gt_cases 0 (num_slice block)) as [Hn|Hn].
  - rewrite <- (Z2Nat.id _ Hn). apply Hgen.
  - unfold seqZ. replace (Z.to_nat (num_slice block)) with 0%nat by lia. constructor.
Qed.

Lemma sorted_clock_triples num_blocks num_slice i :
  StronglySorted lex_lt (clock_triples num_blocks num_slice i).
Proof.
  unfold clock_triples. apply sorted_concat_range.
  - intros block. apply sorted_block_triples.
  - intros b1 b2 x y Hlt Hx Hy.
    apply elem_of_block_triples in Hx as (Hxi & Hxb & _).
    apply elem_of_block_triples in Hy as (Hyi & Hyb & _).
    unfold lex_lt. right. split; [congruence|]. left. lia.
Qed.

Lemma length_concat_fmap {A B} (f : A -> list B) (l : list A) :
  Z.of_nat (length (concat (f <$> l)))
  = foldr (fun x acc => Z.of_nat (length (f x)) + acc) 0 l.
Proof.
  induction l as [|x l IH]; [reflexivity|].
  rewrite fmap_cons. simpl concat. rewrite length_app. simpl foldr. lia.
Qed.

Lemma length_seqZ_0 (n : Z) : Z.of_nat (length (seqZ 0 n)) = Z.max 0 n.
Proof. rewrite length_seqZ. lia. Qed.

Lemma foldr_const {A} (c : Z) (l : list A) :
  foldr (fun _ acc => c + acc) 0 l = Z.of_nat (length l) * c.
Proof. induction l as [|x l IH]; simpl length; simpl foldr; [lia|]. rewrite IH. lia. Qed.

Lemma sorted_NoDup (l : list (Z * Z * Z)) : StronglySorted lex_lt l -> NoDup l.
Proof.
  induction 1 as [|x l _ IH Hx]; constructor; [|exact IH].
  intros Hin. rewrite Forall_forall in Hx. apply Hx in Hin.
  unfold lex_lt in Hin. lia.
Qed.

(** X14. [Train], when no block has a negative number of slices, returns
    after pushing every (iteration, block, slice) with
    [0 <= iteration < num_iterations], [0 <= block < num_blocks] and
    [0 <= slice < num_slice(block)] exactly once and nothing else, in
    increasing lexicographic order: all the slices of a block before the
    next block, all the blocks before the next iteration.  The number of
    data blocks pushed is [num_iterations] times the total number of
    slices. *)
Theorem train_pushes_every_slice (cfg : Config) (num_blocks : Z) (num_slice : Z -> Z) :
  (forall block, 0 <= block < num_blocks -> 0 <= num_slice block) ->
  exists tr,
    Train cfg num_blocks num_slice = Some tr /\
    StronglySorted lex_lt (pushed_blocks tr) /\
    NoDup (pushed_blocks tr) /\
    (forall i block slice,
        (i, block, slice) ∈ pushed_blocks tr <->
        0 <= i < num_iterations cfg /\ 0 <= block < num_blocks /\
        0 <= slice < num_slice block) /\
    Z.of_nat (length (pushed_blocks tr))
    = Z.max 0 (num_iterations cfg)
      * foldr (fun block acc => num_slice block + acc) 0 (seqZ 0 num_blocks).
Proof.
  intros Hn. eexists. split; [apply Train_total; intros _; exact Hn|].
  assert (Hp : pushed_blocks
                 ([BeginTrain]
                  ++ concat (clock_calls num_blocks num_slice <$> seqZ 0 (num_iterations cfg))
                  ++ [EndTrain])
               = concat (clock_triples num_blocks num_slice <$> seqZ 0 (num_iterations cfg))).
  { rewrite !pushed_blocks_app, pushed_blocks_concat. simpl. rewrite app_nil_r.
    rewrite <- list_fmap_compose. f_equal.
    apply fmap_ext_all. intros i. apply pushed_blocks_clock. }
  rewrite Hp.
  assert (Hs : StronglySorted lex_lt
                 (concat (clock_triples num_blocks num_slice <$> seqZ 0 (num_iterations cfg)))).
  { apply sorted_concat_range.
    - intros i. apply sorted_clock_triples.
    - intros i1 i2 x y Hlt Hx Hy.
      apply elem_of_clock_triples in Hx as (Hxi & _).
      apply elem_of_clock_triples in Hy as (Hyi & _).
      unfold lex_lt. left. lia. }
  split; [exact Hs|]. split; [apply sorted_NoDup, Hs|]. split.
  - intros i block slice. rewrite elem_of_concat_fmap. split.
    + intros (i' & Hi & Hx). apply elem_of_seqZ_0 in Hi.
      apply elem_of_clock_triples in Hx as (Hxi & Hb & Hsl). simpl in *. subst i'. auto.
    + intros (Hi & Hb & Hsl). exists i.
      split; [apply elem_of_seqZ_0, Hi | apply elem_of_clock_triples; simpl; auto].
  - rewrite length_concat_fmap.
    assert (Hlen : forall i, Z.of_nat (length (clock_triples num_blocks num_slice i))
                     = foldr (fun block acc => num_slice block + acc) 0 (seqZ 0 num_blocks)).
    { intros i. unfold clock_triples. rewrite length_concat_fmap.
      assert (Hgen : forall l : list Z, (forall block, block ∈ l -> 0 <= num_slice block) ->
                foldr (fun x acc => Z.of_nat (length (block_triples num_slice i x)) + acc) 0 l
                = foldr (fun block acc => num_slice block + acc) 0 l).
      { induction l as [|block l IH]; intros Hl; [reflexivity|].
        simpl foldr. rewrite IH by (intros y Hy; apply Hl; right; exact Hy).
        unfold block_triples. rewrite length_fmap, length_seqZ_0.
        pose proof (Hl block ltac:(left)). lia. }
      apply Hgen. intros block Hb. apply elem_of_seqZ_0 in Hb. apply Hn, Hb. }
    assert (Hgen : forall l : list Z,
              foldr (fun x acc => Z.of_nat (length (clock_triples num_blocks num_slice x)) + acc)
                    0 l
              = Z.of_nat (length l)
                * foldr (fun block acc => num_slice block + acc) 0 (seqZ 0 num_blocks)).
    { induction l as [|i l IH]; [reflexivity|].
      simpl foldr. rewrite IH, Hlen. simpl length. lia. }
    rewrite Hgen, length_seqZ_0. reflexivity.
Qed.

Lemma train_pushes_every_slice_witness :
  exists tr,
    Train example_config 2 (fun block => block + 1) = Some tr /\
    pushed_blocks tr = [(0, 0, 0); (0, 1, 0); (0, 1, 1); (1, 0, 0); (1, 1, 0); (1, 1, 1)] /\
    NoDup (pushed_blocks tr).
Proof.
  destruct (train_pushes_every_slice example_config 2 (fun block => block + 1)
              ltac:(intros block Hb; lia)) as (tr & Htr & _ & Hnd & _).
  exists tr. split; [exact Htr|]. split; [|exact Hnd].
  vm_compute in Htr. injection Htr as <-. reflexivity.
Defined.

Lemma middle_split {A} (l1 l2 l3 tr1 tr2 : list A) x :
  l1 ++ l2 ++ l3 = tr1 ++ x :: tr2 -> x ∉ l1 -> x ∉ l3 ->
  exists t1 t2, l2 = t1 ++ x :: t2 /\ tr1 = l1 ++ t1 /\ tr2 = t2 ++ l3.
Proof.
  intros Heq H1 H3.
  destruct (split_before (fun e => e <> x) l1 (l2 ++ l3) tr1 tr2 x Heq)
    as (l & -> & Hl).
  - intros y Hy ->. contradiction.
  - intros Hne. apply Hne. reflexivity.
  - apply app_eq_app in Hl as [l' [[-> Hl] | [-> Hl]]].
    + destruct l' as [|y l'].
      * exfalso. apply H3. simpl in Hl. rewrite <- Hl. left.
      * simpl in Hl. injection Hl as <- ->. exists l, l'. auto.
    + exfalso. apply H3. rewrite Hl. apply elem_of_app. right. left.
Qed.

Lemma concat_split {A} (ls : list (list A)) : forall tr1 x tr2,
  concat ls = tr1 ++ x :: tr2 ->
  exists la l lb t1 t2,
    ls = la ++ l :: lb /\ l = t1 ++ x :: t2 /\
    tr1 = concat la ++ t1 /\ tr2 = t2 ++ concat lb.
Proof.
  induction ls as [|l ls IH]; intros tr1 x tr2 Heq.
  - destruct tr1; discriminate.
  - simpl in Heq. apply app_eq_app in Heq as [l' [[Hl1 Hl] | [Hl1 Hl]]].
    + destruct l' as [|y l'].
      * rewrite app_nil_r in Hl1. subst l. simpl in Hl. symmetry in Hl.
        destruct (IH [] x tr2 Hl) as (la & l0 & lb & t1 & t2 & -> & -> & Ht1 & ->).
        exists (tr1 :: la), (t1 ++ x :: t2), lb, t1, t2.
        split; [reflexivity|]. split; [reflexivity|]. split; [|reflexivity].
        simpl. rewrite <- !app_assoc. simpl. rewrite <- Ht1, app_nil_r. reflexivity.
      * subst l. simpl in Hl. injection Hl as <- ->.
        exists [], (tr1 ++ x :: l'), ls, tr1, l'. auto.
    + subst tr1.
      destruct (IH l' x tr2 Hl) as (la & l0 & lb & t1 & t2 & -> & -> & -> & ->).
      exists (l :: la), (t1 ++ x :: t2), lb, t1, t2.
      split; [reflexivity|]. split; [reflexivity|]. split; [|reflexivity].
      simpl. rewrite <- app_assoc. reflexivity.
Qed.

(** X15. In the calls [Train] makes, every push of a data block stands
    inside the data access of its block: it is preceded, after
    [BeforeDataAccess] and the setting of the block's vocabulary, only by
    the pushes of the earlier slices of the same block in the same
    iteration, and followed only by the pushes of the later slices before
    [Multiverso::Wait] and then [EndDataAccess].  The data access of a
    block is thus ended, and the vector holding the pushed blocks
    released, only after a wait that follows the last push. *)
Theorem train_push_inside_data_access (cfg : Config) (num_blocks : Z)
    (num_slice : Z -> Z) (tr tr1 tr2 : list train_call) (i block slice : Z) :
  Train cfg num_blocks num_slice = Some tr ->
  tr = tr1 ++ PushDataBlock i block slice :: tr2 ->
  exists before earlier later rest,
    tr1 = before ++ [BeforeDataAccess; SetMeta block]
                 ++ ((fun s => PushDataBlock i block s) <$> earlier) /\
    tr2 = ((fun s => PushDataBlock i block s) <$> later)
          ++ [MultiversoWait; EndDataAccess] ++ rest /\
    earlier ++ slice :: later = seqZ 0 (num_slice block).
Proof.
  intros HT Htr. unfold Train in HT.
  destruct (mapM (train_clock num_blocks num_slice) (seqZ 0 (num_iterations cfg)))
    as [clocks|] eqn:Hclocks; [|discriminate].
  simpl in HT. injection HT as HT. rewrite <- HT in Htr.
  change (BeginTrain :: concat clocks ++ [EndTrain])
    with ([BeginTrain] ++ concat clocks ++ [EndTrain]) in Htr.
  apply middle_split in Htr as (t1 & t2 & Hc & -> & ->);
    [| intros Hin; apply list_elem_of_singleton in Hin; discriminate
     | intros Hin; apply list_elem_of_singleton in Hin; discriminate].
  apply concat_split in Hc as (ca & clock & cb & t1' & t2' & -> & -> & -> & ->).
  apply mapM_Some in Hclocks.
  apply Forall2_app_inv_r in Hclocks as (ia & ib & _ & Hclock & _).
  apply Forall2_cons_inv_r in Hclock as (i' & ib' & Hclock & _ & _).
  unfold train_clock in Hclock.
  destruct (mapM (train_block num_slice i') (seqZ 0 num_blocks))
    as [blocks|] eqn:Hblocks; [|discriminate].
  simpl in Hclock. injection Hclock as Hclock.
  change (BeginClock :: concat blocks ++ [EndClock])
    with ([BeginClock] ++ concat blocks ++ [EndClock]) in Hclock.
  apply middle_split in Hclock as (u1 & u2 & Hb & -> & ->);
    [| intros Hin; apply list_elem_of_singleton in Hin; discriminate
     | intros Hin; apply list_elem_of_singleton in Hin; discriminate].
  apply concat_split in Hb as (ba & blk & bb & u1' & u2' & -> & -> & -> & ->).
  apply mapM_Some in Hblocks.
  apply Forall2_app_inv_r in Hblocks as (ja & jb & _ & Hblock & _).
  apply Forall2_cons_inv_r in Hblock as (block' & jb' & Hblock & _ & _).
  unfold train_block in Hblock.
  destruct (num_slice block' <? 0); [discriminate|].
  injection Hblock as Hblock.
  change ([BeforeDataAccess; SetMeta block']
          ++ ((fun slice => PushDataBlock i' block' slice) <$> seqZ 0 (num_slice block'))
          ++ [MultiversoWait; EndDataAccess]
          = u1' ++ PushDataBlock i block slice :: u2') in Hblock.
  apply middle_split in Hblock as (v1 & v2 & Hpush & -> & ->).
  2:{ intros Hin. apply elem_of_cons in Hin as [Hin | Hin]; [discriminate|].
      apply list_elem_of_singleton in Hin. discriminate. }
  2:{ intros Hin. apply elem_of_cons in Hin as [Hin | Hin]; [discriminate|].
      apply list_elem_of_singleton in Hin. discriminate. }
  apply fmap_app_inv in Hpush as (earlier & l & -> & Hl & Hseq).
  symmetry in Hl. apply fmap_cons_inv in Hl as (s & later & Hs & -> & ->).
  injection Hs as -> -> ->.
  exists ([BeginTrain] ++ concat ca ++ [BeginClock] ++ concat ba), earlier, later,
         (concat bb ++ [EndClock] ++ concat cb ++ [EndTrain]).
  split; [|split].
  - rewrite <- !app_assoc. reflexivity.
  - rewrite <- !app_assoc. reflexivity.
  - symmetry. exact Hseq.
Qed.

Lemma train_push_inside_data_access_witness :
  exists before earlier later rest,
    [BeginTrain; BeginClock; BeforeDataAccess; SetMeta 0; PushDataBlock 0 0 0]
    = before ++ [BeforeDataAccess; SetMeta 0]
             ++ ((fun s => PushDataBlock 0 0 s) <$> earlier) /\
    [MultiversoWait; EndDataAccess; EndClock; EndTrain]
    = ((fun s => PushDataBlock 0 0 s) <$> later)
      ++ [MultiversoWait; EndDataAccess] ++ rest /\
    earlier ++ 1 :: later = seqZ 0 2.
Proof.
  exact (train_push_inside_data_access
           {| num_topics := 4; num_vocabs := 10; num_iterations := 1;
              asymmetric_alpha := (-1)%float; word_init := false; warm_start := false |}
           1 (fun _ => 2)
           [BeginTrain; BeginClock; BeforeDataAccess; SetMeta 0; PushDataBlock 0 0 0;
            PushDataBlock 0 0 1; MultiversoWait; EndDataAccess; EndClock; EndTrain]
           [BeginTrain; BeginClock; BeforeDataAccess; SetMeta 0; PushDataBlock 0 0 0]
           [MultiversoWait; EndDataAccess; EndClock; EndTrain]
           0 0 1 eq_refl eq_refl).
Defined.

(** ** The parameter loader *)

Lemma request_loop_meets steps local_vocab : forall p last,
  p <= last -> last - p <= Z.of_nat steps ->
  request_loop steps local_vocab p last
  = Some ((fun q => RequestRow kWordTopicTable (vocab_at local_vocab q))
            <$> seqZ p (last - p)).
Proof.
  induction steps as [|n IH]; intros p last Hle Hfuel.
  - assert (last = p) as -> by lia. simpl. rewrite Z.eqb_refl, Z.sub_diag. reflexivity.
  - simpl. destruct (Z.eqb_spec p last) as [->|Hne].
    + rewrite Z.sub_diag. reflexivity.
    + rewrite IH by lia. simpl.
      rewrite (seqZ_cons p (last - p)) by lia. rewrite fmap_cons.
      replace (Z.pred (last - p)) with (last - (p + 1)) by lia.
      replace (Z.succ p) with (p + 1) by lia. reflexivity.
Qed.

Lemma request_loop_misses steps local_vocab : forall p last,
  last < p -> request_loop steps local_vocab p last = None.
Proof.
  induction steps as [|n IH]; intros p last Hlt; simpl.
  - destruct (Z.eqb_spec p last); [lia | reflexivity].
  - destruct (Z.eqb_spec p last); [lia|]. rewrite IH by lia. reflexivity.
Qed.

Lemma request_loop_short steps local_vocab : forall p last,
  Z.of_nat steps < last - p -> request_loop steps local_vocab p last = None.
Proof.
  induction steps as [|n IH]; intros p last Hlt; simpl.
  - destruct (Z.eqb_spec p last); [lia | reflexivity].
  - destruct (Z.eqb_spec p last); [lia|]. rewrite IH by lia. reflexivity.
Qed.

(** X16. [ParseAndRequest] on a slice whose word range is [begin <= end]
    returns after requesting the word-topic row of the word at every
    position of the range, once per position and in order, then logging
    the first and last word, then requesting the whole summary row.  On a
    range with [end < begin] the loop, which stops only when the pointer
    meets [end], never meets it. *)
Theorem parse_and_request_rows (b : LDADataBlock) :
  let local_vocab := lda_meta b in
  let first := vocab_begin local_vocab (lda_slice b) in
  let last := vocab_end local_vocab (lda_slice b) in
  (first <= last ->
   forall steps, last - first <= Z.of_nat steps ->
     ParseAndRequest steps b
     = Some (((fun p => RequestRow kWordTopicTable (vocab_at local_vocab p))
                <$> seqZ first (last - first))
             ++ [LogDebug (vocab_at local_vocab first) (vocab_at local_vocab (last - 1));
                 RequestTable kSummaryRow])) /\
  (last < first -> forall steps, ParseAndRequest steps b = None).
Proof.
  intros local_vocab first last. split.
  - intros Hle steps Hfuel. unfold ParseAndRequest.
    fold local_vocab. fold first. fold last.
    rewrite request_loop_meets by assumption. reflexivity.
  - intros Hlt steps. unfold ParseAndRequest.
    fold local_vocab. fold first. fold last.
    rewrite request_loop_misses by assumption. reflexivity.
Qed.

Lemma parse_and_request_rows_witness :
  ParseAndRequest 3 (example_block 0 0 0)
  = Some [RequestRow kWordTopicTable 0; RequestRow kWordTopicTable 1;
          RequestRow kWordTopicTable 2; LogDebug 0 2; RequestTable kSummaryRow].
Proof.
  exact (proj1 (parse_and_request_rows (example_block 0 0 0))
           ltac:(simpl; lia) 3%nat ltac:(simpl; lia)).
Defined.

Section RequestsAndBuilds.
Context `{Collaborators}.
Variables (cfg : Config) (trainer_num : Z) (b : LDADataBlock).
Variables (docs : list Document) (w : Z -> world) (barrier : Z -> nat -> bool).

(** The alias-table builds of a call are those that precede the sampling
    barrier. *)
Lemma builds_of_thread id word :
  EvBuild word ∈ thread_program cfg trainer_num b docs w barrier id <->
  (id = 0 /\ word = -1) \/
  exists p, p ∈ word_positions (vocab_begin (lda_meta b) (lda_slice b))
                               (vocab_end (lda_meta b) (lda_slice b)) id trainer_num /\
            word = vocab_at (lda_meta b) p.
Proof.
  destruct (thread_program_run cfg trainer_num b docs w barrier id)
    as (l1 & tail & Hp & Hcase).
  rewrite Hp. unfold opening_events, build_events. split.
  - intros Hin.
    repeat (apply elem_of_app in Hin as [Hin | Hin]).
    + destruct (id =? 0); [|inversion Hin].
      apply list_elem_of_singleton in Hin. discriminate.
    + destruct (id =? 0); [|inversion Hin].
      apply list_elem_of_singleton in Hin. discriminate.
    + apply list_elem_of_singleton in Hin. discriminate.
    + right. apply list_elem_of_fmap in Hin as (p & Hw & Hin).
      injection Hw as ->. exists p. auto.
    + destruct (Z.eqb_spec id 0) as [->|_]; [|inversion Hin].
      apply elem_of_cons in Hin as [Hin | Hin].
      * injection Hin as ->. left. auto.
      * apply list_elem_of_singleton in Hin. discriminate.
    + destruct (_ && _); [|inversion Hin].
      apply list_elem_of_singleton in Hin. discriminate.
    + apply list_elem_of_singleton in Hin. discriminate.
    + destruct (id =? 0); [|inversion Hin].
      apply list_elem_of_singleton in Hin. discriminate.
    + apply list_elem_of_fmap in Hin as (x & Hx & _). discriminate.
    + exfalso. destruct Hcase as [(_ & n & docs' & w' & ->) | (d & l2 & m & _ & ->)].
      * destruct (ending_events_split cfg id trainer_num b n docs' w' (barrier id))
          as (X & HX & Hk & _).
        rewrite HX in Hin. apply elem_of_app in Hin as [Hin | Hin].
        -- revert Hin. eapply not_kind_not_in; [exact Hk | reflexivity].
        -- destruct (_ =? _) in Hin; [|inversion Hin].
           apply list_elem_of_singleton in Hin. discriminate.
      * apply list_elem_of_singleton in Hin. discriminate.
  - intros [[-> ->] | (p & Hpos & ->)].
    + change (0 =? 0) with true. cbv iota.
      apply elem_of_app. left. apply elem_of_app. right. apply elem_of_app. left.
      apply elem_of_app. right. apply elem_of_app. right. apply elem_of_app. right.
      apply elem_of_app. left. left.
    + apply elem_of_app. left. apply elem_of_app. right. apply elem_of_app. left.
      apply elem_of_app. right. apply elem_of_app. right. apply elem_of_app. left.
      apply (list_elem_of_fmap_2 (fun pword => EvBuild (vocab_at (lda_meta b) pword))).
      exact Hpos.
Qed.

End RequestsAndBuilds.

(** X17. The rows [ParseAndRequest] requests for a data block are the rows
    the trainer threads of a process read when they build the alias tables
    for it in [TrainIteration]: every word a thread builds a table for has
    its word-topic row among the requests (the shared build [Build(-1)] of
    thread 0 reads the summary row, which is requested whole), and every
    requested word-topic row is that of a word some thread of the process
    builds a table for. *)
Theorem requested_rows_are_built_rows `{Collaborators}
    (cfg : Config) (trainer_num : Z) (b : LDADataBlock)
    (docs : list Document) (w : Z -> world) (barrier : Z -> nat -> bool)
    (steps : nat) (reqs : list request) :
  1 <= trainer_num ->
  ParseAndRequest steps b = Some reqs ->
  RequestTable kSummaryRow ∈ reqs /\
  (forall id word, 0 <= id ->
     EvBuild word ∈ thread_program cfg trainer_num b docs w barrier id ->
     (id = 0 /\ word = -1) \/ RequestRow kWordTopicTable word ∈ reqs) /\
  (forall word, RequestRow kWordTopicTable word ∈ reqs ->
     exists id, 0 <= id < trainer_num /\
       EvBuild word ∈ thread_program cfg trainer_num b docs w barrier id).
Proof.
  intros HT Hreq.
  set (lo := vocab_begin (lda_meta b) (lda_slice b)).
  set (hi := vocab_end (lda_meta b) (lda_slice b)).
  unfold ParseAndRequest in Hreq. fold lo in Hreq. fold hi in Hreq.
  destruct (Z.lt_ge_cases hi lo) as [Hlt|Hle].
  { rewrite request_loop_misses in Hreq by assumption. discriminate. }
  destruct (Z.lt_ge_cases (Z.of_nat steps) (hi - lo)) as [Hshort|Hfuel].
  { rewrite request_loop_short in Hreq by assumption. discriminate. }
  rewrite request_loop_meets in Hreq by assumption.
  simpl in Hreq. injection Hreq as <-.
  split; [|split].
  - apply elem_of_app. right. right. left.
  - intros id word Hid Hin. apply builds_of_thread in Hin as [Hdense | (p & Hp & ->)].
    + left. exact Hdense.
    + right. apply elem_of_app. left.
      apply (list_elem_of_fmap_2 (fun q => RequestRow kWordTopicTable (vocab_at (lda_meta b) q))).
      unfold word_positions in Hp. fold lo in Hp. fold hi in Hp.
      apply elem_of_ptr_loop in Hp as [Hp _]; [|lia..].
      apply elem_of_seqZ. lia.
  - intros word Hin. apply elem_of_app in Hin as [Hin | Hin].
    + apply list_elem_of_fmap in Hin as (p & Hw & Hp). injection Hw as ->.
      apply elem_of_seqZ in Hp.
      destruct (ptr_loop_partitions trainer_num lo hi HT) as (_ & _ & Hcover).
      destruct (proj1 (Hcover p) ltac:(lia)) as (id & Hid & Hpos).
      exists id. split; [exact Hid|].
      apply builds_of_thread. right. exists p. split; [exact Hpos | reflexivity].
    + apply elem_of_cons in Hin as [Hin | Hin]; [discriminate|].
      apply list_elem_of_singleton in Hin. discriminate.
Qed.

Lemma requested_rows_are_built_rows_witness :
  exists id, 0 <= id < 2 /\
    EvBuild 1 ∈ @thread_program example_collaborators example_config 2
                  (example_block 0 0 1) example_docs (fun _ => tt) example_barrier id.
Proof.
  exact (proj2 (proj2 (@requested_rows_are_built_rows example_collaborators
                         example_config 2 (example_block 0 0 1) example_docs
                         (fun _ => tt) example_barrier 3%nat _
                         ltac:(lia) eq_refl))
           1 ltac:(vm_compute; right; left)).
Defined.

(** ** The round-robin partitions in the calls of the threads *)

Lemma built_words_app l1 l2 : built_words (l1 ++ l2) = built_words l1 ++ built_words l2.
Proof. apply omap_app. Qed.

Lemma built_words_builds (f : Z -> Z) (l : list Z) :
  built_words ((fun p => EvBuild (f p)) <$> l) = f <$> l.
Proof.
  induction l as [|x l IH]; [reflexivity|].
  rewrite !fmap_cons. unfold built_words. simpl. f_equal. exact IH.
Qed.

Lemma built_words_none l :
  Forall (fun e => is_alias_write e = false) l -> built_words l = [].
Proof.
  induction 1 as [|e l He _ IH]; [reflexivity|].
  destruct e; try exact IH. discriminate.
Qed.

Lemma elem_of_built_words tr word : word ∈ built_words tr <-> EvBuild word ∈ tr.
Proof.
  unfold built_words. rewrite list_elem_of_omap. split.
  - intros (e & He & Hw). destruct e; try discriminate. injection Hw as ->. exact He.
  - intros He. exists (EvBuild word). auto.
Qed.

Lemma elem_of_sampled_docs tr x : x ∈ sampled_docs tr <-> EvSampleOneDoc x ∈ tr.
Proof.
  unfold sampled_docs. rewrite list_elem_of_omap. split.
  - intros (e & He & Hx). destruct e; try discriminate. injection Hx as ->. exact He.
  - intros He. exists (EvSampleOneDoc x). auto.
Qed.

Section PartitionsInCalls.
Context `{Collaborators}.
Variables (cfg : Config) (trainer_num : Z) (b : LDADataBlock).
Variables (docs : list Document) (w : Z -> world) (barrier : Z -> nat -> bool).

Let prog := thread_program cfg trainer_num b docs w barrier.

(** The calls of [Build] in a call of [TrainIteration]: one per position of
    the thread's share of the slice, in order, then the shared table for
    thread 0. *)
Lemma built_words_program id :
  built_words (prog id)
  = (vocab_at (lda_meta b)
       <$> word_positions (vocab_begin (lda_meta b) (lda_slice b))
                          (vocab_end (lda_meta b) (lda_slice b)) id trainer_num)
    ++ (if id =? 0 then [-1] else []).
Proof.
  destruct (thread_program_run cfg trainer_num b docs w barrier id)
    as (l1 & tail & Hp & Hcase).
  fold (prog id) in Hp. rewrite Hp.
  assert (Htail : built_words tail = []).
  { destruct Hcase as [(_ & n & docs' & w' & ->) | (d & l2 & m & _ & ->)].
    - apply built_words_none, ending_events_no_alias_write.
    - reflexivity. }
  rewrite !built_words_app, Htail.
  rewrite (built_words_none (EvSampleOneDoc <$> l1))
    by (apply Forall_fmap, Forall_true; intros; reflexivity).
  unfold opening_events, build_events. rewrite !built_words_app.
  rewrite (built_words_builds (vocab_at (lda_meta b))).
  destruct (id =? 0), (0 <=? asymmetric_alpha cfg)%float; simpl;
    rewrite ?app_nil_r; reflexivity.
Qed.

(** The documents sampled in a call are an initial part of the thread's
    share, the whole of it when the call is not stopped. *)
Lemma sampled_docs_program id :
  exists rest,
    doc_ids (Z.of_nat (length docs)) id trainer_num = sampled_docs (prog id) ++ rest /\
    (halted (TrainIteration cfg id trainer_num b (enter docs (w id) (barrier id))) = false ->
     rest = []).
Proof.
  destruct (TrainIteration_run cfg id trainer_num b docs (w id) (barrier id))
    as (l1 & tail & Htr & _ & Hcase).
  change (ts_trace (final_state (TrainIteration cfg id trainer_num b
                                   (enter docs (w id) (barrier id)))))
    with (prog id) in Htr.
  assert (Hs : sampled_docs (prog id) = l1).
  { rewrite Htr, !sampled_docs_app, sampled_docs_opening, sampled_docs_samples.
    destruct Hcase as [(_ & _ & n & docs' & w' & ->) | (_ & d & l2 & m & _ & -> & _)].
    - rewrite sampled_docs_ending, app_nil_r. reflexivity.
    - rewrite app_nil_r. reflexivity. }
  rewrite Hs.
  destruct Hcase as [(Hh & -> & _) | (Hh & d & l2 & m & Hids & _)].
  - exists []. rewrite app_nil_r. auto.
  - exists (d :: l2). split; [exact Hids|]. rewrite Hh. discriminate.
Qed.

End PartitionsInCalls.

(** C2. For every thread count [T >= 1], every slice word range and every
    block of documents (with the 32-bit document index in its defined
    range): the positions [begin+id, begin+id+T, ...] of the threads are
    free of repetitions, pairwise disjoint and cover exactly the range, and
    so are the document ids [id, id+T, ...] over [[0, data.Size())]; the
    calls of [Build] that thread [id] makes in [TrainIteration] are exactly
    those of the words at its positions, in order (and the shared table for
    thread 0), so that, the words of a slice being distinct and none being
    [-1], every word of the slice is built by exactly one thread, once; the
    documents thread [id] passes to the sampler are an initial part of its
    ids, each once, and all of them when its call is not stopped, so that
    no document is sampled by two threads and every document is sampled by
    the one thread it belongs to. *)
Theorem round_robin_partitions `{Collaborators}
    (cfg : Config) (T : Z) (b : LDADataBlock)
    (docs : list Document) (w : Z -> world) (barrier : Z -> nat -> bool) :
  1 <= T -> Z.of_nat (length docs) + T <= 2 ^ 31 ->
  let vbegin := vocab_begin (lda_meta b) (lda_slice b) in
  let vend := vocab_end (lda_meta b) (lda_slice b) in
  let word_at := vocab_at (lda_meta b) in
  let size := Z.of_nat (length docs) in
  let prog := thread_program cfg T b docs w barrier in
  let stopped id :=
    halted (TrainIteration cfg id T b (enter docs (w id) (barrier id))) in
  partitions T (fun id => word_positions vbegin vend id T) vbegin vend /\
  partitions T (fun id => doc_ids size id T) 0 size /\
  (forall id,
      built_words (prog id)
      = (word_at <$> word_positions vbegin vend id T) ++ (if id =? 0 then [-1] else [])) /\
  ((forall p q, vbegin <= p < vend -> vbegin <= q < vend ->
                word_at p = word_at q -> p = q) ->
   (forall p, vbegin <= p < vend -> word_at p <> -1) ->
   (forall id, 0 <= id < T -> NoDup (built_words (prog id))) /\
   (forall p, vbegin <= p < vend ->
      exists id, 0 <= id < T /\ EvBuild (word_at p) ∈ prog id /\
        forall id', 0 <= id' < T -> EvBuild (word_at p) ∈ prog id' -> id' = id)) /\
  (forall id, 0 <= id < T ->
      NoDup (sampled_docs (prog id)) /\
      exists rest, doc_ids size id T = sampled_docs (prog id) ++ rest /\
                   (stopped id = false -> rest = [])) /\
  (forall id1 id2 x, 0 <= id1 < T -> 0 <= id2 < T ->
      EvSampleOneDoc x ∈ prog id1 -> EvSampleOneDoc x ∈ prog id2 -> id1 = id2) /\
  (forall x, 0 <= x < size ->
      exists id, 0 <= id < T /\ x ∈ doc_ids size id T /\
        (stopped id = false -> EvSampleOneDoc x ∈ prog id)).
Proof.
  intros HT Hsz vbegin vend word_at size prog stopped.
  pose proof (ptr_loop_partitions T vbegin vend HT) as Hwords.
  assert (Hdocs : partitions T (fun id => doc_ids size id T) 0 size).
  { pose proof (ptr_loop_partitions T 0 size HT) as (Hnd & Hdj & Hcov).
    assert (Heq : forall id, 0 <= id < T ->
              doc_ids size id T =
              ptr_loop (Z.to_nat (size - (0 + id))) (0 + id) size T).
    { intros id Hid. unfold doc_ids.
      rewrite idx_loop_ptr_loop by (unfold Int32.min_signed; lia).
      reflexivity. }
    split; [|split; [|intros p; split]].
    - intros id Hid. rewrite Heq by assumption. apply Hnd; assumption.
    - intros id1 id2 p H1 H2. rewrite !Heq by assumption. apply Hdj; assumption.
    - intros Hp. apply Hcov in Hp as (id & Hid & Hin).
      exists id. split; [assumption|]. rewrite Heq by assumption. exact Hin.
    - intros (id & Hid & Hin). rewrite Heq in Hin by assumption.
      apply (proj2 (Hcov p)). eauto. }
  assert (Hbuilt : forall id,
            built_words (prog id)
            = (word_at <$> word_positions vbegin vend id T)
              ++ (if id =? 0 then [-1] else []))
    by (intros id; apply built_words_program).
  assert (Hpre : forall id, exists rest,
            doc_ids size id T = sampled_docs (prog id) ++ rest /\
            (stopped id = false -> rest = []))
    by (intros id; apply sampled_docs_program).
  assert (Hsampled : forall id x, EvSampleOneDoc x ∈ prog id -> x ∈ doc_ids size id T).
  { intros id x Hin. destruct (Hpre id) as (rest & -> & _).
    apply elem_of_app. left. apply elem_of_sampled_docs. exact Hin. }
  split; [exact Hwords|]. split; [exact Hdocs|]. split; [exact Hbuilt|].
  destruct Hwords as (Hwnd & Hwdj & Hwcov). destruct Hdocs as (Hdnd & Hddj & Hdcov).
  split; [|split; [|split]].
  - intros Hinj Hreal. split.
    + intros id Hid. rewrite Hbuilt. apply NoDup_app. split; [|split].
      * apply NoDup_fmap_2_strong; [|apply Hwnd; exact Hid].
        intros p q Hp Hq. apply Hinj; apply Hwcov; eauto.
      * intros word Hword Hdense.
        apply list_elem_of_fmap in Hword as (p & -> & Hp).
        destruct (id =? 0); [|inversion Hdense].
        apply list_elem_of_singleton in Hdense.
        apply (Hreal p); [apply Hwcov; eauto | exact Hdense].
      * destruct (id =? 0); [apply NoDup_singleton | apply NoDup_nil_2].
    + intros p Hp. destruct (proj1 (Hwcov p) Hp) as (id & Hid & Hin).
      exists id. split; [exact Hid|]. split.
      * apply elem_of_built_words. rewrite Hbuilt. apply elem_of_app. left.
        apply list_elem_of_fmap_2. exact Hin.
      * intros id' Hid' Hin'. apply elem_of_built_words in Hin'.
        rewrite Hbuilt in Hin'. apply elem_of_app in Hin' as [Hin' | Hin'].
        -- apply list_elem_of_fmap in Hin' as (q & Hq & Hin').
           assert (Hqr : vbegin <= q < vend) by (apply Hwcov; eauto).
           apply Hinj in Hq; [|assumption|assumption]. subst q.
           eapply Hwdj; eassumption.
        -- exfalso. destruct (id' =? 0); [|inversion Hin'].
           apply list_elem_of_singleton in Hin'. apply (Hreal p Hp). exact Hin'.
  - intros id Hid. split; [|apply Hpre].
    destruct (Hpre id) as (rest & Hids & _).
    pose proof (Hdnd id Hid) as Hnd. simpl in Hnd. rewrite Hids in Hnd.
    apply NoDup_app in Hnd as (Hnd & _). exact Hnd.
  - intros id1 id2 x H1 H2 Hx1 Hx2.
    eapply Hddj; [exact H1 | exact H2 | apply Hsampled; exact Hx1 | apply Hsampled; exact Hx2].
  - intros x Hx. destruct (proj1 (Hdcov x) Hx) as (id & Hid & Hin).
    exists id. split; [exact Hid|]. split; [exact Hin|].
    intros Hrun. destruct (Hpre id) as (rest & Hids & Hrest).
    rewrite (Hrest Hrun), app_nil_r in Hids.
    apply elem_of_sampled_docs. rewrite <- Hids. exact Hin.
Qed.

(** Two threads on a slice of three words and a block of two documents:
    thread 0 builds the words at positions 0 and 2 and the shared table,
    thread 1 the word at position 1; each samples one document. *)
Lemma round_robin_partitions_witness :
  let prog := @thread_program example_collaborators example_config 2
                (example_block 0 0 1) example_docs (fun _ => tt) example_barrier in
  built_words (prog 0) = [0; 2; -1] /\ built_words (prog 1) = [1] /\
  sampled_docs (prog 0) = [0] /\ sampled_docs (prog 1) = [1] /\
  partitions 2 (fun id => word_positions 0 3 id 2) 0 3 /\
  partitions 2 (fun id => doc_ids 2 id 2) 0 2.
Proof.
  intros prog.
  destruct (@round_robin_partitions example_collaborators example_config 2
              (example_block 0 0 1) example_docs (fun _ => tt) example_barrier
              ltac:(lia) ltac:(simpl; lia))
    as (Hw & Hd & Hb & _ & Hs & _).
  split; [exact (Hb 0)|]. split; [exact (Hb 1)|].
  destruct (Hs 0 ltac:(lia)) as (_ & rest0 & Hids0 & Hrest0).
  destruct (Hs 1 ltac:(lia)) as (_ & rest1 & Hids1 & Hrest1).
  rewrite (Hrest0 eq_refl), app_nil_r in Hids0.
  rewrite (Hrest1 eq_refl), app_nil_r in Hids1.
  split; [symmetry; exact Hids0|]. split; [symmetry; exact Hids1|].
  split; [exact Hw | exact Hd].
Defined.

(** ** The barrier never blocks the threads of a process *)

Lemma ginit_no_fatal progs : no_fatal_performed (ginit progs).
Proof.
  intros _ i d t Hi. unfold ginit in Hi. simpl in Hi. rewrite list_lookup_fmap in Hi.
  destruct (progs !! i); simpl in Hi; [|discriminate].
  injection Hi as <- _. constructor.
Qed.

Lemma gstep_no_fatal c g g' :
  gstep c g = Some g' -> no_fatal_performed g -> no_fatal_performed g'.
Proof.
  unfold gstep. destruct (g_halted g) eqn:Hh; [discriminate|].
  intros Hstep Hinv. specialize (Hinv Hh).
  destruct c as [i|].
  - destruct (g_threads g !! i) as [[d [|e r]]|] eqn:Hi; try discriminate.
    destruct (is_wait e) eqn:He; [discriminate|].
    injection Hstep as <-. intros Hh' k dk tk Hk. simpl in Hh', Hk.
    apply list_lookup_insert_Some in Hk as [(<- & Heq & _) | (Hne & Hk)].
    + injection Heq as <- _. apply Forall_app. split; [eapply Hinv; exact Hi|].
      constructor; [exact Hh' | constructor].
    + eapply Hinv. exact Hk.
  - destruct (forallb at_barrier (g_threads g)) eqn:Hall; [|discriminate].
    destruct (length (List.filter elected_now (g_threads g)) =? 1)%nat; [|discriminate].
    simpl in Hstep. injection Hstep as <-. intros _ k dk tk Hk. simpl in Hk.
    rewrite list_lookup_fmap in Hk.
    destruct (g_threads g !! k) as [[d0 t0]|] eqn:Hk0; simpl in Hk; [|discriminate].
    destruct (forallb_at_barrier _ _ _ _ Hall Hk0) as (e & r & -> & He).
    unfold pass in Hk. simpl in Hk. injection Hk as <- _.
    apply Forall_app. split; [eapply Hinv; exact Hk0|].
    constructor; [destruct e; (reflexivity || discriminate) | constructor].
Qed.

Lemma gexec_no_fatal sched : forall g g',
  gexec sched g = Some g' -> no_fatal_performed g -> no_fatal_performed g'.
Proof.
  induction sched as [|c sched IH]; intros g g' Hex Hinv; simpl in Hex.
  - injection Hex as <-. exact Hinv.
  - destruct (gstep c g) as [g1|] eqn:Hstep; [|discriminate].
    eapply IH; [exact Hex|]. eapply gstep_no_fatal; eassumption.
Qed.

Lemma remaining_actions_insert ths : forall i d d' e r,
  ths !! i = Some (d, e :: r) ->
  S (remaining_actions (<[i := (d', r)]> ths)) = remaining_actions ths.
Proof.
  induction ths as [|x ths IH]; intros i d d' e r Hi; [discriminate|].
  destruct i as [|i]; simpl in Hi.
  - injection Hi as ->. simpl. lia.
  - simpl. rewrite <- (IH i d d' e r Hi). lia.
Qed.

Lemma remaining_actions_pass ths :
  forallb at_barrier ths = true ->
  (remaining_actions (pass <$> ths) + length ths)%nat = remaining_actions ths.
Proof.
  induction ths as [|[d t] ths IH]; intros Hall; [reflexivity|].
  simpl in Hall. apply andb_true_iff in Hall as [Hx Hall].
  rewrite fmap_cons. simpl. rewrite <- (IH Hall).
  unfold at_barrier in Hx. simpl in Hx. destruct t as [|e r]; [discriminate|].
  unfold pass. simpl. lia.
Qed.

Lemma gstep_remaining c g g' :
  gstep c g = Some g' -> (remaining g' < remaining g)%nat.
Proof.
  unfold gstep, remaining. destruct (g_halted g); [discriminate|].
  destruct c as [i|].
  - destruct (g_threads g !! i) as [[d [|e r]]|] eqn:Hi; try discriminate.
    destruct (is_wait e); [discriminate|].
    intros Hstep. injection Hstep as <-. simpl.
    rewrite <- (remaining_actions_insert _ i d (d ++ [e]) e r Hi). lia.
  - destruct (forallb at_barrier (g_threads g)) eqn:Hall; [|discriminate].
    destruct (Nat.eqb_spec (length (List.filter elected_now (g_threads g))) 1)
      as [Hone|]; [|discriminate].
    intros Hstep. simpl in Hstep. injection Hstep as <-. simpl.
    rewrite <- (remaining_actions_pass _ Hall).
    destruct (g_threads g); [discriminate Hone | simpl; lia].
Qed.

Lemma gexec_remaining sched : forall g g',
  gexec sched g = Some g' -> (length sched + remaining g' <= remaining g)%nat.
Proof.
  induction sched as [|c sched IH]; intros g g' Hex; simpl in Hex.
  - injection Hex as <-. simpl. lia.
  - destruct (gstep c g) as [g1|] eqn:Hstep; [|discriminate].
    apply gstep_remaining in Hstep. specialize (IH _ _ Hex). simpl. lia.
Qed.

Lemma remaining_ginit progs : remaining (ginit progs) = length (concat progs).
Proof.
  unfold remaining, ginit. simpl.
  induction progs as [|p progs IH]; [reflexivity|].
  rewrite fmap_cons. simpl. rewrite length_app, IH. reflexivity.
Qed.

Lemma wait_results_app l1 l2 :
  wait_results (l1 ++ l2) = wait_results l1 ++ wait_results l2.
Proof. apply omap_app. Qed.

Lemma length_wait_results l : length (wait_results l) = waits l.
Proof.
  unfold wait_results, waits.
  induction l as [|e l IH]; [reflexivity|].
  destruct e; simpl; try exact IH. f_equal. exact IH.
Qed.

Lemma wait_results_none l :
  Forall (fun e => is_wait e = false) l -> wait_results l = [].
Proof.
  induction 1 as [|e l He _ IH]; [reflexivity|].
  destruct e; try exact IH. discriminate.
Qed.

Lemma fmap_seq_shift {A} (f : nat -> A) (n : nat) : forall s,
  (fun k => f (k + 2)%nat) <$> seq s n = f <$> seq (s + 2) n.
Proof.
  induction n as [|n IH]; intros s; [reflexivity|].
  simpl. f_equal. apply IH.
Qed.

Lemma filter_none {A} (P : A -> bool) (l : list A) :
  (forall j x, l !! j = Some x -> P x = false) -> List.filter P l = [].
Proof.
  induction l as [|x l IH]; intros Hall; [reflexivity|].
  simpl. rewrite (Hall 0%nat x eq_refl). apply IH.
  intros j y Hj. apply (Hall (S j)). exact Hj.
Qed.

(** A list in which exactly the element at one index satisfies the test. *)
Lemma filter_unique_index {A} (P : A -> bool) (l : list A) : forall j0,
  (j0 < length l)%nat ->
  (forall j x, l !! j = Some x -> (P x = true <-> j = j0)) ->
  length (List.filter P l) = 1%nat.
Proof.
  induction l as [|x l IH]; intros j0 Hlt Hall; [simpl in Hlt; lia|].
  simpl. destruct j0 as [|j0].
  - rewrite (proj2 (Hall 0%nat x eq_refl) eq_refl). simpl. f_equal.
    rewrite filter_none; [reflexivity|].
    intros j y Hj. destruct (P y) eqn:Hy; [|reflexivity].
    apply (Hall (S j) y Hj) in Hy. discriminate.
  - destruct (P x) eqn:Hx.
    + apply (Hall 0%nat x eq_refl) in Hx. discriminate.
    + apply (IH j0); [simpl in Hlt; lia|].
      intros j y Hj. rewrite (Hall (S j) y Hj). lia.
Qed.

Lemma forallb_false_witness {A} (P : A -> bool) (l : list A) :
  forallb P l = false -> exists j x, l !! j = Some x /\ P x = false.
Proof.
  induction l as [|x l IH]; [discriminate|]. simpl.
  destruct (P x) eqn:Hx.
  - intros Hl. destruct (IH Hl) as (j & y & Hj & Hy). exists (S j), y. auto.
  - intros _. exists 0%nat, x. auto.
Qed.

Section Progress.
Context `{Collaborators}.
Variables (cfg : Config) (trainer_num : Z) (b : LDADataBlock).
Variables (docs : list Document) (w : Z -> world) (barrier : Z -> nat -> bool).

Let prog := thread_program cfg trainer_num b docs w barrier.

Lemma wait_results_gated gate elected m reset :
  is_wait reset = false ->
  wait_results (gated_wait_events gate elected m reset) = if gate then [elected] else [].
Proof.
  intros Hr. destruct gate, elected; try reflexivity.
  unfold gated_wait_events, wait_results. simpl.
  destruct reset; (discriminate || reflexivity).
Qed.

Lemma wait_results_evaluate id docs' w' e1 e2 e3 :
  wait_results (evaluate_events id trainer_num b docs' w' e1 e2 e3)
  = (if lda_slice b =? 0 then [e1] else [])
    ++ (if lda_block b =? 0 then [e2] else []) ++ [e3].
Proof.
  unfold evaluate_events. rewrite !wait_results_app, !wait_results_gated by reflexivity.
  destruct (lda_slice b =? 0), (lda_block b =? 0), (id =? 0); reflexivity.
Qed.

Lemma wait_results_ending id n docs' w' (bar : nat -> bool) :
  wait_results (ending_events cfg id trainer_num b n docs' w' bar)
  = bar <$> seq 2 (closing_waits b).
Proof.
  unfold ending_events, closing_events, closing_waits, gated_waits.
  rewrite !wait_results_app.
  destruct (Int32.rem (lda_iteration b) 2 =? 0).
  - rewrite wait_results_app, wait_results_evaluate.
    destruct (lda_slice b =? 0), (lda_block b =? 0), (id =? 0),
             (lda_iteration b =? Int32.wrap (num_iterations cfg - 1)); reflexivity.
  - destruct (id =? 0), (lda_iteration b =? Int32.wrap (num_iterations cfg - 1));
      reflexivity.
Qed.

Lemma wait_results_opening id :
  wait_results (opening_events cfg id trainer_num b (barrier id))
  = [barrier id 0%nat; barrier id 1%nat].
Proof.
  unfold opening_events, build_events. rewrite !wait_results_app.
  rewrite (wait_results_none (_ <$> _))
    by (apply Forall_fmap, Forall_true; intros; reflexivity).
  destruct (id =? 0), (0 <=? asymmetric_alpha cfg)%float; reflexivity.
Qed.

(** The [k]-th wait of a thread is told what the barrier holds for it. *)
Lemma wait_results_program id :
  wait_results (prog id) = barrier id <$> seq 0 (waits (prog id)).
Proof.
  destruct (thread_program_run cfg trainer_num b docs w barrier id)
    as (l1 & tail & Hp & Hcase).
  fold (prog id) in Hp. rewrite Hp.
  rewrite !waits_app, !wait_results_app, waits_opening_events, waits_samples,
    wait_results_opening.
  rewrite (wait_results_none (_ <$> _))
    by (apply Forall_fmap, Forall_true; intros; reflexivity).
  destruct Hcase as [(_ & n & docs' & w' & ->) | (d & l2 & m & _ & ->)].
  - rewrite waits_ending_events, wait_results_ending. reflexivity.
  - reflexivity.
Qed.

Lemma wait_value id d e r :
  prog id = d ++ EvWait e :: r -> e = barrier id (waits d).
Proof.
  intros Hd.
  assert (Hl : wait_results (prog id) !! waits d = Some e).
  { rewrite Hd, wait_results_app, <- length_wait_results.
    change (wait_results (EvWait e :: r)) with (e :: wait_results r).
    apply list_lookup_middle. reflexivity. }
  rewrite wait_results_program, list_lookup_fmap in Hl.
  destruct (seq 0 (waits (prog id)) !! waits d) as [k|] eqn:Hk; simpl in Hl; [|discriminate].
  apply lookup_seq in Hk as [-> _]. injection Hl as <-. reflexivity.
Qed.

Lemma program_waits_bound id : (waits (prog id) <= 2 + closing_waits b)%nat.
Proof.
  destruct (thread_program_run cfg trainer_num b docs w barrier id)
    as (l1 & tail & Hp & Hcase).
  fold (prog id) in Hp. rewrite Hp, !waits_app, waits_opening_events, waits_samples.
  destruct Hcase as [(_ & n & docs' & w' & ->) | (d & l2 & m & _ & ->)].
  - rewrite waits_ending_events. lia.
  - change (waits [EvFatal m]) with 0%nat. lia.
Qed.

Lemma program_waits_complete id :
  Forall (fun e => is_fatal e = false) (prog id) ->
  waits (prog id) = (2 + closing_waits b)%nat.
Proof.
  intros Hnf.
  destruct (thread_program_run cfg trainer_num b docs w barrier id)
    as (l1 & tail & Hp & Hcase).
  fold (prog id) in Hp. rewrite Hp in Hnf |- *.
  rewrite !waits_app, waits_opening_events, waits_samples.
  destruct Hcase as [(_ & n & docs' & w' & ->) | (d & l2 & m & _ & ->)].
  - rewrite waits_ending_events. lia.
  - exfalso. apply Forall_app in Hnf as [_ Hnf]. apply Forall_app in Hnf as [_ Hnf].
    apply Forall_cons in Hnf as [Hnf _]. discriminate.
Qed.

End Progress.

(** X18. The barrier never blocks the threads of a process for ever.  Take
    the threads running [TrainIteration] on one block, with a barrier that
    tells [true] to exactly one of them at each release.  Any execution
    takes at most as many steps as the threads have actions; and in any
    state it reaches where no fatal log has stopped the run, either every
    thread has performed all the actions of its call, or a step is
    possible: some thread can go on, or all the threads stand at the
    barrier, exactly one of them elected, and the barrier opens. *)
Theorem barrier_never_blocks `{Collaborators}
    (cfg : Config) (trainer_num : Z) (b : LDADataBlock)
    (docs : list Document) (w : Z -> world) (barrier : Z -> nat -> bool)
    (sched : list choice) (g : gstate) :
  elects_one trainer_num barrier ->
  gexec sched (ginit (programs cfg trainer_num b docs w barrier)) = Some g ->
  (length sched <= length (concat (programs cfg trainer_num b docs w barrier)))%nat /\
  (g_halted g = false ->
   (forall j d t, g_threads g !! j = Some (d, t) ->
      t = [] /\ d = thread_program cfg trainer_num b docs w barrier (Z.of_nat j)) \/
   exists c g', gstep c g = Some g').
Proof.
  intros Hone Hex. split.
  { pose proof (gexec_remaining _ _ _ Hex) as Hrem.
    rewrite remaining_ginit in Hrem. lia. }
  intros Hh.
  set (progs := programs cfg trainer_num b docs w barrier) in *.
  destruct (gexec_consistent progs _ _ _ Hex (ginit_consistent progs) (ginit_ordered progs))
    as [(Hlen & Hdec & Hw & _) _].
  pose proof (gexec_no_fatal _ _ _ Hex (ginit_no_fatal progs) Hh) as Hnf.
  assert (Hprog : forall j d t, g_threads g !! j = Some (d, t) ->
            thread_program cfg trainer_num b docs w barrier (Z.of_nat j) = d ++ t /\
            Z.of_nat j < trainer_num).
  { intros j d t Hj. apply Hdec in Hj.
    apply (programs_lookup cfg trainer_num b docs w barrier) in Hj as [Hj Hlt]. auto. }
  destruct (existsb runnable (g_threads g)) eqn:Hrun.
  { right. apply existsb_exists in Hrun as ([d t] & Hin & Hr).
    apply list_elem_of_In, list_elem_of_lookup in Hin as [i Hi].
    unfold runnable in Hr. simpl in Hr. destruct t as [|e r]; [discriminate|].
    apply negb_true_iff in Hr.
    exists (Run i). eexists. unfold gstep. rewrite Hh, Hi, Hr. reflexivity. }
  assert (Hnr : forall i d t, g_threads g !! i = Some (d, t) ->
            t = [] \/ exists e r, t = EvWait e :: r).
  { intros i d t Hi. destruct t as [|e r]; [left; reflexivity|]. right.
    destruct (is_wait e) eqn:He.
    - destruct e; try discriminate. eauto.
    - exfalso. assert (Hex' : existsb runnable (g_threads g) = true).
      { apply existsb_exists. exists (d, e :: r).
        split; [apply list_elem_of_In; eapply list_elem_of_lookup_2; exact Hi|].
        unfold runnable. simpl. rewrite He. reflexivity. }
      congruence. }
  destruct (forallb finished (g_threads g)) eqn:Hfin.
  { left. intros j d t Hj.
    rewrite forallb_forall in Hfin.
    specialize (Hfin (d, t)
                  ltac:(apply list_elem_of_In; eapply list_elem_of_lookup_2; exact Hj)).
    unfold finished in Hfin. simpl in Hfin. destruct t; [|discriminate].
    split; [reflexivity|].
    destruct (Hprog j d [] Hj) as [Hp _]. rewrite app_nil_r in Hp. symmetry. exact Hp. }
  right.
  apply forallb_false_witness in Hfin as (i0 & [d0 t0] & Hi0 & Hf0).
  destruct (Hnr i0 d0 t0 Hi0) as [-> | (e0 & r0 & ->)]; [discriminate|].
  destruct (Hprog i0 _ _ Hi0) as [Hp0 _].
  assert (Hall : forall i d t, g_threads g !! i = Some (d, t) ->
            exists e r, t = EvWait e :: r).
  { intros i d t Hi. destruct (Hnr i d t Hi) as [-> | Hwait]; [|exact Hwait].
    exfalso.
    destruct (Hprog i d [] Hi) as [Hp _]. rewrite app_nil_r in Hp.
    pose proof (Hnf i d [] Hi) as Hnfi. rewrite <- Hp in Hnfi.
    apply (program_waits_complete cfg trainer_num b docs w barrier) in Hnfi.
    pose proof (program_waits_bound cfg trainer_num b docs w barrier (Z.of_nat i0)) as Hb0.
    rewrite Hp0, waits_app in Hb0.
    change (waits (EvWait e0 :: r0)) with (S (waits r0)) in Hb0.
    rewrite Hp in Hnfi. pose proof (Hw i i0 _ _ _ _ Hi Hi0). lia. }
  assert (Hbar : forallb at_barrier (g_threads g) = true).
  { apply forallb_forall. intros [d t] Hin.
    apply list_elem_of_In, list_elem_of_lookup in Hin as [i Hi].
    destruct (Hall i d t Hi) as (e & r & ->). reflexivity. }
  assert (Hcount : length (List.filter elected_now (g_threads g)) = 1%nat).
  { destruct (Hone (waits d0)) as (id & Hid & Hb & Huniq).
    apply (filter_unique_index elected_now (g_threads g) (Z.to_nat id)).
    - rewrite Hlen. unfold progs, programs. rewrite length_fmap, length_seqZ. lia.
    - intros j [d t] Hj. destruct (Hall j d t Hj) as (e & r & ->).
      destruct (Hprog j _ _ Hj) as [Hp Hlt].
      apply (wait_value cfg trainer_num b docs w barrier) in Hp.
      rewrite (Hw j i0 _ _ _ _ Hj Hi0) in Hp.
      unfold elected_now. simpl. subst e.
      destruct (barrier (Z.of_nat j) (waits d0)) eqn:Hbj.
      + split; [intros _ | reflexivity].
        rewrite <- (Huniq (Z.of_nat j) ltac:(lia) Hbj). lia.
      + split; [discriminate|]. intros ->.
        rewrite Z2Nat.id in Hbj by lia. congruence. }
  exists Release. eexists. unfold gstep. rewrite Hh, Hbar, Hcount. reflexivity.
Qed.

Lemma barrier_never_blocks_witness :
  let progs := @programs example_collaborators example_config 2
                 (example_block 0 0 0) example_docs (fun _ => tt) example_barrier in
  exists g,
    gexec example_even_schedule (ginit progs) = Some g /\
    (length example_even_schedule <= length (concat progs))%nat.
Proof.
  intros progs. eexists. split; [vm_compute; reflexivity|].
  refine (proj1 (@barrier_never_blocks example_collaborators example_config 2
                   (example_block 0 0 0) example_docs (fun _ => tt) example_barrier
                   example_even_schedule _ _ _)).
  - intros k. exists 0. split; [lia|]. split; [reflexivity|].
    intros id' Hid' Hb. unfold example_barrier in Hb. apply Z.eqb_eq in Hb. exact Hb.
  - vm_compute. reflexivity.
Defined.
